(** * webwizard: the flag search of [parse_for_flag]

    A shallow embedding of [parse_for_flag] (src/webwizard.py, lines 62-107)
    and of the library routines it calls: [str.strip], the [rot-13] codec,
    [base64.b64encode] / [base64.b64decode], the UTF-8 codec and the part of
    the [re] module that the patterns built by [parse_for_flag] reach. *)

From Stdlib Require Import String Ascii List NArith ZArith Arith Lia Bool.
Import ListNotations.

Set Implicit Arguments.

(** ** Strings

    A Python [str] is a sequence of code points and a [bytes] object a
    sequence of octets; both are lists of numbers. *)

Abbreviation char := N.
Abbreviation byte := N.
Definition str := list char.
Definition bytes := list byte.

(** An ASCII literal as a Python string. *)
Definition py (s : string) : str := map N_of_ascii (list_ascii_of_string s).

Definition c_newline : char := 10%N.
Definition c_plus : char := Eval cbv in N_of_ascii "+".
Definition c_star : char := Eval cbv in N_of_ascii "*".
Definition c_comma : char := Eval cbv in N_of_ascii ",".
Definition c_minus : char := Eval cbv in N_of_ascii "-".
Definition c_dot : char := Eval cbv in N_of_ascii ".".
Definition c_slash : char := Eval cbv in N_of_ascii "/".
Definition c_equal : char := Eval cbv in N_of_ascii "=".
Definition c_quest : char := Eval cbv in N_of_ascii "?".
Definition c_lbracket : char := Eval cbv in N_of_ascii "[".
Definition c_backslash : char := Eval cbv in N_of_ascii "\".
Definition c_rbracket : char := Eval cbv in N_of_ascii "]".
Definition c_caret : char := Eval cbv in N_of_ascii "^".
Definition c_lbrace : char := Eval cbv in N_of_ascii "{".
Definition c_bar : char := Eval cbv in N_of_ascii "|".
Definition c_rbrace : char := Eval cbv in N_of_ascii "}".
Definition c_lparen : char := Eval cbv in N_of_ascii "(".
Definition c_rparen : char := Eval cbv in N_of_ascii ")".
Definition c_dollar : char := Eval cbv in N_of_ascii "$".
Definition c_s : char := Eval cbv in N_of_ascii "s".

Definition between (lo hi c : N) : bool := ((lo <=? c) && (c <=? hi))%N.

Definition is_upper (c : char) : bool := between 65 90 c.
Definition is_lower (c : char) : bool := between 97 122 c.
Definition is_digit (c : char) : bool := between 48 57 c.
Definition is_ascii_alnum (c : char) : bool := is_upper c || is_lower c || is_digit c.

(** ** [str.strip(chars)] with a one-character set *)

Fixpoint lstrip (x : char) (s : str) : str :=
  match s with
  | c :: s' => if (c =? x)%N then lstrip x s' else s
  | [] => []
  end.

Definition rstrip (x : char) (s : str) : str := rev (lstrip x (rev s)).

Definition strip (x : char) (s : str) : str := rstrip x (lstrip x s).

(** ** The [rot-13] codec: [codecs.encode(s, "rot-13")] and its inverse *)

Definition rot13_char (c : char) : char :=
  if is_upper c then (65 + (c - 65 + 13) mod 26)%N
  else if is_lower c then (97 + (c - 97 + 13) mod 26)%N
  else c.

Definition rot13 (s : str) : str := map rot13_char s.

(** ** Regular expressions: the fragment of [re] reached by the patterns

    The module was tested with Python 3.10 and 3.9; the parser and the
    matcher follow [sre_parse] and [_sre] of CPython 3.10. A compiled
    pattern is a sequence of items: a one-character atom, a quantified atom,
    or the opening and closing mark of the (single, unquantified) capture
    group. *)

Inductive atom :=
| ALit (c : char)
| AAny
| ASpace
| AIn (negate : bool) (set : list (char * char)).

Inductive item :=
| Atom (a : atom)
| Rep (a : atom) (lo : nat) (hi : option nat) (greedy : bool)
| Open
| Close.

Definition pattern := list item.

(** [Py_UNICODE_ISSPACE], the category behind [\s] in a [str] pattern. *)
Definition is_space (c : char) : bool :=
  between 9 13 c || between 28 32 c || (c =? 133)%N || (c =? 160)%N
  || (c =? 5760)%N || between 8192 8202 c || (c =? 8232)%N || (c =? 8233)%N
  || (c =? 8239)%N || (c =? 8287)%N || (c =? 12288)%N.

Definition in_range (c : char) (r : char * char) : bool := between (fst r) (snd r) c.

Definition accepts (a : atom) (c : char) : bool :=
  match a with
  | ALit x => (c =? x)%N
  | AAny => negb (c =? c_newline)%N
  | ASpace => is_space c
  | AIn negate set => xorb negate (existsb (in_range c) set)
  end.

(** *** [sre_parse]: from the pattern text to the item sequence *)

(** [SPECIAL_CHARS] and [REPEAT_CHARS] of [sre_parse]. *)
Definition special_chars : str := Eval cbv in py ".\[{()*+?^$|".
Definition repeat_chars : str := Eval cbv in py "*+?{".

Definition mem (c : char) (l : str) : bool := existsb (N.eqb c) l.

Definition special (c : char) : bool := mem c special_chars.

(** [_escape] outside a set: [\s] is the whitespace category, a backslash
    before any character that is no ASCII letter or digit is that character;
    the other escapes are outside the fragment. *)
Definition escape (e : char) : option atom :=
  if (e =? c_s)%N then Some ASpace
  else if is_ascii_alnum e then None
  else Some (ALit e).

(** [_class_escape]: the same inside a set, kept to the literal escapes. *)
Definition class_escape (e : char) : option char :=
  if is_ascii_alnum e then None else Some e.

Definition set_member (src : str) : option (char * str) :=
  match src with
  | [] => None
  | this :: src1 =>
      if (this =? c_backslash)%N then
        match src1 with
        | e :: src2 =>
            match class_escape e with Some c => Some (c, src2) | None => None end
        | [] => None
        end
      else Some (this, src1)
  end.

(** The loop over the members of a set, entered after "[" and an optional
    "^". [None] is an unterminated set, a bad range or an escape outside
    the fragment. *)
Fixpoint parse_set (fuel : nat) (src : str) (set : list (char * char))
  : option (list (char * char) * str) :=
  match fuel with
  | O => None
  | S fuel =>
      match src with
      | [] => None
      | this :: src1 =>
          if (this =? c_rbracket)%N && negb (Nat.eqb (length set) 0)
          then Some (rev set, src1)
          else
            match set_member src with
            | None => None
            | Some (code1, src2) =>
                match src2 with
                | [] => parse_set fuel src2 ((code1, code1) :: set)
                | d :: src3 =>
                    if (d =? c_minus)%N then
                      match src3 with
                      | [] => None
                      | that :: src4 =>
                          if (that =? c_rbracket)%N
                          then Some (rev ((c_minus, c_minus) :: (code1, code1) :: set), src4)
                          else
                            match set_member src3 with
                            | None => None
                            | Some (code2, src5) =>
                                if (code2 <? code1)%N then None
                                else parse_set fuel src5 ((code1, code2) :: set)
                            end
                      end
                    else parse_set fuel src2 ((code1, code1) :: set)
                end
            end
      end
  end.

Fixpoint take_digits (src : str) : str * str :=
  match src with
  | c :: src' =>
      if is_digit c then let (ds, r) := take_digits src' in (c :: ds, r)
      else ([], src)
  | [] => ([], [])
  end.

Definition int_of_digits (ds : str) : N :=
  fold_left (fun acc d => 10 * acc + (d - 48))%N ds 0%N.

Definition MAXREPEAT : N := 4294967295.

Inductive bounds :=
| BLiteral
| BError
| BRange (lo : nat) (hi : option nat) (rest : str).

(** The text after "{": [m,n}], [m}], [m,}], [,n}] or [,}] is a
    quantifier; anything else leaves the brace a literal character. *)
Definition brace_bounds (src : str) : bounds :=
  let (lo, src1) := take_digits src in
  let '(hi, src2) :=
    match src1 with
    | c :: src1' => if (c =? c_comma)%N then take_digits src1' else (lo, src1)
    | [] => (lo, src1)
    end in
  match src2 with
  | c :: src3 =>
      if (c =? c_rbrace)%N then
        match src with
        | c0 :: _ =>
            if (c0 =? c_rbrace)%N then BLiteral
            else
              let mn := int_of_digits lo in
              let mx := int_of_digits hi in
              if (MAXREPEAT <=? mn)%N then BError
              else if (MAXREPEAT <=? mx)%N then BError
              else
                match hi with
                | [] => BRange (N.to_nat mn) None src3
                | _ => if (mx <? mn)%N then BError
                       else BRange (N.to_nat mn) (Some (N.to_nat mx)) src3
                end
        | [] => BLiteral
        end
      else BLiteral
  | [] => BLiteral
  end.

Definition repeat_bounds (this : char) (src : str) : bounds :=
  if (this =? c_star)%N then BRange 0 None src
  else if (this =? c_plus)%N then BRange 1 None src
  else if (this =? c_quest)%N then BRange 0 (Some 1) src
  else brace_bounds src.

(** [_parse], flattened: [acc] holds the items read so far, last first;
    [grp] is 0 before the capture group, 1 inside it and 2 after it. A
    quantifier rewrites the last item, which has to be a plain atom: a
    second quantifier is "multiple repeat", none is "nothing to repeat".
    [None] stands for every pattern that [re.compile] rejects and for
    syntax outside the fragment (alternation, anchors, group extensions,
    a quantified, nested or second group, letter and digit escapes). *)
Fixpoint parse (fuel : nat) (src : str) (acc : list item) (grp : nat)
  : option pattern :=
  match fuel with
  | O => None
  | S fuel =>
      match src with
      | [] => if Nat.eqb grp 1 then None else Some (rev acc)
      | this :: src1 =>
          if (this =? c_backslash)%N then
            match src1 with
            | [] => None
            | e :: src2 =>
                match escape e with
                | Some a => parse fuel src2 (Atom a :: acc) grp
                | None => None
                end
            end
          else if negb (special this) then
            parse fuel src1 (Atom (ALit this) :: acc) grp
          else if (this =? c_lbracket)%N then
            let '(negate, src2) :=
              match src1 with
              | c :: src1' => if (c =? c_caret)%N then (true, src1') else (false, src1)
              | [] => (false, src1)
              end in
            match parse_set (S (length src2)) src2 [] with
            | Some (set, src3) => parse fuel src3 (Atom (AIn negate set) :: acc) grp
            | None => None
            end
          else if mem this repeat_chars then
            match repeat_bounds this src1 with
            | BLiteral => parse fuel src1 (Atom (ALit this) :: acc) grp
            | BError => None
            | BRange lo hi src2 =>
                match acc with
                | Atom a :: acc' =>
                    match src2 with
                    | q :: src3 =>
                        if (q =? c_quest)%N
                        then parse fuel src3 (Rep a lo hi false :: acc') grp
                        else parse fuel src2 (Rep a lo hi true :: acc') grp
                    | [] => parse fuel src2 (Rep a lo hi true :: acc') grp
                    end
                | _ => None
                end
            end
          else if (this =? c_dot)%N then
            parse fuel src1 (Atom AAny :: acc) grp
          else if (this =? c_lparen)%N then
            match src1 with
            | q :: _ =>
                if (q =? c_quest)%N then None
                else if Nat.eqb grp 0 then parse fuel src1 (Open :: acc) 1 else None
            | [] => None
            end
          else if (this =? c_rparen)%N then
            if Nat.eqb grp 1 then parse fuel src1 (Close :: acc) 2 else None
          else None
      end
  end.

(** [re.compile(pattern)] *)
Definition re_compile (src : str) : option pattern :=
  parse (S (length src)) src [] 0.

(** *** [sre]: backtracking match *)

Definition hi_pred (hi : option nat) : option nat :=
  match hi with Some n => Some (pred n) | None => None end.

Definition hi_open (hi : option nat) : bool :=
  match hi with Some n => negb (Nat.eqb n 0) | None => true end.

(** A quantified atom in front of the continuation [k]. Greedy: take one
    more character first and fall back to stopping here; lazy: try to stop
    first. The first success in that order is the result. *)
Fixpoint rep {R : Type} (a : atom) (greedy : bool) (lo : nat) (hi : option nat)
    (s : str) (k : str -> option R) : option R :=
  match s with
  | [] => if Nat.eqb lo 0 then k [] else None
  | c :: s' =>
      if accepts a c && hi_open hi then
        if Nat.eqb lo 0 then
          if greedy then
            match rep a greedy 0 (hi_pred hi) s' k with
            | Some r => Some r
            | None => k s
            end
          else
            match k s with
            | Some r => Some r
            | None => rep a greedy 0 (hi_pred hi) s' k
            end
        else rep a greedy (pred lo) (hi_pred hi) s' k
      else if Nat.eqb lo 0 then k s else None
  end.

(** [SRE(match)] at the top level, at the head of [s]: the suffixes of [s]
    at the group marks, in order, and the suffix left after the match. With
    [must_advance] a path that ends where it began, [start] characters
    before the end of the text, fails and the search backtracks. *)
Fixpoint sre_match (p : pattern) (must_advance : bool) (start : nat) (s : str)
  : option (list str * str) :=
  match p with
  | [] => if must_advance && Nat.eqb (length s) start then None else Some ([], s)
  | Atom a :: p' =>
      match s with
      | c :: s' => if accepts a c then sre_match p' must_advance start s' else None
      | [] => None
      end
  | Rep a lo hi greedy :: p' =>
      rep a greedy lo hi s (sre_match p' must_advance start)
  | Open :: p' | Close :: p' =>
      match sre_match p' must_advance start s with
      | Some (marks, rest) => Some (s :: marks, rest)
      | None => None
      end
  end.

Definition run (p : pattern) (s : str) : option (list str * str) :=
  sre_match p false 0 s.

(** *** [Pattern.finditer] and [Pattern.findall]

    The scan tries every position from left to right; a match at a position
    is recorded and the characters it covers are skipped ([skip] counts the
    ones still to pass), so matches never overlap. After an empty match the
    same position is tried once more for a match that advances, then the
    scan moves on by one character. *)

Record found := mk_found { start : nat; stop : nat; value : str }.

Definition take_until (s rest : str) : str := firstn (length s - length rest) s.

(** What [findall] reports for a match: the text of the capture group when
    the pattern has one, the whole match otherwise. *)
Definition reported (s : str) (marks : list str) (rest : str) : str :=
  match marks with
  | [o; c] => take_until o c
  | _ => take_until s rest
  end.

Fixpoint finditer (p : pattern) (s : str) (skip pos : nat) : list found :=
  match s with
  | [] =>
      match skip with
      | O =>
          match run p [] with
          | Some (marks, rest) => [mk_found pos pos (reported [] marks rest)]
          | None => []
          end
      | S _ => []
      end
  | _ :: s' =>
      match skip with
      | S k => finditer p s' k (S pos)
      | O =>
          match run p s with
          | Some (marks, rest) =>
              match length s - length rest with
              | S n =>
                  mk_found pos (pos + S n) (reported s marks rest)
                  :: finditer p s' n (S pos)
              | O =>
                  mk_found pos pos (reported s marks rest)
                  :: match sre_match p true (length s) s with
                     | Some (marks', rest') =>
                         let n := length s - length rest' in
                         mk_found pos (pos + n) (reported s marks' rest')
                         :: finditer p s' (pred n) (S pos)
                     | None => finditer p s' 0 (S pos)
                     end
              end
          | None => finditer p s' 0 (S pos)
          end
      end
  end.

Definition findall (p : pattern) (text : str) : list str :=
  map value (finditer p text 0 0).

(** ** The UTF-8 codec: [bytes(s, "utf-8")] and [bytes.decode()] *)

Definition utf8_char (c : char) : option bytes :=
  (if c <? 128 then Some [c]
   else if c <? 2048 then Some [192 + c / 64; 128 + c mod 64]
   else if c <? 65536 then
     if between 55296 57343 c then None
     else Some [224 + c / 4096; 128 + (c / 64) mod 64; 128 + c mod 64]
   else if c <? 1114112 then
     Some [240 + c / 262144; 128 + (c / 4096) mod 64;
           128 + (c / 64) mod 64; 128 + c mod 64]
   else None)%N.

Fixpoint utf8_encode (s : str) : option bytes :=
  match s with
  | [] => Some []
  | c :: s' =>
      match utf8_char c, utf8_encode s' with
      | Some b, Some bs => Some (b ++ bs)
      | _, _ => None
      end
  end.

Definition continuation (b : byte) : bool := between 128 191 b.

Definition push (c : char) (r : option str) : option str :=
  match r with Some s => Some (c :: s) | None => None end.

(** Strict decoding: overlong forms, surrogates, code points above
    U+10FFFF and truncated sequences are errors. *)
Fixpoint utf8_decode (bs : bytes) : option str :=
  match bs with
  | [] => Some []
  | b0 :: r0 =>
      if (b0 <? 128)%N then push b0 (utf8_decode r0)
      else if between 194 223 b0 then
        match r0 with
        | b1 :: r1 =>
            if continuation b1
            then push ((b0 - 192) * 64 + (b1 - 128))%N (utf8_decode r1)
            else None
        | _ => None
        end
      else if between 224 239 b0 then
        match r0 with
        | b1 :: b2 :: r2 =>
            if between (if (b0 =? 224)%N then 160 else 128)
                       (if (b0 =? 237)%N then 159 else 191) b1
               && continuation b2
            then push ((b0 - 224) * 4096 + (b1 - 128) * 64 + (b2 - 128))%N
                      (utf8_decode r2)
            else None
        | _ => None
        end
      else if between 240 244 b0 then
        match r0 with
        | b1 :: b2 :: b3 :: r3 =>
            if between (if (b0 =? 240)%N then 144 else 128)
                       (if (b0 =? 244)%N then 143 else 191) b1
               && continuation b2 && continuation b3
            then push ((b0 - 240) * 262144 + (b1 - 128) * 4096
                       + (b2 - 128) * 64 + (b3 - 128))%N
                      (utf8_decode r3)
            else None
        | _ => None
        end
      else None
  end.

(** ** Base64: [base64.b64encode] and [base64.b64decode] *)

(** [table_b2a_base64]: the character of a six-bit value. *)
Definition b2a (v : N) : char :=
  (if v <? 26 then 65 + v
   else if v <? 52 then 97 + (v - 26)
   else if v <? 62 then 48 + (v - 52)
   else if v =? 62 then c_plus
   else c_slash)%N.

(** [table_a2b_base64]: the six-bit value of a character of the alphabet. *)
Definition a2b (c : byte) : option N :=
  (if is_upper c then Some (c - 65)
   else if is_lower c then Some (c - 97 + 26)
   else if is_digit c then Some (c - 48 + 52)
   else if c =? c_plus then Some 62
   else if c =? c_slash then Some 63
   else None)%N.

(** Three octets give four characters; one or two octets left over give
    two or three characters and the padding. Shifts and masks are written
    as divisions and remainders. *)
Fixpoint b64encode (bs : bytes) : str :=
  match bs with
  | [] => []
  | [b0] => [b2a (b0 / 4); b2a (b0 mod 4 * 16); c_equal; c_equal]%N
  | [b0; b1] =>
      [b2a (b0 / 4); b2a (b0 mod 4 * 16 + b1 / 16); b2a (b1 mod 16 * 4); c_equal]%N
  | b0 :: b1 :: b2 :: rest =>
      b2a (b0 / 4)%N :: b2a (b0 mod 4 * 16 + b1 / 16)%N
      :: b2a (b1 mod 16 * 4 + b2 / 64)%N :: b2a (b2 mod 64)%N :: b64encode rest
  end.

Definition emit (b : byte) (r : option bytes) : option bytes :=
  match r with Some bs => Some (b :: bs) | None => None end.

(** [binascii.a2b_base64] as [b64decode] calls it (not strict): octets
    outside the alphabet are passed over; padding ends the input once a
    quad holds two characters and the padding completes it; data that stops
    inside a quad is an error. [leftchar] holds the bits of the quad not
    yet written, at most six of them. *)
Fixpoint a2b_base64 (data : bytes) (quad_pos : nat) (leftchar : N) (pads : nat)
  : option bytes :=
  match data with
  | [] => if Nat.eqb quad_pos 0 then Some [] else None
  | this_ch :: data' =>
      if (this_ch =? c_equal)%N then
        if Nat.leb 2 quad_pos then
          if Nat.leb 4 (quad_pos + S pads) then Some []
          else a2b_base64 data' quad_pos leftchar (S pads)
        else a2b_base64 data' quad_pos leftchar pads
      else
        match a2b this_ch with
        | None => a2b_base64 data' quad_pos leftchar pads
        | Some v =>
            match quad_pos with
            | 0 => a2b_base64 data' 1 v 0
            | 1 => emit (leftchar * 4 + v / 16)%N (a2b_base64 data' 2 (v mod 16)%N 0)
            | 2 => emit (leftchar * 16 + v / 4)%N (a2b_base64 data' 3 (v mod 4)%N 0)
            | _ => emit (leftchar * 64 + v)%N (a2b_base64 data' 0 0%N 0)
            end
        end
  end.

Definition b64decode (data : bytes) : option bytes := a2b_base64 data 0 0%N 0.

(** ** Exceptions *)

Inductive exn :=
| re_error             (* re.compile rejects the pattern, or it leaves the fragment *)
| UnicodeEncodeError
| binascii_Error
| UnicodeDecodeError.

Inductive result (A : Type) :=
| Returns (a : A)
| Raises (e : exn).

Arguments Returns {A} a.
Arguments Raises {A} e.

Definition bind {A B : Type} (r : result A) (f : A -> result B) : result B :=
  match r with
  | Returns a => f a
  | Raises e => Raises e
  end.

Definition or_raise {A : Type} (e : exn) (o : option A) : result A :=
  match o with
  | Some a => Returns a
  | None => Raises e
  end.

Notation "x <- r ;; k" := (bind r (fun x => k))
  (at level 61, r at next level, right associativity).

(** ** [parse_for_flag] *)

(** Lines 67-73: the loop appends each crib character and the gap
    [.{0,2}], then the body [\{.*?\}] is appended. *)
Fixpoint regex_loop (crib : str) (regex_string : str) : str :=
  match crib with
  | [] => regex_string
  | character :: crib' =>
      regex_loop crib' ((regex_string ++ [character]) ++ py ".{0,2}")
  end.

Definition regex_string (crib : str) : str :=
  regex_loop crib [] ++ py "\{.*?\}".

(** Lines 77-80: the first three characters of the base64 text of the crib,
    then the text [[+\\A-Za-z0-9]+[=]{0,2}\s] that the f-string denotes. *)
Definition base64_regex (base64_first_three : str) : str :=
  firstn 3 base64_first_three ++ py "[+\\A-Za-z0-9]+[=]{0,2}\s".

Definition plaintext_label : str := py "plaintext flag: ".
Definition rot13_label : str := py "rot13 flag: ".
Definition base64_label : str := py "base64 flag: ".

(** Line 99: [base64.b64decode(bytes(x, "utf-8")).decode()] *)
Definition base64_value (x : str) : result str :=
  data <- or_raise UnicodeEncodeError (utf8_encode x) ;;
  raw <- or_raise binascii_Error (b64decode data) ;;
  or_raise UnicodeDecodeError (utf8_decode raw).

(** The list comprehension of lines 97-102: the first match that fails to
    decode raises, and no list is built. *)
Fixpoint base64_values (base64_flags : list str) : result (list str) :=
  match base64_flags with
  | [] => Returns []
  | x :: xs =>
      v <- base64_value x ;;
      vs <- base64_values xs ;;
      Returns ((base64_label ++ v) :: vs)
  end.

(** The three compiled patterns of lines 66-80. *)
Record patterns := mk_patterns {
  plaintext_pattern : pattern;
  rot13_pattern : pattern;
  base64_pattern : pattern
}.

Definition build_patterns (stripped : str) : result patterns :=
  let regex_string := regex_string stripped in
  plaintext_pattern <- or_raise re_error (re_compile regex_string) ;;
  rot13_pattern <- or_raise re_error (re_compile (rot13 regex_string)) ;;
  raw <- or_raise UnicodeEncodeError (utf8_encode stripped) ;;
  let base64_first_three := b64encode raw in
  base64_pattern <- or_raise re_error (re_compile (base64_regex base64_first_three)) ;;
  Returns (mk_patterns plaintext_pattern rot13_pattern base64_pattern).

(** Lines 81-102, from the compiled patterns to [possible_flags]. *)
Definition extract (ps : patterns) (text : str) : result (list str) :=
  let possible_flags := [] in
  let plaintext_flags := findall (plaintext_pattern ps) text in
  let rot13_flags := findall (rot13_pattern ps) text in
  let base64_flags := findall (base64_pattern ps) text in
  let possible_flags :=
    match plaintext_flags with
    | [] => possible_flags
    | _ => possible_flags ++ map (app plaintext_label) plaintext_flags
    end in
  let possible_flags :=
    match rot13_flags with
    | [] => possible_flags
    | _ => possible_flags ++ map (fun x => rot13_label ++ rot13 x) rot13_flags
    end in
  match base64_flags with
  | [] => Returns possible_flags
  | _ =>
      decoded <- base64_values base64_flags ;;
      Returns (possible_flags ++ decoded)
  end.

Definition possible_flags (crib text : str) : result (list str) :=
  let crib := strip c_lbrace crib in
  ps <- build_patterns crib ;;
  extract ps text.

(** The standard output: the lines printed so far. *)
Definition stdout := list str.

(** What a text stream makes of a string that is written to it: the octets
    that its encoding and its error handler give, or [None] where they raise
    [UnicodeEncodeError]. *)
Definition encoder := str -> option bytes.


(** [print(flag)] on an open text stream: the line is encoded when it is
    written, and a line that the stream cannot encode raises and leaves
    nothing of it written. *)
Definition print (encode : encoder) (line : str) (out : stdout)
  : result unit * stdout :=
  match encode line with
  | Some _ => (Returns tt, out ++ [line])
  | None => (Raises UnicodeEncodeError, out)
  end.

(** Lines 104-106: the candidates are printed one after the other; the
    first that cannot be printed ends the loop, with the ones before it
    printed. *)
Fixpoint print_flags (encode : encoder) (possible_flags : list str) (out : stdout)
  : result unit * stdout :=
  match possible_flags with
  | [] => (Returns tt, out)
  | flag :: possible_flags' =>
      match print encode flag out with
      | (Returns _, out') => print_flags encode possible_flags' out'
      | (Raises e, out') => (Raises e, out')
      end
  end.

(** Lines 62-107 on a standard output with the encoder [encode]: the list
    is built, every candidate is printed, then the list is returned. An
    exception of the search leaves nothing printed; an exception of [print]
    leaves the list unreturned. *)
Definition parse_for_flag_on (encode : encoder) (crib text : str) (out : stdout)
  : result (list str) * stdout :=
  match possible_flags crib text with
  | Returns flags =>
      match print_flags encode flags out with
      | (Returns _, out') => (Returns flags, out')
      | (Raises e, out') => (Raises e, out')
      end
  | Raises e => (Raises e, out)
  end.

(** [parse_for_flag] where the standard output is UTF-8 with the [strict]
    error handler, as it is under the UTF-8 locales of the systems that the
    module names (Kali, Ubuntu). It cannot encode a surrogate or a number
    above U+10FFFF. *)
Definition parse_for_flag (crib text : str) (out : stdout)
  : result (list str) * stdout :=
  parse_for_flag_on utf8_encode crib text out.

(** The values of the locals [plaintext_flags], [rot13_flags] and
    [base64_flags] of lines 83-85, with the position of every match. *)
Definition plaintext_matches (crib text : str) : result (list found) :=
  ps <- build_patterns (strip c_lbrace crib) ;;
  Returns (finditer (plaintext_pattern ps) text 0 0).

Definition plaintext_flags (crib text : str) : result (list str) :=
  ps <- build_patterns (strip c_lbrace crib) ;;
  Returns (findall (plaintext_pattern ps) text).

Definition rot13_flags (crib text : str) : result (list str) :=
  ps <- build_patterns (strip c_lbrace crib) ;;
  Returns (findall (rot13_pattern ps) text).

Definition base64_flags (crib text : str) : result (list str) :=
  ps <- build_patterns (strip c_lbrace crib) ;;
  Returns (findall (base64_pattern ps) text).

(** The candidates of one kind in a returned list: the entries that carry
    the label of the kind, without it. *)
Inductive kind := Plaintext | Rot13 | Base64.

Definition label (k : kind) : str :=
  match k with
  | Plaintext => plaintext_label
  | Rot13 => rot13_label
  | Base64 => base64_label
  end.

Fixpoint after_prefix (l x : str) : option str :=
  match l with
  | [] => Some x
  | a :: l' =>
      match x with
      | b :: x' => if (a =? b)%N then after_prefix l' x' else None
      | [] => None
      end
  end.

Definition candidates (k : kind) (flags : list str) : list str :=
  flat_map (fun x => match after_prefix (label k) x with
                     | Some v => [v]
                     | None => []
                     end) flags.

(** ** Specification vocabulary *)

(** A crib of ASCII characters none of which is special in a regular
    expression: each stands for itself in the pattern. *)
Definition literal_char (c : char) : Prop := (c < 128)%N /\ special c = false.

Definition literal (crib : str) : Prop := Forall literal_char crib.

Definition gap : item := Rep AAny 0 (Some 2) true.

Definition body_items : pattern :=
  [Atom (ALit c_lbrace); Rep AAny 0 None false; Atom (ALit c_rbrace)].

Fixpoint crib_items (crib : str) : pattern :=
  match crib with
  | [] => []
  | c :: crib' => Atom (ALit c) :: gap :: crib_items crib'
  end.

(** The pattern that [regex_string] denotes for a literal crib. *)
Definition fuzzy (crib : str) : pattern := crib_items crib ++ body_items.

Definition base64_set : list (char * char) :=
  Eval cbv in [(c_plus, c_plus); (c_backslash, c_backslash);
               (N_of_ascii "A", N_of_ascii "Z"); (N_of_ascii "a", N_of_ascii "z");
               (N_of_ascii "0", N_of_ascii "9")].

(** The pattern that [base64_regex] denotes for a literal anchor. *)
Definition anchored (anchor : str) : pattern :=
  map (fun c => Atom (ALit c)) anchor
  ++ [Rep (AIn false base64_set) 1 None true;
      Rep (AIn false [(c_equal, c_equal)]) 0 (Some 2) true;
      Atom ASpace].

Definition within (hi : option nat) (n : nat) : Prop :=
  match hi with
  | Some h => n <= h
  | None => True
  end.

(** [matches p m]: some path through the pattern [p] consumes exactly [m]. *)
Inductive matches : pattern -> str -> Prop :=
| matches_nil : matches [] []
| matches_atom a p c m :
    accepts a c = true -> matches p m -> matches (Atom a :: p) (c :: m)
| matches_rep a lo hi g p w m :
    Forall (fun c => accepts a c = true) w ->
    lo <= length w -> within hi (length w) ->
    matches p m -> matches (Rep a lo hi g :: p) (w ++ m)
| matches_open p m : matches p m -> matches (Open :: p) m
| matches_close p m : matches p m -> matches (Close :: p) m.

(** A text that neither starts nor ends with [x]. *)
Definition trimmed (x : char) (m : str) : Prop :=
  (forall m', m <> x :: m') /\ (forall m', m <> m' ++ [x]).

(** A mark of a match lies inside the matched text [m]. *)
Definition inside (m rest : str) (mark : str) : Prop :=
  exists a b, m = a ++ b /\ mark = b ++ rest.

Definition groupless (p : pattern) : Prop := ~ In Open p /\ ~ In Close p.

(** [Pattern.match(text, pos)]: is there a match that starts at [pos]? *)
Definition match_at (p : pattern) (text : str) (pos : nat) : bool :=
  match run p (skipn pos text) with
  | Some _ => true
  | None => false
  end.

Definition findall_from (p : pattern) (s : str) (skip : nat) : list str :=
  map value (finditer p s skip 0).

(** The matches of a scan lie apart: each starts at or after [from] and
    the next one at or after its end. *)
Fixpoint apart (from : nat) (l : list found) : Prop :=
  match l with
  | [] => True
  | f :: l' => from <= start f /\ apart (stop f) l'
  end.

(** [text[i:j]] *)
Definition slice (text : str) (i j : nat) : str := firstn (j - i) (skipn i text).

(** [f] is a match of [p] in [text]: the pattern matches the text from
    [start f] to [stop f], and [value f], what [findall] reports, is that
    text or, for a pattern with a capture group, a part of it. *)
Definition located (p : pattern) (text : str) (f : found) : Prop :=
  start f <= stop f <= length text
  /\ matches p (slice text (start f) (stop f))
  /\ (exists a b, slice text (start f) (stop f) = a ++ value f ++ b)
  /\ (groupless p -> value f = slice text (start f) (stop f)).

(** The position [pos] of the text is taken by a match of the scan: a
    reported match begins there, or [pos] lies inside one. *)
Definition covered (hits : list found) (pos : nat) : Prop :=
  exists f, In f hits /\ start f <= pos /\ (pos < stop f \/ pos = start f).

(** Pairs of neighbours in a pattern text that keep a line break out of
    every atom: no [\s] escape, no negated set, and a "-" only between "}"
    and ".", where it forms no valid range. *)
Definition follows (x y : char) : bool :=
  implb (x =? c_backslash)%N (negb (y =? c_s)%N)
  && implb (x =? c_lbracket)%N (negb (y =? c_caret)%N)
  && implb (y =? c_minus)%N (x =? c_rbrace)%N
  && implb (x =? c_minus)%N (y =? c_dot)%N.

Fixpoint adjacent (s : str) : bool :=
  match s with
  | x :: s' =>
      match s' with
      | y :: _ => follows x y && adjacent s'
      | [] => true
      end
  | [] => true
  end.

Definition tame (src : str) : Prop := ~ In c_newline src /\ adjacent src = true.

Definition single_line_range (r : char * char) : Prop := in_range c_newline r = false.

Definition single_line (i : item) : Prop :=
  match i with
  | Atom a | Rep a _ _ _ => accepts a c_newline = false
  | Open | Close => True
  end.

(** [base64.b64encode(bytes(s, "utf-8")).decode()] *)
Definition base64_text (s : str) : option str :=
  match utf8_encode s with
  | Some raw => Some (b64encode raw)
  | None => None
  end.

(** An octet that [a2b_base64] passes over: not in the alphabet, no padding. *)
Definition junk (b : byte) : Prop := (b =? c_equal)%N = false /\ a2b b = None.

(** A character of the set [[+\\A-Za-z0-9]] of the base64 pattern. *)
Definition classy (c : char) : Prop := accepts (AIn false base64_set) c = true.

(** The padding that ends a base64 text. *)
Definition padding (p : str) : Prop :=
  p = [] \/ p = [c_equal] \/ p = [c_equal; c_equal].

(** A value with a brace-delimited body: an opening brace and, somewhere
    after it, a closing one. *)
Definition braced (v : str) : Prop :=
  exists a b c, v = a ++ c_lbrace :: b ++ c_rbrace :: c.


(** * The other functions of the module

    [Client.check_robots], [Client.crawl_robots], [Client.get_remote_files],
    [Client.mirror], [get_files_in_dir], [extract_comments],
    [extract_comments_from_file], [Client.extract_comments] and
    [Client.parse_website_for_flag]. What the network, the file system and
    the HTML parser answer is given to the functions: the answers are the
    variables of a section. A URL is taken to get the same response
    whenever it is requested during a call. [parse_file_for_flag] (line 58
    is no valid Python), [get_cookies] and [get_all_cookies] are left out. *)

Definition c_space : char := 32%N.
Definition c_hash : char := Eval cbv in N_of_ascii "#".

(** [a == b] on strings. *)
Fixpoint str_eqb (a b : str) : bool :=
  match a, b with
  | [], [] => true
  | x :: a', y :: b' => (x =? y)%N && str_eqb a' b'
  | _, _ => false
  end.

(** [s.startswith(prefix)], [s.endswith(suffix)] and [sub in s]. *)
Definition startswith (s prefix : str) : bool :=
  match after_prefix prefix s with Some _ => true | None => false end.

Definition endswith (s suffix : str) : bool := startswith (rev s) (rev suffix).

Fixpoint contains (sub s : str) : bool :=
  startswith s sub
  || match s with
     | [] => false
     | _ :: s' => contains sub s'
     end.

(** [s.split(sep)] with a one-character separator: the fields between the
    separators, empty ones included; never an empty list. *)
Fixpoint split (sep : char) (s : str) : list str :=
  match s with
  | [] => [[]]
  | c :: s' =>
      if (c =? sep)%N then [] :: split sep s'
      else
        match split sep s' with
        | field :: fields => (c :: field) :: fields
        | [] => [[c]]
        end
  end.

(** [posixpath.join(a, b)] *)
Definition path_join (a b : str) : str :=
  if startswith b (py "/") then b
  else if Nat.eqb (length a) 0 || endswith a (py "/") then a ++ b
  else a ++ py "/" ++ b.

(** ** Exceptions and results of these functions *)

Inductive exception :=
| Raised (e : exn)      (* an exception of [parse_for_flag] or of a codec *)
| KeyError
| IndexError
| ConnectionError       (* [requests.get] fails *)
| OSError.              (* a file cannot be opened *)

Inductive outcome (A : Type) :=
| Return (a : A)
| Raise (e : exception).

Arguments Return {A} a.
Arguments Raise {A} e.

Definition and_then {A B : Type} (r : outcome A) (f : A -> outcome B) : outcome B :=
  match r with
  | Return a => f a
  | Raise e => Raise e
  end.

Notation "x <~ r ;; k" := (and_then r (fun x => k))
  (at level 61, r at next level, right associativity).

Definition or_else {A : Type} (e : exception) (o : option A) : outcome A :=
  match o with
  | Some a => Return a
  | None => Raise e
  end.

(** [l[i]] *)
Definition index {A : Type} (l : list A) (i : nat) : outcome A :=
  or_else IndexError (nth_error l i).

(** ** The client *)

Record Client := mk_Client {
  url : str;
  directory : str;
  webwizard_dir : str
}.

(** Lines 113-116 *)
Definition Client_init (url directory : str) : Client :=
  mk_Client url directory (path_join directory (py "webwizard_output/")).

(** What [requests.get] returns, as far as the module reads it. *)
Record response := mk_response {
  status_code : N;
  content : bytes
}.

(** ** [robots.txt]: [check_robots] and [crawl_robots] *)

(** A dictionary from strings to lists of strings, in insertion order. *)
Definition dict := list (str * list str).

(** [d[key]] *)
Fixpoint dict_get (d : dict) (key : str) : outcome (list str) :=
  match d with
  | [] => Raise KeyError
  | (k, l) :: d' => if str_eqb k key then Return l else dict_get d' key
  end.

(** The dictionary with the list of a (present) [key] replaced. *)
Fixpoint dict_set (d : dict) (key : str) (l : list str) : dict :=
  match d with
  | [] => []
  | (k, l0) :: d' =>
      if str_eqb k key then (k, l) :: d' else (k, l0) :: dict_set d' key l
  end.

(** [d[key].append(x)]: the list is looked up, then [x] is evaluated, then
    the list grows in place. *)
Definition dict_append (d : dict) (key : str) (x : outcome str) : outcome dict :=
  l <~ dict_get d key ;;
  v <~ x ;;
  Return (dict_set d key (l ++ [v])).

(** Lines 135-141 *)
Definition robots_empty : dict :=
  [(py "comments", []); (py "user-agent", []); (py "disallow", []);
   (py "allow", []); (py "sitemap", [])].

(** Lines 145-158, the body of the loop for one line. *)
Definition robots_line (robots_info : dict) (line : str) : outcome dict :=
  if mem c_hash line then dict_append robots_info (py "comments") (Return line)
  else
    let entry := split c_space line in
    if negb (Nat.eqb (length entry) 1) then
      entry0 <~ index entry 0 ;;
      if str_eqb entry0 (py "User-agent:") then
        dict_append robots_info (py "user-agent") (index entry 1)
      else if str_eqb entry0 (py "Disallow:") then
        dict_append robots_info (py "disallow") (index entry 1)
      else if str_eqb entry0 (py "Allow:") then
        dict_append robots_info (py "allow") (index entry 1)
      else if str_eqb entry0 (py "Sitemap:") then
        dict_append robots_info (py "sitemap") (index entry 1)
      else Return robots_info
    else Return robots_info.

Fixpoint robots_loop (robots : list str) (robots_info : dict) : outcome dict :=
  match robots with
  | [] => Return robots_info
  | line :: robots' =>
      robots_info' <~ robots_line robots_info line ;;
      robots_loop robots' robots_info'
  end.

(** Lines 134-163, from the response to the dictionary. *)
Definition robots_of (r : response) : outcome dict :=
  if (status_code r =? 200)%N then
    text <~ or_else (Raised UnicodeDecodeError) (utf8_decode (content r)) ;;
    robots_loop (split c_newline text) robots_empty
  else Return [].

(** ** [get_remote_files] *)

(** A tag of the parsed page: its name and its attributes. The page is the
    sequence of its tags in document order. *)
Record tag := mk_tag {
  name : str;
  attrs : list (str * str)
}.

Definition soup := list tag.

(** [soup.find_all(name)] *)
Definition find_all (page : soup) (n : str) : list tag :=
  filter (fun t => str_eqb (name t) n) page.

(** [tag.attrs.get(key)] *)
Fixpoint attrs_get (a : list (str * str)) (key : str) : option str :=
  match a with
  | [] => None
  | (k, v) :: a' => if str_eqb k key then Some v else attrs_get a' key
  end.

(** [x in l] for a list of strings. *)
Definition str_in (x : str) (l : list str) : bool := existsb (str_eqb x) l.

(** One of the three loops of lines 202-230: over the tags found, with the
    attribute [attr] read and the list [files] grown. A missing attribute
    and an empty one are false in the test of the attribute. *)
Fixpoint remote_loop (link attr : str) (tags : list tag) (files : list str)
  : list str :=
  match tags with
  | [] => files
  | t :: tags' =>
      match attrs_get (attrs t) attr with
      | None | Some [] => remote_loop link attr tags' files
      | Some file_path =>
          if negb (contains (py "http") file_path) then
            let file_path := link ++ file_path in
            if negb (str_in file_path files)
            then remote_loop link attr tags' (files ++ [file_path])
            else remote_loop link attr tags' files
          else remote_loop link attr tags' files
      end
  end.

(** Lines 191-233, from the parsed page to the list of URLs. *)
Definition remote_files (link : str) (page : soup) : list str :=
  let css_files := remote_loop link (py "href") (find_all page (py "link")) [] in
  let image_files := remote_loop link (py "src") (find_all page (py "img")) [] in
  let script_files := remote_loop link (py "src") (find_all page (py "script")) [] in
  css_files ++ image_files ++ script_files.

Section Network.

(** [requests.get(url)]: the response, or none when the request fails;
    [BeautifulSoup(r.text, "html.parser")]: the tags of the page. *)
Variable requests_get : str -> option response.
Variable BeautifulSoup : response -> soup.

(** Lines 118-125 *)
Definition check_robots (self : Client) : outcome bool :=
  let robots_link := url self ++ py "robots.txt" in
  r <~ or_else ConnectionError (requests_get robots_link) ;;
  Return (status_code r =? 200)%N.

(** Lines 127-163 *)
Definition crawl_robots (self : Client) : outcome dict :=
  let robots_link := url self ++ py "robots.txt" in
  r <~ or_else ConnectionError (requests_get robots_link) ;;
  robots_of r.

(** Lines 187-233 *)
Definition get_remote_files (link : str) : outcome (list str) :=
  r <~ or_else ConnectionError (requests_get link) ;;
  Return (remote_files link (BeautifulSoup r)).

End Network.

(** ** [bytes.decode("utf-8", "ignore")]

    The decoder of CPython with the [ignore] handler: an octet that cannot
    start a sequence is dropped; of a sequence that breaks off at an octet
    that cannot continue it, the octets before that one are dropped and
    decoding goes on at it; a sequence cut short by the end of the input is
    dropped. *)
Fixpoint utf8_decode_ignore (bs : bytes) : str :=
  match bs with
  | [] => []
  | b0 :: r0 =>
      if (b0 <? 128)%N then b0 :: utf8_decode_ignore r0
      else if (b0 <? 194)%N then utf8_decode_ignore r0
      else if (b0 <? 224)%N then
        match r0 with
        | [] => []
        | b1 :: r1 =>
            if continuation b1
            then ((b0 - 192) * 64 + (b1 - 128))%N :: utf8_decode_ignore r1
            else utf8_decode_ignore r0
        end
      else if (b0 <? 240)%N then
        match r0 with
        | [] => []
        | b1 :: r1 =>
            if between (if (b0 =? 224)%N then 160 else 128)
                       (if (b0 =? 237)%N then 159 else 191) b1
            then
              match r1 with
              | [] => []
              | b2 :: r2 =>
                  if continuation b2
                  then ((b0 - 224) * 4096 + (b1 - 128) * 64 + (b2 - 128))%N
                       :: utf8_decode_ignore r2
                  else utf8_decode_ignore r1
              end
            else utf8_decode_ignore r0
        end
      else if (b0 <? 245)%N then
        match r0 with
        | [] => []
        | b1 :: r1 =>
            if between (if (b0 =? 240)%N then 144 else 128)
                       (if (b0 =? 244)%N then 143 else 191) b1
            then
              match r1 with
              | [] => []
              | b2 :: r2 =>
                  if continuation b2 then
                    match r2 with
                    | [] => []
                    | b3 :: r3 =>
                        if continuation b3
                        then ((b0 - 240) * 262144 + (b1 - 128) * 4096
                              + (b2 - 128) * 64 + (b3 - 128))%N
                             :: utf8_decode_ignore r3
                        else utf8_decode_ignore r2
                    end
                  else utf8_decode_ignore r1
              end
            else utf8_decode_ignore r0
        end
      else utf8_decode_ignore r0
  end.

(** ** [extract_comments]: the two regular expressions

    [r"//.+?$"] ends with the assertion [$]: without [re.MULTILINE] it
    holds at the end of the text and before a line break that ends the
    text. A pattern with assertions is a sequence of plain items and [$]. *)

Inductive xitem :=
| Plain (i : item)
| AtEnd.

(** [SRE_AT_END] *)
Definition at_end (s : str) : bool :=
  match s with
  | [] => true
  | [c] => (c =? c_newline)%N
  | _ => false
  end.

(** [sre_match] with the assertion. *)
Fixpoint xmatch (p : list xitem) (must_advance : bool) (start : nat) (s : str)
  : option (list str * str) :=
  match p with
  | [] => if must_advance && Nat.eqb (length s) start then None else Some ([], s)
  | AtEnd :: p' => if at_end s then xmatch p' must_advance start s else None
  | Plain (Atom a) :: p' =>
      match s with
      | c :: s' => if accepts a c then xmatch p' must_advance start s' else None
      | [] => None
      end
  | Plain (Rep a lo hi greedy) :: p' =>
      rep a greedy lo hi s (xmatch p' must_advance start)
  | Plain Open :: p' | Plain Close :: p' =>
      match xmatch p' must_advance start s with
      | Some (marks, rest) => Some (s :: marks, rest)
      | None => None
      end
  end.

(** The scan of [finditer], for any matcher [m]. *)
Fixpoint scan (m : bool -> nat -> str -> option (list str * str))
    (s : str) (skip pos : nat) : list found :=
  match s with
  | [] =>
      match skip with
      | O =>
          match m false 0 [] with
          | Some (marks, rest) => [mk_found pos pos (reported [] marks rest)]
          | None => []
          end
      | S _ => []
      end
  | _ :: s' =>
      match skip with
      | S k => scan m s' k (S pos)
      | O =>
          match m false 0 s with
          | Some (marks, rest) =>
              match length s - length rest with
              | S n =>
                  mk_found pos (pos + S n) (reported s marks rest)
                  :: scan m s' n (S pos)
              | O =>
                  mk_found pos pos (reported s marks rest)
                  :: match m true (length s) s with
                     | Some (marks', rest') =>
                         let n := length s - length rest' in
                         mk_found pos (pos + n) (reported s marks' rest')
                         :: scan m s' (pred n) (S pos)
                     | None => scan m s' 0 (S pos)
                     end
              end
          | None => scan m s' 0 (S pos)
          end
      end
  end.

Definition xfindall (p : list xitem) (text : str) : list str :=
  map value (scan (xmatch p) text 0 0).

(** [r"/\*.+?\*/"], compiled. *)
Definition block_comment : pattern :=
  Eval vm_compute in
    match re_compile (py "/\*.+?\*/") with
    | Some p => p
    | None => []
    end.

(** [r"//.+?$"]: two slashes, one or more characters other than a line
    break, as few as possible, and the assertion. *)
Definition line_comment : list xitem :=
  [Plain (Atom (ALit c_slash)); Plain (Atom (ALit c_slash));
   Plain (Rep AAny 1 None false); AtEnd].

Section Files.

(** [os.walk(top)]: the triples (root, directories, files) in the order in
    which they are yielded; [open(path, "rb").read()]: the octets of the
    file, or none when it cannot be opened; the comments that
    [BeautifulSoup(source_code, "html.parser")] finds. *)
Variable os_walk : str -> list (str * list str * list str).
Variable read_bytes : str -> option bytes.
Variable html_comments : str -> list str.

(** Lines 17-31 *)
Definition extract_comments (source_code : str) : list str :=
  let all_comments := [] in
  let all_comments := all_comments ++ html_comments source_code in
  let all_comments := all_comments ++ findall block_comment source_code in
  let all_comments := all_comments ++ xfindall line_comment source_code in
  all_comments.







End Files.

(** ** [mirror]

    What [mirror] does to the file system is a sequence of system calls;
    the call returns with the calls made so far added to the log. What
    [os.path.isdir] answers, and whether a call succeeds, depends on the
    system and on what happened before. *)

Inductive event :=
| Mkdir (path : str)                  (* os.mkdir(path) *)
| Makedirs (path : str)               (* os.makedirs(path) *)
| OpenFile (path : str)               (* open(path, "wb") *)
| WriteFile (path : str) (data : bytes).  (* the write to the file opened there *)

Definition io (A : Type) : Type := list event -> outcome A * list event.

Definition io_ret {A : Type} (a : A) : io A := fun log => (Return a, log).

Definition io_bind {A B : Type} (m : io A) (f : A -> io B) : io B :=
  fun log =>
    match m log with
    | (Return a, log') => f a log'
    | (Raise e, log') => (Raise e, log')
    end.

Definition io_lift {A : Type} (r : outcome A) : io A := fun log => (r, log).

Notation "x <<- m ;; k" := (io_bind m (fun x => k))
  (at level 61, m at next level, right associativity).

(** [sep.join(l)] *)
Fixpoint join_str (sep : str) (l : list str) : str :=
  match l with
  | [] => []
  | [x] => x
  | x :: l' => x ++ sep ++ join_str sep l'
  end.

Section Mirror.

Variable requests_get : str -> option response.
Variable BeautifulSoup : response -> soup.
Variable isdir : list event -> str -> bool.
Variable permits : list event -> event -> bool.

(** A system call: made and logged, or refused with [OSError]. *)
Definition perform (e : event) : io unit :=
  fun log => if permits log e then (Return tt, log ++ [e]) else (Raise OSError, log).

Definition os_path_isdir (path : str) : io bool :=
  fun log => (Return (isdir log path), log).

(** Lines 250-267, the body of the loop for one URL. *)
Definition mirror_file (self : Client) (link url : str) : io unit :=
  let prepend_directory := fun x => path_join (webwizard_dir self) x in
  let path := split c_slash (skipn (length link) url) in
  if Nat.ltb 1 (length path) then
    let file_name := last path [] in
    let folders := removelast path in
    let local_path := prepend_directory (join_str (py "/") folders) in
    there <<- os_path_isdir local_path ;;
    _ <<- (if negb there then perform (Makedirs local_path) else io_ret tt) ;;
    i <<- io_lift (or_else ConnectionError (requests_get url)) ;;
    _ <<- perform (OpenFile (local_path ++ py "/" ++ file_name)) ;;
    perform (WriteFile (local_path ++ py "/" ++ file_name) (content i))
  else
    i <<- io_lift (or_else ConnectionError (requests_get url)) ;;
    path0 <<- io_lift (index path 0) ;;
    _ <<- perform (OpenFile (prepend_directory path0)) ;;
    perform (WriteFile (prepend_directory path0) (content i)).

Fixpoint mirror_loop (self : Client) (link : str) (all_files : list str) : io unit :=
  match all_files with
  | [] => io_ret tt
  | url :: all_files' =>
      _ <<- mirror_file self link url ;;
      mirror_loop self link all_files'
  end.

(** Lines 235-275 *)
Definition mirror (self : Client) (link : str) : io unit :=
  let prepend_directory := fun x => path_join (webwizard_dir self) x in
  all_files <<- io_lift (get_remote_files requests_get BeautifulSoup link) ;;
  there <<- os_path_isdir (webwizard_dir self) ;;
  _ <<- (if negb there then perform (Mkdir (webwizard_dir self)) else io_ret tt) ;;
  _ <<- mirror_loop self link all_files ;;
  _ <<- perform (OpenFile (prepend_directory (py "index.html"))) ;;
  r <<- io_lift (or_else ConnectionError (requests_get link)) ;;
  let source_code := content r ++ [c_newline] in
  perform (WriteFile (prepend_directory (py "index.html")) source_code).

End Mirror.

(** The files written in a log, with what was written. *)
Definition writes (log : list event) : list (str * bytes) :=
  flat_map (fun e => match e with
                     | WriteFile path data => [(path, data)]
                     | _ => []
                     end) log.

(** Where [mirror] writes the file of a reference [v] of the page, for an
    output directory [dir] that ends with "/": at the reference itself when
    it begins with "/" and names a folder, below the directory otherwise. *)
Definition local_target (dir v : str) : str :=
  if startswith v (py "/") && mem c_slash (tl v) then v else dir ++ v.

(** ** Specification vocabulary of the other functions *)

(** What a line of [robots.txt] adds to the comments, and to the list of
    a directive such as [Disallow:]. *)
Definition comment_of (line : str) : list str :=
  if mem c_hash line then [line] else [].

Definition field_of (directive line : str) : list str :=
  if mem c_hash line then []
  else
    match split c_space line with
    | entry0 :: entry1 :: _ => if str_eqb entry0 directive then [entry1] else []
    | _ => []
    end.

Definition robots_dict (c u d a s : list str) : dict :=
  [(py "comments", c); (py "user-agent", u); (py "disallow", d);
   (py "allow", a); (py "sitemap", s)].

Definition robots_lines (lines : list str) : dict :=
  robots_dict (flat_map comment_of lines)
              (flat_map (field_of (py "User-agent:")) lines)
              (flat_map (field_of (py "Disallow:")) lines)
              (flat_map (field_of (py "Allow:")) lines)
              (flat_map (field_of (py "Sitemap:")) lines).

(** Two dictionaries with the same keys, list by list. *)
Fixpoint dict_concat (d1 d2 : dict) : dict :=
  match d1, d2 with
  | (k, l1) :: d1', (_, l2) :: d2' => (k, l1 ++ l2) :: dict_concat d1' d2'
  | _, _ => []
  end.

(** [kept] is [bs] with some octets left out. *)
Inductive subseq : bytes -> bytes -> Prop :=
| subseq_nil bs : subseq [] bs
| subseq_keep b kept bs : subseq kept bs -> subseq (b :: kept) (b :: bs)
| subseq_drop b kept bs : subseq kept bs -> subseq kept (b :: bs).

(** * Properties *)

(** Divisions and remainders by constants are left to [lia]. *)
Ltac Zify.zify_post_hook ::= Z.to_euclidean_division_equations.

(** ** Characters and lists *)

Lemma special_false (c : char) :
  special c = false ->
  c <> c_dot /\ c <> c_backslash /\ c <> c_lbracket /\ c <> c_lbrace
  /\ c <> c_lparen /\ c <> c_rparen /\ c <> c_star /\ c <> c_plus
  /\ c <> c_quest /\ c <> c_caret /\ c <> c_dollar /\ c <> c_bar.
Proof.
  unfold special, mem, special_chars. cbn [existsb].
  rewrite !orb_false_iff, !N.eqb_neq. intuition.
Qed.

Lemma regex_loop_app (crib acc : str) :
  regex_loop crib acc = acc ++ flat_map (fun c => c :: py ".{0,2}") crib.
Proof.
  revert acc. induction crib as [|c crib IH]; intro acc; cbn [regex_loop flat_map].
  - now rewrite app_nil_r.
  - rewrite IH, <- !app_assoc. reflexivity.
Qed.

Lemma regex_string_unfold (crib : str) :
  regex_string crib = flat_map (fun c => c :: py ".{0,2}") crib ++ py "\{.*?\}".
Proof. unfold regex_string. now rewrite regex_loop_app. Qed.

(** ** The parser on the text built from a literal crib *)

Lemma parse_literal_char fuel c src acc grp :
  special c = false ->
  parse (S fuel) (c :: src) acc grp = parse fuel src (Atom (ALit c) :: acc) grp.
Proof.
  intro H. cbn [parse]. destruct (special_false _ H) as (_ & Hb & _).
  apply N.eqb_neq in Hb. rewrite Hb, H. reflexivity.
Qed.

Lemma parse_gap fuel a q src acc grp :
  q <> c_quest ->
  parse (S (S fuel)) (py ".{0,2}" ++ q :: src) (Atom a :: acc) grp
  = parse fuel (q :: src) (gap :: Atom a :: acc) grp.
Proof.
  intro H. apply N.eqb_neq in H.
  change (py ".{0,2}" ++ q :: src)
    with (c_dot :: c_lbrace :: 48%N :: c_comma :: 50%N :: c_rbrace :: q :: src).
  cbn. rewrite H. reflexivity.
Qed.

Lemma parse_crib (crib : str) :
  Forall (fun c => special c = false) crib ->
  forall fuel acc q tail grp,
    q <> c_quest ->
    parse (3 * length crib + fuel)
          (flat_map (fun c => c :: py ".{0,2}") crib ++ q :: tail) acc grp
    = parse fuel (q :: tail) (rev (crib_items crib) ++ acc) grp.
Proof.
  induction 1 as [|c crib Hc Hcrib IH]; intros fuel acc q tail grp Hq.
  - reflexivity.
  - replace (3 * length (c :: crib) + fuel)
      with (S (S (S (3 * length crib + fuel)))) by (cbn [length]; lia).
    cbn [flat_map]. rewrite <- app_assoc, <- app_comm_cons.
    rewrite parse_literal_char by assumption.
    assert (Hnext : exists q' tail',
               flat_map (fun c => c :: py ".{0,2}") crib ++ q :: tail = q' :: tail'
               /\ q' <> c_quest).
    { destruct Hcrib as [|c' crib' Hc' _].
      - exists q, tail. split; [reflexivity | assumption].
      - cbn [flat_map]. rewrite <- app_comm_cons. eexists _, _.
        split; [reflexivity |]. apply (special_false _ Hc'). }
    destruct Hnext as (q' & tail' & E & Hq').
    rewrite E, parse_gap by assumption. rewrite <- E, IH by assumption.
    cbn [crib_items rev]. rewrite <- !app_assoc. reflexivity.
Qed.

Lemma parse_body fuel acc :
  parse (5 + fuel) (py "\{.*?\}") acc 0 = Some (rev acc ++ body_items).
Proof.
  cbn. rewrite <- !app_assoc. reflexivity.
Qed.

Lemma re_compile_literal (crib : str) :
  Forall (fun c => special c = false) crib ->
  re_compile (regex_string crib) = Some (fuzzy crib).
Proof.
  intro H. unfold re_compile. rewrite regex_string_unfold.
  change (py "\{.*?\}") with (c_backslash :: py "{.*?\}").
  replace (S (length (flat_map (fun c => c :: py ".{0,2}") crib
                      ++ c_backslash :: py "{.*?\}")))
    with (3 * length crib + (5 + (4 * length crib + 3))).
  - rewrite parse_crib by (assumption || discriminate).
    change (c_backslash :: py "{.*?\}") with (py "\{.*?\}").
    rewrite parse_body, app_nil_r, rev_involutive. reflexivity.
  - assert (L : length (flat_map (fun c => c :: py ".{0,2}") crib) = 7 * length crib).
    { clear H. induction crib as [|c crib IH]; [reflexivity|].
      cbn [flat_map]. rewrite length_app, IH.
      change (length (c :: py ".{0,2}")) with 7. cbn [length]. lia. }
    rewrite length_app, L.
    change (length (c_backslash :: py "{.*?\}")) with 7. lia.
Qed.

(** ** The matcher against [matches] *)

Lemma within_zero hi : within hi 0.
Proof. destruct hi; cbn; lia. Qed.

Lemma within_succ hi n : hi_open hi = true -> within (hi_pred hi) n -> within hi (S n).
Proof.
  destruct hi as [h|]; cbn; [|trivial].
  destruct h; cbn; [discriminate | lia].
Qed.

Lemma within_pred hi n : within hi (S n) -> hi_open hi = true /\ within (hi_pred hi) n.
Proof.
  destruct hi as [h|]; cbn; [|auto].
  destruct h; cbn; [lia | split; [reflexivity | lia]].
Qed.

Section Rep.

Context {R : Type} (a : atom) (g : bool) (k : str -> option R).

Lemma rep_sound s : forall lo hi r,
  rep a g lo hi s k = Some r ->
  exists w s', s = w ++ s'
    /\ Forall (fun c => accepts a c = true) w
    /\ lo <= length w /\ within hi (length w) /\ k s' = Some r.
Proof.
  induction s as [|c s IH]; intros lo hi r H; cbn [rep] in H.
  - destruct (Nat.eqb_spec lo 0); [|discriminate].
    exists [], []. subst. repeat split; auto using within_zero.
  - assert (Stop : lo = 0 -> k (c :: s) = Some r ->
              exists w s', c :: s = w ++ s'
                /\ Forall (fun c => accepts a c = true) w
                /\ lo <= length w /\ within hi (length w) /\ k s' = Some r).
    { intros -> Hk. exists [], (c :: s). repeat split; auto using within_zero. }
    assert (More : forall lo', lo' = pred lo ->
              accepts a c = true -> hi_open hi = true ->
              rep a g lo' (hi_pred hi) s k = Some r ->
              exists w s', c :: s = w ++ s'
                /\ Forall (fun c => accepts a c = true) w
                /\ lo <= length w /\ within hi (length w) /\ k s' = Some r).
    { intros lo' -> Ha Hh Hr. destruct (IH _ _ _ Hr) as (w & s' & -> & Hw & Hlo & Hhi & Hk).
      exists (c :: w), s'. cbn [length]. repeat split; auto using within_succ. lia. }
    destruct (accepts a c && hi_open hi) eqn:E.
    + apply andb_true_iff in E as [Ha Hh].
      destruct (Nat.eqb_spec lo 0) as [->|Hlo].
      * destruct g.
        -- destruct (rep a true 0 (hi_pred hi) s k) eqn:Er.
           ++ injection H as <-. now apply (More 0).
           ++ now apply Stop.
        -- destruct (k (c :: s)) eqn:Ek.
           ++ injection H as <-. now apply Stop.
           ++ now apply (More 0).
      * now apply (More (pred lo)).
    + destruct (Nat.eqb_spec lo 0); [|discriminate]. now apply Stop.
Qed.

Lemma rep_complete s' :
  k s' <> None ->
  forall w lo hi,
    Forall (fun c => accepts a c = true) w ->
    lo <= length w -> within hi (length w) ->
    rep a g lo hi (w ++ s') k <> None.
Proof.
  intros Hk w. induction w as [|c w IH]; intros lo hi Hw Hlo Hhi.
  - cbn [length] in Hlo. assert (lo = 0) as -> by lia. cbn [app].
    destruct s' as [|c s]; cbn [rep Nat.eqb]; [assumption|].
    destruct (accepts a c && hi_open hi); [|assumption].
    destruct g.
    + destruct (rep a true 0 (hi_pred hi) s k); [discriminate | assumption].
    + destruct (k (c :: s)); [discriminate | contradiction].
  - inversion Hw as [|? ? Ha Hw']; subst. cbn [length] in *.
    apply within_pred in Hhi as [Hh Hhi]. cbn [app rep]. rewrite Ha, Hh. cbn [andb].
    destruct (Nat.eqb_spec lo 0) as [->|Hne].
    + destruct g.
      * specialize (IH 0 (hi_pred hi) Hw' ltac:(lia) Hhi).
        destruct (rep a true 0 (hi_pred hi) (w ++ s') k); [discriminate | contradiction].
      * destruct (k (c :: w ++ s')); [discriminate|].
        apply IH; auto; lia.
    + apply IH; auto; lia.
Qed.

End Rep.


Lemma inside_cons c m rest mark : inside m rest mark -> inside (c :: m) rest mark.
Proof. intros (a & b & -> & ->). now exists (c :: a), b. Qed.

Lemma inside_app w m rest mark : inside m rest mark -> inside (w ++ m) rest mark.
Proof. induction w; cbn [app]; auto using inside_cons. Qed.

Lemma sre_match_sound p ma st : forall s marks rest,
  sre_match p ma st s = Some (marks, rest) ->
  exists m, s = m ++ rest /\ matches p m /\ Forall (inside m rest) marks
            /\ (ma = true -> length rest <> st).
Proof.
  induction p as [|i p IH]; intros s marks rest H; cbn [sre_match] in H.
  - destruct (ma && Nat.eqb (length s) st) eqn:E; [discriminate|].
    injection H as <- <-. exists []. repeat split; try constructor.
    intros -> L. cbn [andb] in E. apply Nat.eqb_neq in E. contradiction.
  - destruct i as [a|a lo hi g| |].
    + destruct s as [|c s]; [discriminate|].
      destruct (accepts a c) eqn:Ha; [|discriminate].
      destruct (IH _ _ _ H) as (m & -> & Hm & Hin & Hadv).
      exists (c :: m). repeat split; [now constructor| |assumption].
      eapply Forall_impl; [|exact Hin]. intro. apply inside_cons.
    + destruct (rep_sound _ _ _ _ _ _ H) as (w & s' & -> & Hw & Hlo & Hhi & Hk).
      destruct (IH _ _ _ Hk) as (m & -> & Hm & Hin & Hadv).
      exists (w ++ m). rewrite app_assoc. repeat split; [now constructor| |assumption].
      eapply Forall_impl; [|exact Hin]. intro. apply inside_app.
    + destruct (sre_match p ma st s) as [[marks' rest']|] eqn:E; [|discriminate].
      injection H as <- <-. destruct (IH _ _ _ E) as (m & -> & Hm & Hin & Hadv).
      exists m. repeat split; [now constructor| |assumption].
      constructor; [|assumption]. now exists [], m.
    + destruct (sre_match p ma st s) as [[marks' rest']|] eqn:E; [|discriminate].
      injection H as <- <-. destruct (IH _ _ _ E) as (m & -> & Hm & Hin & Hadv).
      exists m. repeat split; [now constructor| |assumption].
      constructor; [|assumption]. now exists [], m.
Qed.

Lemma run_sound p s marks rest :
  run p s = Some (marks, rest) ->
  exists m, s = m ++ rest /\ matches p m /\ Forall (inside m rest) marks.
Proof.
  intro H. destruct (sre_match_sound _ _ _ _ H) as (m & E & M & I & _). eauto.
Qed.

Lemma run_complete p m :
  matches p m -> forall rest, run p (m ++ rest) <> None.
Proof.
  unfold run.
  induction 1 as [|a p c m Ha _ IH|a lo hi g p w m Hw Hlo Hhi _ IH|p m _ IH|p m _ IH];
    intro rest; cbn [sre_match app andb].
  - discriminate.
  - rewrite Ha. apply IH.
  - rewrite <- app_assoc. apply rep_complete; auto.
  - specialize (IH rest).
    destruct (sre_match p false 0 (m ++ rest)) as [[? ?]|]; [discriminate | contradiction].
  - specialize (IH rest).
    destruct (sre_match p false 0 (m ++ rest)) as [[? ?]|]; [discriminate | contradiction].
Qed.

(** A pattern without a group leaves no marks. *)
Lemma sre_match_groupless p ma st : groupless p ->
  forall s marks rest, sre_match p ma st s = Some (marks, rest) -> marks = [].
Proof.
  induction p as [|i p IH]; intros [Ho Hc] s marks rest H; cbn [sre_match] in H.
  - destruct (ma && Nat.eqb (length s) st); [discriminate|]. now injection H as <- <-.
  - assert (Hp : groupless p) by (split; intro; [apply Ho | apply Hc]; now right).
    destruct i as [a|a lo hi g| |].
    + destruct s as [|c s]; [discriminate|].
      destruct (accepts a c); [eauto | discriminate].
    + destruct (rep_sound _ _ _ _ _ _ H) as (w & s' & _ & _ & _ & _ & Hk). eauto.
    + exfalso. apply Ho. now left.
    + exfalso. apply Hc. now left.
Qed.


(** ** The scan *)

Lemma finditer_values_pos p s : forall skip pos pos',
  map value (finditer p s skip pos) = map value (finditer p s skip pos').
Proof.
  induction s as [|c s IH]; intros skip pos pos'; cbn [finditer].
  - destruct skip; [|reflexivity]. now destruct (run p []) as [[? ?]|].
  - destruct skip as [|k]; [|apply IH].
    destruct (run p (c :: s)) as [[marks rest]|]; [|apply IH].
    destruct (length (c :: s) - length rest) as [|n]; cbn [map value]; f_equal; [|apply IH].
    destruct (sre_match p true (length (c :: s)) (c :: s)) as [[marks' rest']|]; [|apply IH].
    cbn [map value]. f_equal. apply IH.
Qed.

Lemma findall_from_skip p a : forall s,
  findall_from p (a ++ s) (length a) = findall_from p s 0.
Proof.
  unfold findall_from. induction a as [|c a IH]; intro s; [reflexivity|].
  cbn [app length finditer]. now rewrite (finditer_values_pos _ _ _ 1 0).
Qed.

Lemma findall_from_miss p c s :
  run p (c :: s) = None -> findall_from p (c :: s) 0 = findall_from p s 0.
Proof.
  unfold findall_from. intro H. cbn [finditer]. rewrite H.
  apply finditer_values_pos.
Qed.

Lemma take_until_app (m rest : str) : take_until (m ++ rest) rest = m.
Proof.
  unfold take_until. rewrite length_app, Nat.add_sub, firstn_app, Nat.sub_diag.
  cbn [firstn]. now rewrite app_nil_r, firstn_all.
Qed.

Lemma findall_from_hit p c m rest :
  run p (c :: m ++ rest) = Some ([], rest) ->
  findall_from p (c :: m ++ rest) 0 = (c :: m) :: findall_from p rest 0.
Proof.
  unfold findall_from. intro H. cbn [finditer]. rewrite H.
  replace (length (c :: m ++ rest) - length rest) with (S (length m))
    by (cbn [length]; rewrite length_app; lia).
  cbn [map value reported]. f_equal.
  - apply (take_until_app (c :: m)).
  - rewrite (finditer_values_pos _ _ _ 1 0). apply findall_from_skip.
Qed.

Lemma findall_from_none p s :
  (forall a b, s = a ++ b -> run p b = None) -> findall_from p s 0 = [].
Proof.
  induction s as [|c s IH]; intro H.
  - unfold findall_from. cbn [finditer]. now rewrite (H [] []).
  - rewrite findall_from_miss by (apply (H []); reflexivity).
    apply IH. intros a b ->. apply (H (c :: a)). reflexivity.
Qed.

Lemma findall_from_lead p pre s :
  (forall a b, pre = a ++ b -> b <> [] -> run p (b ++ s) = None) ->
  findall_from p (pre ++ s) 0 = findall_from p s 0.
Proof.
  induction pre as [|c pre IH]; intro H; [reflexivity|].
  cbn [app]. rewrite findall_from_miss.
  - apply IH. intros a b -> Hb. apply (H (c :: a)); [reflexivity | assumption].
  - apply (H [] (c :: pre)); [reflexivity | discriminate].
Qed.

(** ** Building the three patterns from a literal crib *)

Lemma between_spec lo hi c : between lo hi c = true <-> (lo <= c <= hi)%N.
Proof. unfold between. rewrite andb_true_iff, !N.leb_le. tauto. Qed.

Lemma is_ascii_alnum_spec c :
  is_ascii_alnum c = true <->
  ((65 <= c <= 90) \/ (97 <= c <= 122) \/ (48 <= c <= 57))%N.
Proof.
  unfold is_ascii_alnum, is_upper, is_lower, is_digit.
  rewrite !orb_true_iff, !between_spec. tauto.
Qed.

Lemma special_spec c :
  special c = false <->
  (c <> 46 /\ c <> 92 /\ c <> 91 /\ c <> 123 /\ c <> 40 /\ c <> 41 /\ c <> 42
   /\ c <> 43 /\ c <> 63 /\ c <> 94 /\ c <> 36 /\ c <> 124)%N.
Proof.
  unfold special, mem, special_chars. cbn [existsb].
  rewrite !orb_false_iff, !N.eqb_neq. tauto.
Qed.

Lemma alnum_not_special c : is_ascii_alnum c = true -> special c = false.
Proof. rewrite is_ascii_alnum_spec, special_spec. lia. Qed.

Lemma rot13_char_special c : special c = false -> special (rot13_char c) = false.
Proof.
  intro H. unfold rot13_char, is_upper, is_lower.
  destruct (between 65 90 c) eqn:U; [|destruct (between 97 122 c) eqn:L; [|assumption]].
  - apply alnum_not_special, is_ascii_alnum_spec. left. lia.
  - apply alnum_not_special, is_ascii_alnum_spec. right. left. lia.
Qed.

Lemma rot13_char_involutive c : rot13_char (rot13_char c) = c.
Proof.
  unfold rot13_char, is_upper, is_lower.
  destruct (between 65 90 c) eqn:U.
  - apply between_spec in U.
    rewrite (proj2 (between_spec 65 90 _)) by lia. lia.
  - destruct (between 97 122 c) eqn:L.
    + apply between_spec in L.
      replace (between 65 90 (97 + (c - 97 + 13) mod 26)) with false
        by (symmetry; apply not_true_is_false; rewrite between_spec; lia).
      rewrite (proj2 (between_spec 97 122 _)) by lia. lia.
    + now rewrite U, L.
Qed.

Lemma rot13_involutive s : rot13 (rot13 s) = s.
Proof.
  unfold rot13. rewrite map_map. rewrite <- (map_id s) at 2.
  apply map_ext. intro. apply rot13_char_involutive.
Qed.

Lemma rot13_regex_string crib : rot13 (regex_string crib) = regex_string (rot13 crib).
Proof.
  rewrite !regex_string_unfold. unfold rot13 at 1. rewrite map_app.
  change (map rot13_char (py "\{.*?\}")) with (py "\{.*?\}"). f_equal.
  induction crib as [|c crib IH]; [reflexivity|].
  cbn [rot13 map flat_map]. rewrite map_app. cbn [map].
  change (map rot13_char (py ".{0,2}")) with (py ".{0,2}").
  f_equal. exact IH.
Qed.

Lemma rot13_special crib :
  Forall (fun c => special c = false) crib ->
  Forall (fun c => special c = false) (rot13 crib).
Proof.
  unfold rot13. induction 1; cbn [map]; constructor; auto using rot13_char_special.
Qed.

Lemma literal_special crib : literal crib -> Forall (fun c => special c = false) crib.
Proof. apply Forall_impl. now intros c [_ H]. Qed.

Lemma utf8_encode_ascii s : Forall (fun c => (c < 128)%N) s -> utf8_encode s = Some s.
Proof.
  induction 1 as [|c s Hc _ IH]; [reflexivity|].
  cbn [utf8_encode]. unfold utf8_char. apply N.ltb_lt in Hc. now rewrite Hc, IH.
Qed.

Lemma b2a_alnum v : (v < 62)%N -> is_ascii_alnum (b2a v) = true.
Proof.
  intro H. apply is_ascii_alnum_spec. unfold b2a.
  destruct (N.ltb_spec v 26); [lia|].
  destruct (N.ltb_spec v 52); [lia|].
  destruct (N.ltb_spec v 62); lia.
Qed.

Lemma parse_literal_chars anchor :
  Forall (fun c => special c = false) anchor ->
  forall fuel tail acc grp,
    parse (length anchor + fuel) (anchor ++ tail) acc grp
    = parse fuel tail (rev (map (fun c => Atom (ALit c)) anchor) ++ acc) grp.
Proof.
  induction 1 as [|c anchor Hc _ IH]; intros fuel tail acc grp; [reflexivity|].
  cbn [length Nat.add app]. rewrite parse_literal_char, IH by assumption.
  cbn [map rev]. now rewrite <- app_assoc.
Qed.

Lemma re_compile_anchored b :
  Forall (fun c => special c = false) (firstn 3 b) ->
  re_compile (base64_regex b) = Some (anchored (firstn 3 b)).
Proof.
  intro H. unfold re_compile, base64_regex. rewrite length_app.
  replace (S (length (firstn 3 b) + length (py "[+\\A-Za-z0-9]+[=]{0,2}\s")))
    with (length (firstn 3 b) + S (length (py "[+\\A-Za-z0-9]+[=]{0,2}\s"))) by lia.
  rewrite parse_literal_chars by assumption.
  cbn. rewrite app_nil_r, rev_involutive. unfold anchored.
  rewrite <- !app_assoc. reflexivity.
Qed.

Lemma b64encode_anchor raw :
  Forall (fun b => (b < 128)%N) raw ->
  Forall (fun c => special c = false) (firstn 3 (b64encode raw)).
Proof.
  intro H.
  assert (E : forall v, (v < 62)%N -> special (b2a v) = false)
    by (intros; now apply alnum_not_special, b2a_alnum).
  destruct H as [|b0 r0 H0 H]; [constructor|].
  destruct H as [|b1 r1 H1 H].
  { cbn [b64encode firstn]. repeat constructor; apply E; lia. }
  destruct H as [|b2 r2 H2 H].
  { cbn [b64encode firstn]. repeat constructor; apply E; lia. }
  cbn [b64encode firstn]. repeat constructor; apply E; lia.
Qed.

Lemma build_patterns_literal crib :
  literal crib ->
  build_patterns crib
  = Returns (mk_patterns (fuzzy crib) (fuzzy (rot13 crib))
                         (anchored (firstn 3 (b64encode crib)))).
Proof.
  intro H. pose proof (literal_special H) as Hs.
  assert (Ha : Forall (fun c => (c < 128)%N) crib)
    by (revert H; apply Forall_impl; now intros c [? _]).
  unfold build_patterns.
  rewrite re_compile_literal by assumption. cbn [or_raise bind].
  rewrite rot13_regex_string, re_compile_literal by now apply rot13_special.
  cbn [or_raise bind]. rewrite utf8_encode_ascii by assumption. cbn [or_raise bind].
  rewrite re_compile_anchored by now apply b64encode_anchor. reflexivity.
Qed.

(** ** What the fuzzy pattern matches *)

Lemma matches_app p : forall q m1 m2,
  matches p m1 -> matches q m2 -> matches (p ++ q) (m1 ++ m2).
Proof.
  intros q m1 m2 H. induction H; intro Hq; cbn [app].
  - assumption.
  - constructor; auto.
  - rewrite <- app_assoc. constructor; auto.
  - constructor; auto.
  - constructor; auto.
Qed.

Lemma matches_app_inv p : forall q m,
  matches (p ++ q) m ->
  exists m1 m2, m = m1 ++ m2 /\ matches p m1 /\ matches q m2.
Proof.
  induction p as [|i p IH]; intros q m H.
  - exists [], m. repeat split; [constructor | assumption].
  - cbn [app] in H.
    inversion H as [|a' p' c m' Ha Hm|a' lo hi g p' w m' Hw Hlo Hhi Hm|p' m' Hm|p' m' Hm];
      subst; destruct (IH _ _ Hm) as (m1 & m2 & -> & H1 & H2).
    + exists (c :: m1), m2. repeat split; [now constructor | assumption].
    + exists (w ++ m1), m2. rewrite app_assoc. repeat split; [now constructor | assumption].
    + exists m1, m2. repeat split; [now constructor | assumption].
    + exists m1, m2. repeat split; [now constructor | assumption].
Qed.

Lemma accepts_lit x c : accepts (ALit x) c = true <-> c = x.
Proof. cbn. apply N.eqb_eq. Qed.

Lemma accepts_any c : accepts AAny c = true <-> c <> c_newline.
Proof. cbn. rewrite negb_true_iff. apply N.eqb_neq. Qed.

Lemma matches_body_inv m :
  matches body_items m ->
  exists b, m = c_lbrace :: b ++ [c_rbrace] /\ ~ In c_newline b.
Proof.
  unfold body_items. intro H.
  inversion H as [|? ? c m1 Hc H1| | |]; subst. apply accepts_lit in Hc as ->.
  inversion H1 as [| |? ? ? ? ? w m2 Hw _ _ H2| |]; subst.
  inversion H2 as [|? ? d m3 Hd H3| | |]; subst. apply accepts_lit in Hd as ->.
  inversion H3; subst. exists w. split; [reflexivity|].
  intro Hin. rewrite Forall_forall in Hw. apply Hw in Hin.
  now apply accepts_any in Hin.
Qed.

Lemma matches_body b :
  ~ In c_newline b -> matches body_items (c_lbrace :: b ++ [c_rbrace]).
Proof.
  intro H. unfold body_items.
  constructor; [now apply accepts_lit|].
  constructor; [| cbn; lia | exact I |].
  - apply Forall_forall. intros c Hc. apply accepts_any. now intros ->.
  - constructor; [now apply accepts_lit | constructor].
Qed.

Lemma matches_gap_empty p m : matches p m -> matches (gap :: p) m.
Proof.
  intro H. change m with ([] ++ m). constructor; auto; cbn; lia.
Qed.

Lemma matches_crib crib : matches (crib_items crib) crib.
Proof.
  induction crib as [|c crib IH]; cbn [crib_items]; [constructor|].
  constructor; [now apply accepts_lit|]. now apply matches_gap_empty.
Qed.

Lemma crib_items_app u v : crib_items (u ++ v) = crib_items u ++ crib_items v.
Proof. induction u as [|c u IH]; cbn [app crib_items]; [reflexivity | now rewrite IH]. Qed.

(** A filler of at most two characters, none a newline, after a crib
    character is taken by the gap that follows it. *)
Lemma matches_crib_filler u ins :
  u <> [] -> length ins <= 2 -> ~ In c_newline ins ->
  matches (crib_items u) (u ++ ins).
Proof.
  intros Hu Hlen Hnl. induction u as [|c u IH]; [contradiction|].
  cbn [crib_items app]. constructor; [now apply accepts_lit|].
  destruct u as [|c' u].
  - cbn [app crib_items]. rewrite <- (app_nil_r ins). constructor; [| lia | exact Hlen | constructor].
    apply Forall_forall. intros x Hx. apply accepts_any. now intros ->.
  - apply matches_gap_empty, IH. discriminate.
Qed.

Lemma groupless_fuzzy crib : groupless (fuzzy crib).
Proof.
  unfold groupless, fuzzy. rewrite !in_app_iff.
  assert (H : ~ In Open (crib_items crib) /\ ~ In Close (crib_items crib)).
  { induction crib as [|c crib [IHo IHc]]; [split; intros []|].
    split; intros [H|[H|H]]; try discriminate; auto. }
  destruct H as [Ho Hc]. split; intros [H|H]; auto;
    repeat (destruct H as [H|H]; try discriminate); assumption.
Qed.

(** A match of the fuzzy pattern holds an opening brace and ends in the
    first closing brace after it. *)
Lemma fuzzy_match_inv crib ma st s marks rest :
  sre_match (fuzzy crib) ma st s = Some (marks, rest) ->
  marks = [] /\
  exists m1 b, s = (m1 ++ c_lbrace :: b) ++ c_rbrace :: rest
               /\ matches (crib_items crib) m1 /\ ~ In c_newline b.
Proof.
  intro H. split; [exact (sre_match_groupless _ _ (groupless_fuzzy crib) _ H)|].
  destruct (sre_match_sound _ _ _ _ H) as (m & -> & Hm & _).
  destruct (matches_app_inv _ _ Hm) as (m1 & m2 & -> & H1 & H2).
  destruct (matches_body_inv H2) as (b & -> & Hb).
  exists m1, b. repeat split; auto.
  rewrite <- !app_assoc. cbn [app]. now rewrite <- app_assoc.
Qed.

Lemma fuzzy_run_inv crib s marks rest :
  run (fuzzy crib) s = Some (marks, rest) ->
  marks = [] /\
  exists m1 b, s = (m1 ++ c_lbrace :: b) ++ c_rbrace :: rest
               /\ matches (crib_items crib) m1 /\ ~ In c_newline b.
Proof. apply fuzzy_match_inv. Qed.

Lemma fuzzy_run_rbrace crib s marks rest :
  run (fuzzy crib) s = Some (marks, rest) -> In c_rbrace s.
Proof.
  intro H. destruct (fuzzy_run_inv _ _ H) as (_ & m1 & b & -> & _).
  apply in_app_iff. right. now left.
Qed.

Lemma fuzzy_run_head c crib x s :
  x <> c -> run (fuzzy (c :: crib)) (x :: s) = None.
Proof.
  intro H. unfold run. cbn. apply N.eqb_neq in H. now rewrite H.
Qed.

Lemma split_unique {A : Type} (x : A) (a b a' b' : list A) :
  a ++ x :: b = a' ++ x :: b' -> ~ In x a' -> ~ In x b' -> a = a' /\ b = b'.
Proof.
  revert a'. induction a as [|y a IH]; intros [|y' a'] E Ha Hb; cbn [app] in E.
  - injection E as ->. auto.
  - injection E as <- _. exfalso. apply Ha. now left.
  - injection E as -> <-. exfalso. apply Hb. apply in_app_iff. right. now left.
  - injection E as <- E. destruct (IH a' E) as [-> ->]; auto.
    intro. apply Ha. now right.
Qed.

(** The occurrence [crib{body}] is found as it stands when the text has no
    earlier place to start a match and no later closing brace. *)
Lemma findall_fuzzy_occurrence c crib pre body post :
  ~ In c_rbrace (c :: crib) -> ~ In c_rbrace body -> ~ In c_newline body ->
  ~ In c pre -> ~ In c_rbrace post ->
  findall_from (fuzzy (c :: crib))
               (pre ++ (c :: crib) ++ c_lbrace :: body ++ c_rbrace :: post) 0
  = [(c :: crib) ++ c_lbrace :: body ++ [c_rbrace]].
Proof.
  intros Hcrib Hbody Hnl Hpre Hpost.
  rewrite findall_from_lead.
  2:{ intros a [|x b] -> Hb; [contradiction|]. cbn [app]. apply fuzzy_run_head.
      intros ->. apply Hpre. apply in_app_iff. right. now left. }
  assert (M : matches (fuzzy (c :: crib)) ((c :: crib) ++ c_lbrace :: body ++ [c_rbrace]))
    by (apply matches_app; [apply matches_crib | now apply matches_body]).
  pose proof (run_complete M post) as R.
  destruct (run (fuzzy (c :: crib))
                (((c :: crib) ++ c_lbrace :: body ++ [c_rbrace]) ++ post))
    as [[marks rest]|] eqn:E; [clear R | contradiction].
  destruct (fuzzy_run_inv _ _ E) as (-> & m1 & b & Es & _ & _).
  assert (Es' : (m1 ++ c_lbrace :: b) ++ c_rbrace :: rest
                = ((c :: crib) ++ c_lbrace :: body) ++ c_rbrace :: post).
  { rewrite <- Es, <- !app_assoc. cbn [app]. now rewrite <- app_assoc. }
  apply split_unique in Es' as [_ ->]; auto.
  2:{ rewrite in_app_iff. intros [H|[H|H]]; [auto | discriminate | auto]. }
  replace ((c :: crib) ++ c_lbrace :: body ++ c_rbrace :: post)
    with (c :: (crib ++ c_lbrace :: body ++ [c_rbrace]) ++ post)
    by (cbn [app]; rewrite <- !app_assoc; cbn [app]; now rewrite <- app_assoc).
  rewrite findall_from_hit by exact E.
  rewrite findall_from_none; [reflexivity|].
  intros a s' ->. destruct (run (fuzzy (c :: crib)) s') as [[marks rest]|] eqn:Eb; [|reflexivity].
  exfalso. apply Hpost, in_app_iff. right. exact (fuzzy_run_rbrace _ _ Eb).
Qed.

(** ** [strip] *)

Lemma lstrip_repeat x n s : lstrip x (repeat x n ++ s) = lstrip x s.
Proof.
  induction n as [|n IH]; [reflexivity|]. cbn [repeat app lstrip].
  now rewrite N.eqb_refl.
Qed.

Lemma lstrip_keep x s : (forall s', s <> x :: s') -> lstrip x s = s.
Proof.
  intro H. destruct s as [|c s]; [reflexivity|]. cbn [lstrip].
  destruct (N.eqb_spec c x) as [->|]; [|reflexivity]. now destruct (H s).
Qed.

Lemma lstrip_keep_app x s t : s <> [] -> (forall s', s <> x :: s') -> lstrip x (s ++ t) = s ++ t.
Proof.
  intros Hs H. apply lstrip_keep. intros s' E. destruct s as [|c s]; [contradiction|].
  cbn [app] in E. injection E as -> _. now destruct (H s).
Qed.

Lemma rev_repeat {A : Type} (x : A) n : rev (repeat x n) = repeat x n.
Proof.
  induction n as [|n IH]; [reflexivity|]. cbn [repeat rev]. rewrite IH.
  clear IH. induction n as [|n IH]; [reflexivity|]. cbn [repeat app]. now rewrite IH.
Qed.

Lemma rstrip_repeat x n s : rstrip x (s ++ repeat x n) = rstrip x s.
Proof. unfold rstrip. now rewrite rev_app_distr, rev_repeat, lstrip_repeat. Qed.

Lemma rstrip_keep x s : (forall s', s <> s' ++ [x]) -> rstrip x s = s.
Proof.
  intro H. unfold rstrip. rewrite lstrip_keep; [apply rev_involutive|].
  intros s' E. apply (H (rev s')). rewrite <- (rev_involutive s), E. reflexivity.
Qed.

Lemma lstrip_head x s s' : lstrip x s <> x :: s'.
Proof.
  induction s as [|c s IH]; [discriminate|]. cbn [lstrip].
  destruct (N.eqb_spec c x) as [->|Hn]; [exact IH|]. congruence.
Qed.

Lemma lstrip_suffix x s : exists n, s = repeat x n ++ lstrip x s.
Proof.
  induction s as [|c s [n IH]]; [now exists 0|]. cbn [lstrip].
  destruct (N.eqb_spec c x) as [->|Hn]; [|now exists 0].
  exists (S n). cbn [repeat app]. now rewrite <- IH.
Qed.

Lemma rstrip_prefix x s : exists k, s = rstrip x s ++ repeat x k.
Proof.
  destruct (lstrip_suffix x (rev s)) as [k E]. exists k. unfold rstrip.
  rewrite <- (rev_involutive s) at 1. rewrite E at 1.
  now rewrite rev_app_distr, rev_repeat.
Qed.

Lemma rstrip_last x s s' : rstrip x s <> s' ++ [x].
Proof.
  unfold rstrip. intro E. apply (f_equal (@rev N)) in E.
  rewrite rev_involutive, rev_app_distr in E. cbn [rev app] in E.
  now apply lstrip_head in E.
Qed.

Lemma strip_trimmed x n m k :
  trimmed x m -> strip x (repeat x n ++ m ++ repeat x k) = m.
Proof.
  intros [Hl Hr]. unfold strip. rewrite lstrip_repeat.
  destruct m as [|c m].
  - cbn [app]. rewrite <- (app_nil_r (repeat x k)), lstrip_repeat. reflexivity.
  - rewrite lstrip_keep_app by (auto; discriminate).
    rewrite rstrip_repeat. now apply rstrip_keep.
Qed.

Lemma strip_decompose x s :
  exists n k, s = repeat x n ++ strip x s ++ repeat x k /\ trimmed x (strip x s).
Proof.
  destruct (lstrip_suffix x s) as [n E].
  destruct (rstrip_prefix x (lstrip x s)) as [k F].
  exists n, k. unfold strip. split; [now rewrite <- F|]. split.
  - intros m' G. rewrite G in F. cbn [app] in F. now apply lstrip_head in F.
  - intro m'. apply rstrip_last.
Qed.


Lemma strip_absent x s : ~ In x s -> strip x s = s.
Proof.
  intro H. rewrite <- (strip_trimmed 0 0 (x := x) (m := s)) at 2.
  - cbn [repeat app]. now rewrite app_nil_r.
  - split; intros m' ->; apply H; [now left | apply in_app_iff; right; now left].
Qed.

Lemma literal_no_lbrace crib : literal crib -> ~ In c_lbrace crib.
Proof.
  intros H Hin. unfold literal in H. rewrite Forall_forall in H.
  destruct (H _ Hin) as [_ Hs]. discriminate Hs.
Qed.

Lemma strip_literal crib : literal crib -> strip c_lbrace crib = crib.
Proof. intro H. now apply strip_absent, literal_no_lbrace. Qed.

(** ** The candidates of a returned list *)

Lemma after_prefix_app l v : after_prefix l (l ++ v) = Some v.
Proof.
  induction l as [|a l IH]; [reflexivity|]. cbn [app after_prefix].
  now rewrite N.eqb_refl.
Qed.

Lemma candidates_app k l1 l2 : candidates k (l1 ++ l2) = candidates k l1 ++ candidates k l2.
Proof. apply flat_map_app. Qed.

Lemma candidates_same k vs : candidates k (map (app (label k)) vs) = vs.
Proof.
  unfold candidates. induction vs as [|v vs IH]; [reflexivity|].
  cbn [map flat_map]. now rewrite after_prefix_app, IH.
Qed.

Lemma candidates_other k k' vs : k <> k' -> candidates k (map (app (label k')) vs) = [].
Proof.
  intro H. unfold candidates. induction vs as [|v vs IH]; [reflexivity|].
  cbn [map flat_map]. rewrite IH, app_nil_r.
  destruct k, k'; try contradiction; reflexivity.
Qed.

Lemma base64_values_inv xs : forall l,
  base64_values xs = Returns l ->
  exists decoded, l = map (app base64_label) decoded
                  /\ Forall2 (fun x v => base64_value x = Returns v) xs decoded.
Proof.
  induction xs as [|x xs IH]; intros l H; cbn [base64_values] in H.
  - injection H as <-. now exists [].
  - destruct (base64_value x) as [v|] eqn:Ev; [|discriminate]. cbn [bind] in H.
    destruct (base64_values xs) as [vs|] eqn:Evs; [|discriminate]. cbn [bind] in H.
    injection H as <-. destruct (IH _ eq_refl) as (decoded & -> & F).
    exists (v :: decoded). split; [reflexivity | now constructor].
Qed.

(** The list that [extract] returns: the three groups, in this order. *)
Lemma extract_inv ps text flags :
  extract ps text = Returns flags ->
  exists decoded,
    Forall2 (fun x v => base64_value x = Returns v)
            (findall (base64_pattern ps) text) decoded
    /\ flags = map (app plaintext_label) (findall (plaintext_pattern ps) text)
               ++ map (app rot13_label) (map rot13 (findall (rot13_pattern ps) text))
               ++ map (app base64_label) decoded.
Proof.
  unfold extract. intro H.
  set (pl := findall (plaintext_pattern ps) text) in *.
  set (ro := findall (rot13_pattern ps) text) in *.
  set (b6 := findall (base64_pattern ps) text) in *.
  assert (E1 : match pl with [] => [] | _ => [] ++ map (app plaintext_label) pl end
               = map (app plaintext_label) pl) by now destruct pl.
  rewrite E1 in H. clear E1.
  assert (E2 : forall acc, match ro with
                           | [] => acc
                           | _ => acc ++ map (fun x => rot13_label ++ rot13 x) ro
                           end = acc ++ map (app rot13_label) (map rot13 ro)).
  { intro acc. rewrite map_map. destruct ro; [now rewrite app_nil_r | reflexivity]. }
  rewrite E2 in H. clear E2.
  destruct b6 as [|x xs] eqn:Eb.
  - injection H as <-. exists []. split; [constructor|]. cbn [map]. now rewrite app_nil_r.
  - destruct (base64_values (x :: xs)) as [l|] eqn:Ev; [|discriminate]. cbn [bind] in H.
    injection H as <-. destruct (base64_values_inv _ Ev) as (decoded & -> & F).
    exists decoded. split; [assumption | now rewrite app_assoc].
Qed.

Lemma extract_candidates ps text flags :
  extract ps text = Returns flags ->
  candidates Plaintext flags = findall (plaintext_pattern ps) text
  /\ candidates Rot13 flags = map rot13 (findall (rot13_pattern ps) text)
  /\ Forall2 (fun x v => base64_value x = Returns v)
             (findall (base64_pattern ps) text) (candidates Base64 flags).
Proof.
  intro H. destruct (extract_inv _ _ H) as (decoded & F & ->).
  rewrite !candidates_app.
  change plaintext_label with (label Plaintext).
  change rot13_label with (label Rot13).
  change base64_label with (label Base64).
  rewrite !candidates_same.
  rewrite !candidates_other by discriminate.
  cbn [app]. rewrite !app_nil_r. auto.
Qed.

(** ** ROT13 on texts *)

Lemma rot13_app s t : rot13 (s ++ t) = rot13 s ++ rot13 t.
Proof. apply map_app. Qed.

Lemma rot13_in_fixed k s : rot13_char k = k -> In k (rot13 s) -> In k s.
Proof.
  intros Hk H. unfold rot13 in H. apply in_map_iff in H as (x & E & Hx).
  replace k with x; [assumption|].
  now rewrite <- (rot13_char_involutive x), E.
Qed.

Lemma rot13_flag crib body :
  rot13 (crib ++ c_lbrace :: body ++ [c_rbrace])
  = rot13 crib ++ c_lbrace :: rot13 body ++ [c_rbrace].
Proof. rewrite rot13_app. cbn [rot13 map]. fold (rot13 (body ++ [c_rbrace])).
  now rewrite rot13_app. Qed.

(** ** Where the values of [findall] come from *)

Lemma finditer_in p s : forall skip pos f,
  In f (finditer p s skip pos) ->
  exists a s' ma st marks rest,
    s = a ++ s' /\ sre_match p ma st s' = Some (marks, rest)
    /\ value f = reported s' marks rest.
Proof.
  induction s as [|c s IH]; intros skip pos f H; cbn [finditer] in H.
  - destruct skip; [|contradiction].
    destruct (run p []) as [[marks rest]|] eqn:E; [|contradiction].
    destruct H as [<-|[]]. now exists [], [], false, 0, marks, rest.
  - assert (Later : forall k q, In f (finditer p s k q) ->
              exists a s' ma st marks rest,
                c :: s = a ++ s' /\ sre_match p ma st s' = Some (marks, rest)
                /\ value f = reported s' marks rest).
    { intros k q Hin.
      destruct (IH _ _ _ Hin) as (a & s' & ma & st & marks & rest & -> & R & V).
      now exists (c :: a), s', ma, st, marks, rest. }
    destruct skip as [|k]; [|eauto].
    destruct (run p (c :: s)) as [[marks rest]|] eqn:E; [|eauto].
    destruct (length (c :: s) - length rest) as [|n].
    + destruct H as [<-|H]; [now exists [], (c :: s), false, 0, marks, rest|].
      destruct (sre_match p true (length (c :: s)) (c :: s)) as [[marks' rest']|] eqn:E';
        [|eauto].
      destruct H as [<-|H]; [|eauto].
      now exists [], (c :: s), true, (length (c :: s)), marks', rest'.
    + destruct H as [<-|H]; [|eauto].
      now exists [], (c :: s), false, 0, marks, rest.
Qed.

Lemma findall_in p text v :
  In v (findall p text) ->
  exists a s' ma st marks rest,
    text = a ++ s' /\ sre_match p ma st s' = Some (marks, rest)
    /\ v = reported s' marks rest.
Proof.
  unfold findall. intro H. apply in_map_iff in H as (f & <- & Hf).
  exact (finditer_in _ _ _ _ _ Hf).
Qed.

Lemma in_firstn {A : Type} (x : A) n l : In x (firstn n l) -> In x l.
Proof.
  intro H. rewrite <- (firstn_skipn n l). apply in_app_iff. now left.
Qed.

Lemma reported_inside s marks rest m :
  s = m ++ rest -> Forall (inside m rest) marks ->
  incl (reported s marks rest) m.
Proof.
  intros -> Hin.
  assert (W : incl (take_until (m ++ rest) rest) m)
    by (rewrite take_until_app; apply incl_refl).
  destruct marks as [|o [|c [|]]]; try exact W.
  inversion Hin as [|? ? (a & b & -> & ->) Hin']; subst.
  inversion Hin' as [|? ? (a' & b' & E & ->) _]; subst.
  cbn [reported]. unfold take_until. rewrite !length_app.
  replace (length b + length rest - (length b' + length rest))
    with (length b - length b') by lia.
  rewrite firstn_app.
  replace (length b - length b' - length b) with 0 by lia.
  cbn [firstn]. rewrite app_nil_r.
  intros x Hx. apply in_app_iff. right. exact (in_firstn _ _ _ Hx).
Qed.

Lemma fuzzy_value crib text v :
  In v (findall (fuzzy crib) text) ->
  exists m1 b, v = m1 ++ c_lbrace :: b ++ [c_rbrace]
               /\ matches (crib_items crib) m1 /\ ~ In c_newline b.
Proof.
  intro H. apply findall_in in H as (a & s' & ma & st & marks & rest & _ & R & ->).
  destruct (fuzzy_match_inv _ _ _ _ R) as (-> & m1 & b & -> & Hm & Hb).
  exists m1, b. repeat split; auto. cbn [reported].
  replace ((m1 ++ c_lbrace :: b) ++ c_rbrace :: rest)
    with ((m1 ++ c_lbrace :: b ++ [c_rbrace]) ++ rest)
    by (rewrite <- !app_assoc; cbn [app]; now rewrite <- app_assoc).
  apply take_until_app.
Qed.

Lemma braced_fuzzy crib text v : In v (findall (fuzzy crib) text) -> braced v.
Proof.
  intro H. apply fuzzy_value in H as (m1 & b & -> & _). now exists m1, b, [].
Qed.

Lemma braced_rot13 v : braced v -> braced (rot13 v).
Proof.
  intros (a & b & c & ->). exists (rot13 a), (rot13 b), (rot13 c).
  rewrite rot13_app. cbn [rot13 map]. fold (rot13 (b ++ c_rbrace :: c)).
  now rewrite rot13_app.
Qed.

(** ** The order of the matches *)

Lemma apart_le from from' l : from' <= from -> apart from l -> apart from' l.
Proof. destruct l as [|f l]; cbn [apart]; [trivial|]. intros ? [? ?]. split; [lia | assumption]. Qed.

Lemma skipn_app_length {A : Type} (a b : list A) : skipn (length a) (a ++ b) = b.
Proof. induction a as [|x a IH]; [reflexivity | exact IH]. Qed.

Lemma reported_infix s marks rest m :
  s = m ++ rest -> Forall (inside m rest) marks ->
  exists a b, m = a ++ reported s marks rest ++ b.
Proof.
  intros -> Hin.
  assert (W : exists a b, m = a ++ take_until (m ++ rest) rest ++ b)
    by (exists [], []; now rewrite take_until_app, app_nil_r).
  destruct marks as [|o [|c [|]]]; try exact W.
  inversion Hin as [|? ? (a & b & -> & ->) Hin']; subst.
  inversion Hin' as [|? ? (a' & b' & E & ->) _]; subst.
  cbn [reported]. unfold take_until. rewrite !length_app.
  replace (length b + length rest - (length b' + length rest))
    with (length b - length b') by lia.
  rewrite firstn_app.
  replace (length b - length b' - length b) with 0 by lia.
  cbn [firstn]. rewrite app_nil_r.
  exists a, (skipn (length b - length b') b). now rewrite firstn_skipn.
Qed.

(** A match found at the head of [s], where [text = pre ++ s]. *)
Lemma located_here p text pre s ma st marks rest :
  text = pre ++ s ->
  sre_match p ma st s = Some (marks, rest) ->
  located p text (mk_found (length pre) (length pre + (length s - length rest))
                           (reported s marks rest))
  /\ (ma = true -> st = length s -> 1 <= length s - length rest).
Proof.
  intros E R. destruct (sre_match_sound _ _ _ _ R) as (m & Em & M & I & Hadv).
  assert (Len : length s - length rest = length m) by (rewrite Em, length_app; lia).
  split.
  - unfold located, slice. cbn [start stop value].
    replace (length pre + (length s - length rest) - length pre) with (length m) by lia.
    assert (S1 : firstn (length m) (skipn (length pre) text) = m).
    { rewrite E, skipn_app_length, Em, firstn_app, Nat.sub_diag, firstn_all.
      cbn [firstn]. apply app_nil_r. }
    rewrite S1. repeat split.
    + lia.
    + rewrite E, Em, !length_app. rewrite Em, length_app in Len. lia.
    + exact M.
    + exact (reported_infix Em I).
    + intro G. rewrite (sre_match_groupless _ _ G _ R), Em. apply take_until_app.
  - intros Hma Hst. specialize (Hadv Hma). rewrite Hst, Em, length_app in Hadv.
    rewrite Len. lia.
Qed.

Lemma finditer_located p text s : forall pre skip,
  text = pre ++ s ->
  apart (length pre + skip) (finditer p s skip (length pre))
  /\ Forall (located p text) (finditer p s skip (length pre)).
Proof.
  induction s as [|c s IH]; intros pre skip E; cbn [finditer].
  - destruct skip as [|k]; [|split; constructor].
    destruct (run p []) as [[marks rest]|] eqn:R; [|split; constructor].
    destruct (@located_here p text pre [] false 0 marks rest E R) as [L _].
    destruct (run_sound _ _ R) as (m & Em & _).
    symmetry in Em. apply app_eq_nil in Em as [-> ->].
    cbn [length Nat.sub] in L. rewrite Nat.add_0_r in L.
    split; [cbn [apart start]; split; [lia | exact I]|].
    constructor; [exact L | constructor].
  - assert (E' : text = (pre ++ [c]) ++ s) by now rewrite <- app_assoc.
    assert (L : length (pre ++ [c]) = S (length pre)) by (rewrite length_app; cbn; lia).
    assert (Next : forall k from, from <= S (length pre) + k ->
               apart from (finditer p s k (S (length pre)))
               /\ Forall (located p text) (finditer p s k (S (length pre)))).
    { intros k from Hf. destruct (IH (pre ++ [c]) k E') as [A F]. rewrite L in A, F.
      split; [|exact F]. eapply apart_le; [|exact A]. exact Hf. }
    destruct skip as [|k]; [|apply Next; lia].
    destruct (run p (c :: s)) as [[marks rest]|] eqn:R; [|apply Next; lia].
    destruct (@located_here p text pre (c :: s) false 0 marks rest E R) as [Loc _].
    destruct (length (c :: s) - length rest) as [|n] eqn:Len.
    + rewrite Nat.add_0_r in Loc.
      destruct (sre_match p true (length (c :: s)) (c :: s)) as [[marks' rest']|] eqn:R'.
      * destruct (@located_here p text pre (c :: s) true (length (c :: s)) marks' rest' E R')
          as [Loc' Adv].
        specialize (Adv eq_refl eq_refl).
        destruct (Next (pred (length (c :: s) - length rest'))
                       (length pre + (length (c :: s) - length rest'))) as [A F]; [lia|].
        split.
        -- cbn [apart start stop]. repeat split; try lia. exact A.
        -- constructor; [exact Loc|]. constructor; [exact Loc' | exact F].
      * destruct (Next 0 (length pre)) as [A F]; [lia|].
        split; [cbn [apart start stop]; split; [lia | exact A]|].
        constructor; [exact Loc | exact F].
    + destruct (Next n (length pre + S n)) as [A F]; [lia|].
      split; [cbn [apart start stop]; split; [lia | exact A]|].
      constructor; [exact Loc | exact F].
Qed.

Lemma findall_located p text :
  apart 0 (finditer p text 0 0) /\ Forall (located p text) (finditer p text 0 0).
Proof. exact (@finditer_located p text text [] 0 eq_refl). Qed.

Lemma slice_skipn text i j :
  i <= j -> skipn i text = slice text i j ++ skipn j text.
Proof.
  intro H. unfold slice.
  rewrite <- (firstn_skipn (j - i) (skipn i text)) at 1.
  rewrite skipn_skipn. now replace (j - i + i) with j by lia.
Qed.

Lemma located_run p text f : located p text f -> run p (skipn (start f) text) <> None.
Proof.
  intros ([H _] & M & _). rewrite (slice_skipn text H). now apply run_complete.
Qed.

(** ** Fillers between crib characters *)

Lemma finditer_nonempty p s : forall skip pos a b,
  s = a ++ b -> skip <= length a -> run p b <> None ->
  finditer p s skip pos <> [].
Proof.
  induction s as [|c s IH]; intros skip pos a b E Hs Hr; cbn [finditer].
  - symmetry in E. apply app_eq_nil in E as [-> ->]. cbn [length] in Hs.
    assert (skip = 0) as -> by lia.
    destruct (run p []) as [[? ?]|]; [discriminate | contradiction].
  - destruct skip as [|k].
    + destruct (run p (c :: s)) as [[marks rest]|] eqn:R.
      { destruct (length (c :: s) - length rest); discriminate. }
      destruct a as [|x a]; [cbn [app] in E; subst b; contradiction|].
      injection E as _ E. apply (IH 0 (S pos) a b E); [lia | assumption].
    + destruct a as [|x a]; [cbn [length] in Hs; lia|].
      injection E as _ E. apply (IH k (S pos) a b E); [cbn [length] in Hs; lia | assumption].
Qed.

Lemma matches_fuzzy_head_inv w m :
  matches (crib_items w ++ body_items) m ->
  exists d m', m = d :: m' /\ (In d w \/ d = c_lbrace).
Proof.
  destruct w as [|c w]; cbn [crib_items app]; intro H.
  - apply matches_body_inv in H as (b & -> & _). eexists _, _. split; [reflexivity | now right].
  - inversion H as [|? ? d m' Hd _| | |]; subst. apply accepts_lit in Hd as ->.
    eexists _, _. split; [reflexivity | left; now left].
Qed.

(** No path through the pattern crosses a filler of three or more
    characters that are neither crib characters nor an opening brace. *)
Lemma fuzzy_no_crossing (all ins rest : str) :
  3 <= length ins ->
  (forall d, In d ins -> ~ In d all /\ d <> c_lbrace) ->
  forall w x m tail,
    incl w all -> length x <= length w -> ~ In c_lbrace x ->
    x ++ ins ++ rest = m ++ tail ->
    ~ matches (crib_items w ++ body_items) m.
Proof.
  intros Hlen Hins.
  assert (Head : forall w d s m tail,
             incl w all -> In d ins -> d :: s = m ++ tail ->
             ~ matches (crib_items w ++ body_items) m).
  { intros w d s m tail Hw Hd E M.
    apply matches_fuzzy_head_inv in M as (d' & m' & -> & Hd').
    cbn [app] in E. injection E as <- _. destruct (Hins _ Hd) as [Hn Hb].
    destruct Hd' as [Hd'|Hd']; [apply Hn, Hw, Hd' | contradiction]. }
  induction w as [|c w IH]; intros x m tail Hw Hx Hb E M.
  - destruct x; [|cbn [length] in Hx; lia]. cbn [app] in E.
    destruct ins as [|d ins']; [cbn [length] in Hlen; lia|].
    cbn [app] in E. exact (Head [] d _ m tail Hw (or_introl eq_refl) E M).
  - assert (Hw' : incl w all) by (intros y Hy; apply Hw; now right).
    destruct x as [|c' x].
    { destruct ins as [|d ins']; [cbn [length] in Hlen; lia|].
      cbn [app] in E. exact (Head (c :: w) d _ m tail Hw (or_introl eq_refl) E M). }
    cbn [crib_items app] in M.
    inversion M as [|? ? c0 m0 Hc0 M0| | |]; subst. clear M.
    inversion M0 as [| |? ? ? ? ? g m'' _ _ Hg M''| |]; subst. clear M0.
    cbn [within] in Hg. cbn [app] in E. injection E as _ E.
    rewrite <- app_assoc in E.
    apply app_eq_app in E as (l & [[E1 E2]|[E1 E2]]).
    + (* the gap ends before the filler *)
      apply (IH l m'' tail); auto.
      * subst x. cbn [length] in Hx. rewrite length_app in Hx. lia.
      * intro Hl. apply Hb. right. subst x. apply in_app_iff. now right.
    + (* the gap reaches into the filler *)
      assert (Hl : length l <= 2) by (subst g; rewrite length_app in Hg; lia).
      apply app_eq_app in E2 as (l2 & [[E3 E4]|[E3 E4]]).
      * destruct l2 as [|d l2].
        { rewrite app_nil_r in E3. subst l. lia. }
        cbn [app] in E4.
        apply (Head w d (l2 ++ rest) m'' tail); auto.
        subst ins. apply in_app_iff. right. now left.
      * subst l. rewrite length_app in Hl. lia.
Qed.

Lemma fuzzy_filler_blocks u v ins tail :
  3 <= length ins ->
  (forall d, In d ins -> ~ In d (u ++ v) /\ d <> c_lbrace) ->
  ~ In c_lbrace u ->
  run (fuzzy (u ++ v)) (u ++ ins ++ tail) = None.
Proof.
  intros Hlen Hins Hu.
  destruct (run (fuzzy (u ++ v)) (u ++ ins ++ tail)) as [[marks rest]|] eqn:R;
    [exfalso | reflexivity].
  destruct (run_sound _ _ R) as (m & E & M & _).
  apply (@fuzzy_no_crossing (u ++ v) ins tail Hlen Hins (u ++ v) u m rest);
    auto using incl_refl.
  rewrite length_app. lia.
Qed.

Lemma fuzzy_filler_passes u v ins body tail :
  u <> [] -> length ins <= 2 -> ~ In c_newline ins -> ~ In c_newline body ->
  run (fuzzy (u ++ v)) (u ++ ins ++ v ++ c_lbrace :: body ++ c_rbrace :: tail) <> None.
Proof.
  intros Hu Hlen Hins Hbody.
  replace (u ++ ins ++ v ++ c_lbrace :: body ++ c_rbrace :: tail)
    with (((u ++ ins) ++ v ++ c_lbrace :: body ++ [c_rbrace]) ++ tail)
    by (rewrite <- !app_assoc; cbn [app]; now rewrite <- !app_assoc).
  apply run_complete. unfold fuzzy. rewrite crib_items_app, <- app_assoc.
  apply matches_app; [now apply matches_crib_filler|].
  apply matches_app; [apply matches_crib | now apply matches_body].
Qed.

Lemma plaintext_matches_literal crib text :
  literal crib -> plaintext_matches crib text = Returns (finditer (fuzzy crib) text 0 0).
Proof.
  intro H. unfold plaintext_matches.
  now rewrite strip_literal, build_patterns_literal by assumption.
Qed.

(** ** No atom of a compiled crib pattern accepts a line break *)

Lemma tame_tail x s : tame (x :: s) -> tame s.
Proof.
  intros [Hn Ha]. split; [intro; apply Hn; now right|].
  cbn [adjacent] in Ha. destruct s as [|y s]; [reflexivity|].
  now apply andb_true_iff in Ha.
Qed.

Lemma tame_suffix a s : tame (a ++ s) -> tame s.
Proof. induction a as [|x a IH]; [trivial|]. intro H. apply IH. exact (tame_tail H). Qed.

Lemma tame_head x s : tame (x :: s) -> x <> c_newline.
Proof. intros [Hn _] ->. apply Hn. now left. Qed.

Lemma tame_follows x y s : tame (x :: y :: s) -> follows x y = true.
Proof. intros [_ Ha]. cbn [adjacent] in Ha. now apply andb_true_iff in Ha. Qed.

Lemma follows_escape y : follows c_backslash y = true -> y <> c_s.
Proof.
  unfold follows. rewrite N.eqb_refl. cbn [implb]. rewrite !andb_true_iff.
  intros [[[H _] _] _]. apply negb_true_iff in H. now apply N.eqb_neq.
Qed.

Lemma follows_set y : follows c_lbracket y = true -> y <> c_caret.
Proof.
  unfold follows. rewrite N.eqb_refl. cbn [implb]. rewrite !andb_true_iff.
  intros [[[_ H] _] _]. apply negb_true_iff in H. now apply N.eqb_neq.
Qed.

Lemma follows_before_minus x : follows x c_minus = true -> x = c_rbrace.
Proof.
  unfold follows. rewrite N.eqb_refl. cbn [implb]. rewrite !andb_true_iff.
  intros [[_ H] _]. now apply N.eqb_eq.
Qed.

Lemma follows_after_minus y : follows c_minus y = true -> y = c_dot.
Proof.
  unfold follows. rewrite N.eqb_refl. cbn [implb]. rewrite !andb_true_iff.
  intros [_ H]. now apply N.eqb_eq.
Qed.

Lemma single_line_single c : c <> c_newline -> single_line_range (c, c).
Proof.
  intro H. unfold single_line_range, in_range. cbn [fst snd].
  apply not_true_is_false. rewrite between_spec. unfold c_newline in *. lia.
Qed.

Lemma set_member_tame src c src2 :
  tame src -> set_member src = Some (c, src2) ->
  c <> c_newline /\ tame src2
  /\ forall d rest, src2 = d :: rest -> follows c d = true.
Proof.
  intros T H. destruct src as [|this src1]; [discriminate|]. cbn [set_member] in H.
  destruct (N.eqb_spec this c_backslash) as [->|_].
  - destruct src1 as [|e src2']; [discriminate|].
    unfold class_escape in H. destruct (is_ascii_alnum e); [discriminate|].
    injection H as <- <-. pose proof (tame_tail T) as T1.
    split; [exact (tame_head T1)|]. split; [exact (tame_tail T1)|].
    intros d rest ->. exact (tame_follows T1).
  - injection H as <- <-.
    split; [exact (tame_head T)|]. split; [exact (tame_tail T)|].
    intros d rest ->. exact (tame_follows T).
Qed.

Lemma parse_set_tame fuel : forall src set set' src',
  tame src -> Forall single_line_range set ->
  parse_set fuel src set = Some (set', src') ->
  Forall single_line_range set' /\ tame src'.
Proof.
  induction fuel as [|fuel IH]; intros src set set' src' T F H; [discriminate|].
  cbn [parse_set] in H. destruct src as [|this src1]; [discriminate|].
  destruct ((this =? c_rbracket)%N && negb (Nat.eqb (length set) 0)).
  { injection H as <- <-. split; [now apply Forall_rev | exact (tame_tail T)]. }
  destruct (set_member (this :: src1)) as [[code1 src2]|] eqn:M; [|discriminate].
  destruct (set_member_tame T M) as (Hc & T2 & Hf).
  assert (F1 : Forall single_line_range ((code1, code1) :: set))
    by (constructor; [now apply single_line_single | assumption]).
  destruct src2 as [|d src3]; [now apply (IH _ _ _ _ T2 F1)|].
  destruct (N.eqb_spec d c_minus) as [->|_]; [|now apply (IH _ _ _ _ T2 F1)].
  destruct src3 as [|that src4]; [discriminate|].
  destruct (N.eqb_spec that c_rbracket) as [->|Hthat].
  { injection H as <- <-. split; [|exact (tame_tail (tame_tail T2))].
    cbn [rev]. repeat (apply Forall_app; split); try (now apply Forall_rev);
      (constructor; [|constructor]); now apply single_line_single. }
  exfalso.
  pose proof (follows_before_minus _ (Hf _ _ eq_refl)) as ->.
  pose proof (follows_after_minus _ (tame_follows T2)) as ->.
  cbn in H. discriminate.
Qed.

Lemma take_digits_app src : src = fst (take_digits src) ++ snd (take_digits src).
Proof.
  induction src as [|c src IH]; [reflexivity|]. cbn [take_digits].
  destruct (is_digit c); [|reflexivity].
  destruct (take_digits src) as [ds r]. cbn [fst snd app] in *. now rewrite <- IH.
Qed.

Lemma brace_bounds_suffix src lo hi rest :
  brace_bounds src = BRange lo hi rest -> exists a, src = a ++ rest.
Proof.
  unfold brace_bounds. pose proof (take_digits_app src) as E1.
  destruct (take_digits src) as [ds src1]. cbn [fst snd] in E1.
  assert (E2 : forall h src2,
             match src1 with
             | c :: src1' => if (c =? c_comma)%N then take_digits src1' else (ds, src1)
             | [] => (ds, src1)
             end = (h, src2) -> exists a, src = a ++ src2).
  { intros h src2 H. destruct src1 as [|c src1'].
    - injection H as _ <-. now exists ds.
    - destruct (c =? c_comma)%N.
      + pose proof (take_digits_app src1') as E3. rewrite H in E3. cbn [fst snd] in E3.
        exists (ds ++ c :: h). rewrite E1, E3 at 1. now rewrite <- app_assoc.
      + injection H as _ <-. now exists ds. }
  destruct (match src1 with
            | c :: src1' => if (c =? c_comma)%N then take_digits src1' else (ds, src1)
            | [] => (ds, src1)
            end) as [h src2].
  destruct (E2 h src2 eq_refl) as [a Ea].
  destruct src2 as [|c src3]; [discriminate|].
  destruct (c =? c_rbrace)%N; [|discriminate].
  destruct src as [|c0 src0]; [discriminate|].
  destruct (c0 =? c_rbrace)%N; [discriminate|].
  destruct (MAXREPEAT <=? int_of_digits ds)%N; [discriminate|].
  destruct (MAXREPEAT <=? int_of_digits h)%N; [discriminate|].
  intro H. exists (a ++ [c]).
  assert (rest = src3) as ->.
  { destruct h; [now injection H|].
    destruct (int_of_digits (n :: h) <? int_of_digits ds)%N; [discriminate | now injection H]. }
  rewrite Ea, <- app_assoc. reflexivity.
Qed.

Lemma repeat_bounds_suffix this src lo hi rest :
  repeat_bounds this src = BRange lo hi rest -> exists a, src = a ++ rest.
Proof.
  unfold repeat_bounds.
  destruct (this =? c_star)%N; [intro H; injection H as _ _ <-; now exists []|].
  destruct (this =? c_plus)%N; [intro H; injection H as _ _ <-; now exists []|].
  destruct (this =? c_quest)%N; [intro H; injection H as _ _ <-; now exists []|].
  apply brace_bounds_suffix.
Qed.

Lemma parse_tame fuel : forall src acc grp p,
  tame src -> Forall single_line acc ->
  parse fuel src acc grp = Some p -> Forall single_line p.
Proof.
  induction fuel as [|fuel IH]; intros src acc grp p T F H; [discriminate|].
  cbn [parse] in H. destruct src as [|this src1].
  { destruct (Nat.eqb grp 1); [discriminate|]. injection H as <-. now apply Forall_rev. }
  pose proof (tame_tail T) as T1. pose proof (tame_head T) as Hthis.
  assert (Lit : Forall single_line (Atom (ALit this) :: acc)).
  { constructor; [|assumption]. cbn [single_line accepts]. apply N.eqb_neq. congruence. }
  destruct (N.eqb_spec this c_backslash) as [->|_].
  { destruct src1 as [|e src2]; [discriminate|].
    destruct (escape e) as [a|] eqn:E; [|discriminate].
    apply (IH _ _ _ _ (tame_tail T1)) in H; [assumption|].
    constructor; [|assumption]. unfold escape in E.
    destruct (N.eqb_spec e c_s) as [->|_].
    - pose proof (tame_follows T) as Hf. apply follows_escape in Hf. now destruct Hf.
    - destruct (is_ascii_alnum e); [discriminate|]. injection E as <-.
      cbn [single_line accepts]. apply N.eqb_neq. pose proof (tame_head T1). congruence. }
  destruct (special this); cbn [negb] in H; [|exact (IH _ _ _ _ T1 Lit H)].
  destruct (this =? c_lbracket)%N eqn:Eb.
  { apply N.eqb_eq in Eb as ->.
    assert (N : match src1 with
                | c :: src1' => if (c =? c_caret)%N then (true, src1') else (false, src1)
                | [] => (false, src1)
                end = (false, src1)).
    { destruct src1 as [|c src1']; [reflexivity|].
      destruct (N.eqb_spec c c_caret) as [->|_]; [|reflexivity].
      pose proof (tame_follows T) as Hf. apply follows_set in Hf. now destruct Hf. }
    rewrite N in H.
    destruct (parse_set (S (length src1)) src1 []) as [[set src3]|] eqn:P; [|discriminate].
    destruct (parse_set_tame _ T1 (Forall_nil _) P) as [Fs T3].
    apply (IH _ _ _ _ T3) in H; [assumption|].
    constructor; [|assumption]. cbn [single_line accepts xorb].
    apply not_true_is_false. intro Hex. apply existsb_exists in Hex as (r & Hr & Hin).
    rewrite Forall_forall in Fs. specialize (Fs _ Hr). unfold single_line_range in Fs.
    congruence. }
  destruct (mem this repeat_chars).
  { destruct (repeat_bounds this src1) as [| |lo hi src2] eqn:B; [|discriminate|].
    - exact (IH _ _ _ _ T1 Lit H).
    - destruct (repeat_bounds_suffix _ _ B) as [a Ea].
      assert (T2 : tame src2) by (rewrite Ea in T1; exact (tame_suffix _ _ T1)).
      destruct acc as [|[a0| | |] acc']; try discriminate.
      inversion F as [|? ? Ha F']; subst.
      assert (R : forall g, Forall single_line (Rep a0 lo hi g :: acc'))
        by (intro; now constructor).
      destruct src2 as [|q src3]; [exact (IH _ _ _ _ T2 (R true) H)|].
      destruct (q =? c_quest)%N.
      + exact (IH _ _ _ _ (tame_tail T2) (R false) H).
      + exact (IH _ _ _ _ T2 (R true) H). }
  destruct (this =? c_dot)%N.
  { apply (IH _ _ _ _ T1) in H; [assumption|]. now constructor. }
  destruct (this =? c_lparen)%N.
  { destruct src1 as [|q src2]; [discriminate|].
    destruct (q =? c_quest)%N; [discriminate|].
    destruct (Nat.eqb grp 0); [|discriminate].
    apply (IH _ _ _ _ T1) in H; [assumption|]. now constructor. }
  destruct (this =? c_rparen)%N; [|discriminate].
  destruct (Nat.eqb grp 1); [|discriminate].
  apply (IH _ _ _ _ T1) in H; [assumption|]. now constructor.
Qed.

Lemma follows_rbrace y : follows c_rbrace y = true.
Proof. unfold follows. cbn. now destruct (y =? c_minus)%N. Qed.

Lemma follows_dot x : follows x c_dot = true.
Proof.
  unfold follows. cbn.
  now destruct (x =? c_backslash)%N, (x =? c_lbracket)%N, (x =? c_minus)%N.
Qed.

Lemma adjacent_cons x y s : adjacent (x :: y :: s) = follows x y && adjacent (y :: s).
Proof. reflexivity. Qed.

Lemma adjacent_regex_string crib :
  adjacent (c_rbrace :: flat_map (fun c => c :: py ".{0,2}") crib ++ py "\{.*?\}") = true.
Proof.
  induction crib as [|c crib IH]; [reflexivity|].
  cbn [flat_map]. rewrite <- app_assoc.
  change ((c :: py ".{0,2}") ++ flat_map (fun c => c :: py ".{0,2}") crib ++ py "\{.*?\}")
    with (c :: c_dot :: c_lbrace :: 48%N :: c_comma :: 50%N :: c_rbrace
            :: flat_map (fun c => c :: py ".{0,2}") crib ++ py "\{.*?\}").
  rewrite !adjacent_cons, follows_rbrace, follows_dot, IH. reflexivity.
Qed.

Lemma tame_regex_string crib : ~ In c_newline crib -> tame (regex_string crib).
Proof.
  intro H. rewrite regex_string_unfold. split.
  - rewrite in_app_iff, in_flat_map. intros [(c & Hc & [E|Hin])|Hin].
    + subst c. contradiction.
    + cbn in Hin. intuition discriminate.
    + cbn in Hin. intuition discriminate.
  - pose proof (adjacent_regex_string crib) as A.
    remember (flat_map (fun c => c :: py ".{0,2}") crib ++ py "\{.*?\}") as s.
    cbn [adjacent] in A. destruct s as [|y s]; [reflexivity|].
    now apply andb_true_iff in A.
Qed.

Lemma re_compile_single_line crib p :
  ~ In c_newline crib -> re_compile (regex_string crib) = Some p ->
  Forall single_line p.
Proof.
  intros H C. unfold re_compile in C.
  eapply parse_tame in C; [exact C | now apply tame_regex_string | constructor].
Qed.

Lemma matches_single_line p m :
  Forall single_line p -> matches p m -> ~ In c_newline m.
Proof.
  intros F M. induction M as [|a p c m Ha _ IH|a lo hi g p w m Hw _ _ _ IH|p m _ IH|p m _ IH];
    inversion F as [|? ? Hi F']; subst; cbn [single_line] in *.
  - intros [].
  - intros [E|Hin]; [rewrite E in Ha; congruence | now apply IH].
  - rewrite in_app_iff. intros [Hin|Hin]; [|now apply IH].
    rewrite Forall_forall in Hw. specialize (Hw _ Hin). congruence.
  - now apply IH.
  - now apply IH.
Qed.

Lemma findall_single_line p text v :
  Forall single_line p -> In v (findall p text) -> ~ In c_newline v.
Proof.
  intros F H Hin. apply findall_in in H as (a & s' & ma & st & marks & rest & _ & R & ->).
  destruct (sre_match_sound _ _ _ _ R) as (m & E & M & I & _).
  apply (matches_single_line F M). eapply reported_inside; eassumption.
Qed.

Lemma build_patterns_plaintext crib ps :
  build_patterns crib = Returns ps ->
  re_compile (regex_string crib) = Some (plaintext_pattern ps).
Proof.
  unfold build_patterns. intro H.
  destruct (re_compile (regex_string crib)) as [p|]; [|discriminate]. cbn [or_raise bind] in H.
  destruct (re_compile (rot13 (regex_string crib))); [|discriminate]. cbn [or_raise bind] in H.
  destruct (utf8_encode crib); [|discriminate]. cbn [or_raise bind] in H.
  destruct (re_compile (base64_regex (b64encode b))); [|discriminate]. cbn [or_raise bind] in H.
  now injection H as <-.
Qed.

Lemma strip_incl x s c : In c (strip x s) -> In c s.
Proof.
  intro H. destruct (strip_decompose x s) as (n & k & E & _). rewrite E.
  rewrite !in_app_iff. right. now left.
Qed.

Lemma plaintext_pattern_single_line crib ps :
  ~ In c_newline crib -> build_patterns (strip c_lbrace crib) = Returns ps ->
  Forall single_line (plaintext_pattern ps).
Proof.
  intros H B. apply build_patterns_plaintext in B.
  eapply re_compile_single_line; [|eassumption].
  intro Hin. apply H. eapply strip_incl. eassumption.
Qed.

(** ** Base64 and UTF-8 round trips *)

Lemma list_ind3 {A : Type} (P : list A -> Prop) :
  P [] -> (forall a, P [a]) -> (forall a b, P [a; b]) ->
  (forall a b c l, P l -> P (a :: b :: c :: l)) ->
  forall l, P l.
Proof.
  intros H0 H1 H2 H3.
  assert (H : forall n l, length l <= n -> P l).
  { induction n as [|n IH]; intros l Hl.
    - destruct l; [exact H0 | cbn [length] in Hl; lia].
    - destruct l as [|a [|b [|c l]]]; auto.
      apply H3, IH. cbn [length] in Hl. lia. }
  intro l. exact (H (length l) l (le_n _)).
Qed.

Lemma a2b_b2a v : (v < 64)%N -> a2b (b2a v) = Some v.
Proof.
  intro H. unfold b2a, a2b, is_upper, is_lower, is_digit, c_plus, c_slash.
  destruct (N.ltb_spec v 26).
  { rewrite (proj2 (between_spec 65 90 _)) by lia. f_equal. lia. }
  destruct (N.ltb_spec v 52).
  { replace (between 65 90 (97 + (v - 26))) with false
      by (symmetry; apply not_true_is_false; rewrite between_spec; lia).
    rewrite (proj2 (between_spec 97 122 _)) by lia. f_equal. lia. }
  destruct (N.ltb_spec v 62).
  { replace (between 65 90 (48 + (v - 52))) with false
      by (symmetry; apply not_true_is_false; rewrite between_spec; lia).
    replace (between 97 122 (48 + (v - 52))) with false
      by (symmetry; apply not_true_is_false; rewrite between_spec; lia).
    rewrite (proj2 (between_spec 48 57 _)) by lia. f_equal. lia. }
  destruct (N.eqb_spec v 62) as [->|]; [reflexivity|].
  cbn. f_equal. lia.
Qed.

Lemma b2a_not_pad v : (b2a v =? c_equal)%N = false.
Proof.
  apply N.eqb_neq. unfold b2a, c_equal, c_plus, c_slash.
  destruct (N.ltb_spec v 26); [lia|].
  destruct (N.ltb_spec v 52); [lia|].
  destruct (N.ltb_spec v 62); [lia|].
  destruct (v =? 62)%N; lia.
Qed.

Lemma a2b_base64_data v data q leftchar pads :
  (v < 64)%N ->
  a2b_base64 (b2a v :: data) q leftchar pads
  = match q with
    | 0 => a2b_base64 data 1 v 0
    | 1 => emit (leftchar * 4 + v / 16)%N (a2b_base64 data 2 (v mod 16)%N 0)
    | 2 => emit (leftchar * 16 + v / 4)%N (a2b_base64 data 3 (v mod 4)%N 0)
    | _ => emit (leftchar * 64 + v)%N (a2b_base64 data 0 0%N 0)
    end.
Proof.
  intro H. cbn [a2b_base64]. now rewrite b2a_not_pad, a2b_b2a.
Qed.

Lemma a2b_base64_junk data : forall leftchar pads,
  Forall junk data -> a2b_base64 data 0 leftchar pads = Some [].
Proof.
  induction data as [|b data IH]; intros leftchar pads H; [reflexivity|].
  inversion H as [|? ? [Hp Ha] H']; subst. cbn [a2b_base64]. rewrite Hp, Ha. now apply IH.
Qed.

(** Decoding what [b64encode] wrote gives the octets back, whatever
    octets outside the alphabet follow. *)
Lemma b64decode_b64encode tail : Forall junk tail ->
  forall raw, Forall (fun b => (b < 256)%N) raw ->
  forall leftchar pads,
    a2b_base64 (b64encode raw ++ tail) 0 leftchar pads = Some raw.
Proof.
  intros Htail raw. induction raw as [|b0|b0 b1|b0 b1 b2 raw IH] using list_ind3;
    intros H leftchar pads.
  - now apply a2b_base64_junk.
  - inversion H as [|? ? H0 _]; subst. cbn [b64encode app].
    rewrite !a2b_base64_data by lia. cbn [a2b_base64 emit].
    rewrite N.eqb_refl. cbn. f_equal. f_equal. lia.
  - inversion H as [|? ? H0 H']; subst. inversion H' as [|? ? H1 _]; subst.
    cbn [b64encode app]. rewrite !a2b_base64_data by lia. cbn [a2b_base64 emit].
    rewrite N.eqb_refl. cbn. f_equal. f_equal; [lia|]. f_equal. lia.
  - inversion H as [|? ? H0 H']; subst. inversion H' as [|? ? H1 H'']; subst.
    inversion H'' as [|? ? H2 H3]; subst.
    cbn [b64encode app]. rewrite !a2b_base64_data by lia.
    rewrite IH by assumption. cbn [emit].
    f_equal. f_equal; [lia|]. f_equal; [lia|]. f_equal. lia.
Qed.

Lemma utf8_decode_ascii raw :
  Forall (fun b => (b < 128)%N) raw -> utf8_decode raw = Some raw.
Proof.
  induction 1 as [|b raw Hb _ IH]; [reflexivity|].
  cbn [utf8_decode]. apply N.ltb_lt in Hb. now rewrite Hb, IH.
Qed.

Lemma utf8_encode_app s t :
  utf8_encode (s ++ t)
  = match utf8_encode s, utf8_encode t with
    | Some a, Some b => Some (a ++ b)
    | _, _ => None
    end.
Proof.
  induction s as [|c s IH]; cbn [app utf8_encode].
  - now destruct (utf8_encode t).
  - rewrite IH. destruct (utf8_char c), (utf8_encode s), (utf8_encode t);
      try reflexivity. now rewrite app_assoc.
Qed.

Lemma junk_low b : (b < 43)%N -> junk b.
Proof.
  intro H. split; [apply N.eqb_neq; unfold c_equal; lia|].
  unfold a2b, is_upper, is_lower, is_digit, c_plus, c_slash.
  repeat match goal with
         | |- context [between ?l ?h b] =>
             replace (between l h b) with false
               by (symmetry; apply not_true_is_false; rewrite between_spec; lia)
         end.
  destruct (N.eqb_spec b 43); [lia|]. destruct (N.eqb_spec b 47); [lia | reflexivity].
Qed.

Lemma junk_high b : (128 <= b)%N -> junk b.
Proof.
  intro H. split; [apply N.eqb_neq; unfold c_equal; lia|].
  unfold a2b, is_upper, is_lower, is_digit, c_plus, c_slash.
  repeat match goal with
         | |- context [between ?l ?h b] =>
             replace (between l h b) with false
               by (symmetry; apply not_true_is_false; rewrite between_spec; lia)
         end.
  destruct (N.eqb_spec b 43); [lia|]. destruct (N.eqb_spec b 47); [lia | reflexivity].
Qed.

Lemma is_space_spec w :
  is_space w = true ->
  ((9 <= w <= 13) \/ (28 <= w <= 32) \/ w = 133 \/ w = 160 \/ w = 5760
   \/ (8192 <= w <= 8202) \/ w = 8232 \/ w = 8233 \/ w = 8239 \/ w = 8287
   \/ w = 12288)%N.
Proof.
  unfold is_space. rewrite !orb_true_iff, !between_spec, !N.eqb_eq. tauto.
Qed.

(** The UTF-8 form of a whitespace character is passed over by the
    base64 decoder. *)
Lemma utf8_space_junk w :
  is_space w = true -> exists wb, utf8_char w = Some wb /\ Forall junk wb.
Proof.
  intro H. apply is_space_spec in H. unfold utf8_char.
  destruct (N.ltb_spec w 128).
  { eexists. split; [reflexivity|]. constructor; [apply junk_low; lia | constructor]. }
  destruct (N.ltb_spec w 2048).
  { eexists. split; [reflexivity|]. repeat constructor; apply junk_high; lia. }
  destruct (N.ltb_spec w 65536); [|lia].
  replace (between 55296 57343 w) with false
    by (symmetry; apply not_true_is_false; rewrite between_spec; lia).
  eexists. split; [reflexivity|]. repeat constructor; apply junk_high; lia.
Qed.

(** ** The base64 pattern on a base64 text *)

(** A greedy unbounded repeat takes a whole run of accepted characters when
    the character after the run is not accepted and the continuation
    succeeds there. *)
Lemma rep_greedy_run {R : Type} a (k : str -> option R) s' r :
  (forall c t, s' = c :: t -> accepts a c = false) ->
  k s' = Some r ->
  forall w lo,
    Forall (fun c => accepts a c = true) w -> lo <= length w ->
    rep a true lo None (w ++ s') k = Some r.
Proof.
  intros Hs Hk w. induction w as [|x w IH]; intros lo Hw Hlo.
  - cbn [length] in Hlo. assert (lo = 0) as -> by lia. cbn [app].
    destruct s' as [|c t]; [exact Hk|]. cbn [rep]. rewrite (Hs c t eq_refl). exact Hk.
  - inversion Hw as [|? ? Hx Hw']; subst. cbn [app rep hi_open hi_pred].
    rewrite Hx. cbn [andb]. destruct (Nat.eqb_spec lo 0) as [->|Hn].
    + rewrite (IH 0 Hw' (Nat.le_0_l _)). reflexivity.
    + apply IH; [assumption | cbn [length] in Hlo; lia].
Qed.

Lemma classy_spec c :
  classy c <-> (c = 43 \/ c = 92 \/ (65 <= c <= 90) \/ (97 <= c <= 122) \/ (48 <= c <= 57))%N.
Proof.
  unfold classy, base64_set. cbn [accepts xorb existsb]. unfold in_range. cbn [fst snd].
  rewrite orb_false_r, !orb_true_iff, !between_spec. lia.
Qed.

Lemma b2a_classy v : (v < 64)%N -> b2a v <> c_slash -> classy (b2a v).
Proof.
  intros H Hs. apply classy_spec. unfold b2a, c_plus, c_slash in *.
  destruct (N.ltb_spec v 26); [lia|].
  destruct (N.ltb_spec v 52); [lia|].
  destruct (N.ltb_spec v 62); [lia|].
  destruct (N.eqb_spec v 62); [lia | contradiction].
Qed.

Lemma space_not_classy w : is_space w = true -> accepts (AIn false base64_set) w = false.
Proof.
  intro H. apply is_space_spec in H. apply not_true_is_false. intro C.
  apply classy_spec in C. lia.
Qed.

Lemma space_not_pad w :
  is_space w = true -> accepts (AIn false [(c_equal, c_equal)]) w = false.
Proof.
  intro H. apply is_space_spec in H. cbn [accepts xorb existsb]. unfold in_range. cbn [fst snd].
  rewrite orb_false_r. apply not_true_is_false. rewrite between_spec.
  unfold c_equal. lia.
Qed.

(** A base64 text without "/" is a run of set characters and the padding. *)
Lemma b64encode_shape raw :
  Forall (fun b => (b < 256)%N) raw -> ~ In c_slash (b64encode raw) ->
  exists run pad, b64encode raw = run ++ pad /\ Forall classy run /\ padding pad.
Proof.
  induction raw as [|b0|b0 b1|b0 b1 b2 raw IH] using list_ind3; intros H Hs.
  - exists [], []. repeat split; [constructor | now left].
  - inversion H as [|? ? H0 _]; subst. cbn [b64encode] in *.
    eexists [_; _], [c_equal; c_equal]. split; [reflexivity|].
    split; [|right; now right].
    repeat constructor; apply b2a_classy; try lia; intro E; apply Hs; rewrite <- E; cbn; tauto.
  - inversion H as [|? ? H0 H']; subst. inversion H' as [|? ? H1 _]; subst.
    cbn [b64encode] in *. eexists [_; _; _], [c_equal]. split; [reflexivity|].
    split; [|right; now left].
    repeat constructor; apply b2a_classy; try lia; intro E; apply Hs; rewrite <- E; cbn; tauto.
  - inversion H as [|? ? H0 H']; subst. inversion H' as [|? ? H1 H'']; subst.
    inversion H'' as [|? ? H2 H3]; subst. cbn [b64encode] in *.
    destruct (IH H3) as (run & pad & E & Hr & Hp).
    { intro Hin. apply Hs. now do 4 right. }
    eexists (_ :: _ :: _ :: _ :: run), pad. rewrite E. split; [reflexivity|].
    split; [|assumption].
    repeat (constructor; [apply b2a_classy; [lia|]; intro Eq; apply Hs; rewrite <- Eq; cbn; tauto|]).
    assumption.
Qed.

Lemma run_pad_space pad w post :
  padding pad -> is_space w = true ->
  run [Rep (AIn false [(c_equal, c_equal)]) 0 (Some 2) true; Atom ASpace]
      (pad ++ w :: post) = Some ([], post).
Proof.
  intros Hp Hw. pose proof (space_not_pad _ Hw) as Hn.
  assert (E : accepts (AIn false [(c_equal, c_equal)]) c_equal = true) by reflexivity.
  destruct Hp as [-> | [-> | ->] ];
    unfold run; cbn [sre_match app rep hi_open hi_pred Nat.eqb pred negb andb length];
    rewrite ?E, ?Hn; cbn [andb]; rewrite ?Hn, ?andb_false_r; cbn [andb];
    change (accepts ASpace w) with (is_space w); rewrite Hw; reflexivity.
Qed.

(** The anchored pattern takes a base64 text that starts with the anchor,
    up to the whitespace after it. *)
Lemma run_anchored anchor run1 pad w post :
  Forall classy run1 -> run1 <> [] -> padding pad -> is_space w = true ->
  run (anchored anchor) (anchor ++ (run1 ++ pad) ++ w :: post) = Some ([], post).
Proof.
  intros Hr Hne Hp Hw. unfold anchored.
  induction anchor as [|c anchor IH].
  - unfold run. cbn [map app sre_match]. rewrite <- app_assoc.
    apply rep_greedy_run; try assumption.
    + intros c t E. destruct Hp as [-> | [-> | ->] ]; cbn [app] in E; injection E as <- _;
        solve [now apply space_not_classy | reflexivity].
    + now apply run_pad_space.
    + destruct run1; [contradiction | cbn [length]; lia].
  - unfold run in *. cbn [map app sre_match accepts]. now rewrite N.eqb_refl.
Qed.

Lemma anchored_run_space anchor s marks rest :
  run (anchored anchor) s = Some (marks, rest) ->
  exists w, In w s /\ is_space w = true.
Proof.
  intro H. destruct (run_sound _ _ H) as (m & -> & M & _).
  unfold anchored in M.
  change [Rep (AIn false base64_set) 1 None true;
          Rep (AIn false [(c_equal, c_equal)]) 0 (Some 2) true; Atom ASpace]
    with ([Rep (AIn false base64_set) 1 None true;
           Rep (AIn false [(c_equal, c_equal)]) 0 (Some 2) true] ++ [Atom ASpace]) in M.
  rewrite app_assoc in M. apply matches_app_inv in M as (m1 & m2 & -> & _ & M2).
  inversion M2 as [|? ? w m3 Hw _| | |]; subst.
  exists w. split; [|exact Hw]. rewrite !in_app_iff. left. right. now left.
Qed.

Lemma anchored_run_head c anchor x s :
  x <> c -> run (anchored (c :: anchor)) (x :: s) = None.
Proof.
  intro H. unfold run. cbn [anchored map app sre_match accepts]. apply N.eqb_neq in H.
  now rewrite H.
Qed.

Lemma findall_anchored_occurrence c anchor run1 pad w pre post :
  Forall classy run1 -> run1 <> [] -> padding pad -> is_space w = true ->
  ~ In c pre -> Forall (fun x => is_space x = false) post ->
  findall_from (anchored (c :: anchor))
               (pre ++ ((c :: anchor) ++ run1 ++ pad) ++ w :: post) 0
  = [((c :: anchor) ++ run1 ++ pad) ++ [w]].
Proof.
  intros Hr Hne Hp Hw Hpre Hpost.
  rewrite findall_from_lead.
  2:{ intros a [|x t] -> Hb; [contradiction|]. cbn [app]. apply anchored_run_head.
      intros ->. apply Hpre. apply in_app_iff. right. now left. }
  assert (R : run (anchored (c :: anchor))
                  ((c :: anchor) ++ (run1 ++ pad) ++ w :: post) = Some ([], post))
    by now apply run_anchored.
  replace (((c :: anchor) ++ run1 ++ pad) ++ w :: post)
    with (c :: (anchor ++ run1 ++ pad ++ [w]) ++ post)
    by (cbn [app]; rewrite <- !app_assoc; reflexivity).
  replace ((c :: anchor) ++ (run1 ++ pad) ++ w :: post)
    with (c :: (anchor ++ run1 ++ pad ++ [w]) ++ post) in R
    by (cbn [app]; rewrite <- !app_assoc; reflexivity).
  rewrite findall_from_hit by exact R.
  rewrite findall_from_none.
  - cbn [app]. now rewrite <- !app_assoc.
  - intros a s' ->.
    destruct (run (anchored (c :: anchor)) s') as [[marks rest]|] eqn:E; [|reflexivity].
    exfalso. destruct (anchored_run_space _ _ E) as (x & Hx & Sx).
    rewrite Forall_forall in Hpost. rewrite (Hpost x) in Sx; [discriminate|].
    apply in_app_iff. now right.
Qed.

(** ** The base64 round trip *)

Lemma extract_returns ps text decoded :
  base64_values (findall (base64_pattern ps) text) = Returns decoded ->
  extract ps text
  = Returns (map (app plaintext_label) (findall (plaintext_pattern ps) text)
             ++ map (app rot13_label) (map rot13 (findall (rot13_pattern ps) text))
             ++ decoded).
Proof.
  unfold extract. intro H.
  set (pl := findall (plaintext_pattern ps) text) in *.
  set (ro := findall (rot13_pattern ps) text) in *.
  set (b6 := findall (base64_pattern ps) text) in *.
  assert (E1 : match pl with [] => [] | _ => [] ++ map (app plaintext_label) pl end
               = map (app plaintext_label) pl) by now destruct pl.
  rewrite E1. clear E1.
  assert (E2 : forall acc, match ro with
                           | [] => acc
                           | _ => acc ++ map (fun x => rot13_label ++ rot13 x) ro
                           end = acc ++ map (app rot13_label) (map rot13 ro)).
  { intro acc. rewrite map_map. destruct ro; [now rewrite app_nil_r | reflexivity]. }
  rewrite E2. clear E2.
  destruct b6 as [|x xs].
  - cbn [base64_values] in H. injection H as <-. now rewrite !app_nil_r.
  - rewrite H. cbn [bind]. now rewrite app_assoc.
Qed.

Lemma b2a_ascii v : (b2a v < 128)%N.
Proof.
  unfold b2a, c_plus, c_slash.
  destruct (N.ltb_spec v 26); [lia|].
  destruct (N.ltb_spec v 52); [lia|].
  destruct (N.ltb_spec v 62); [lia|].
  destruct (v =? 62)%N; lia.
Qed.

Lemma b64encode_ascii raw : Forall (fun c => (c < 128)%N) (b64encode raw).
Proof.
  induction raw as [|b0|b0 b1|b0 b1 b2 raw IH] using list_ind3; cbn [b64encode];
    repeat (constructor; try apply b2a_ascii; try (unfold c_equal; lia)); assumption.
Qed.

Lemma base64_value_round_trip raw w :
  Forall (fun b => (b < 128)%N) raw -> is_space w = true ->
  base64_value (b64encode raw ++ [w]) = Returns raw.
Proof.
  intros H Hw. unfold base64_value.
  destruct (utf8_space_junk _ Hw) as (wb & Ew & Jw).
  rewrite utf8_encode_app, (utf8_encode_ascii (b64encode_ascii raw)).
  cbn [utf8_encode]. rewrite Ew, app_nil_r. cbn [or_raise bind].
  unfold b64decode. rewrite b64decode_b64encode; [| assumption |].
  - cbn [or_raise bind]. now rewrite utf8_decode_ascii.
  - revert H. apply Forall_impl. intros. lia.
Qed.

Lemma literal_ascii crib : literal crib -> Forall (fun c => (c < 128)%N) crib.
Proof. apply Forall_impl. now intros c [? _]. Qed.

(** The base64 text of [crib ++ more] starts with the anchor of the crib
    when the crib has three characters or more. *)
Lemma b64encode_anchored crib more :
  3 <= length crib ->
  exists c anchor v rest,
    firstn 3 (b64encode crib) = c :: anchor /\ length anchor = 2
    /\ b64encode (crib ++ more) = (c :: anchor) ++ b2a v :: b64encode rest
    /\ (v < 64)%N
    /\ exists used, crib ++ more = used ++ rest.
Proof.
  intro H. destruct crib as [|b0 [|b1 [|b2 crib]]]; try (cbn [length] in H; lia).
  cbn [app b64encode firstn].
  eexists _, [_; _], (b2 mod 64)%N, (crib ++ more). repeat split; [lia|].
  now exists [b0; b1; b2].
Qed.

(** ** The UTF-8 codec and the decoder that ignores errors *)

Lemma push_some c r s :
  push c r = Some s -> exists s', r = Some s' /\ s = c :: s'.
Proof. destruct r as [s'|]; [|discriminate]. intros [= <-]. now exists s'. Qed.

Lemma ltb_true a b : (a < b)%N -> (a <? b)%N = true.
Proof. apply N.ltb_lt. Qed.

Lemma ltb_false a b : (b <= a)%N -> (a <? b)%N = false.
Proof. apply N.ltb_ge. Qed.

Lemma between_true lo hi c : (lo <= c <= hi)%N -> between lo hi c = true.
Proof. apply between_spec. Qed.

Lemma between_false lo hi c : (c < lo \/ hi < c)%N -> between lo hi c = false.
Proof.
  intro H. apply not_true_is_false. rewrite between_spec. lia.
Qed.

Lemma utf8_decode_ignore_app a s b :
  utf8_decode a = Some s ->
  utf8_decode_ignore (a ++ b) = s ++ utf8_decode_ignore b.
Proof.
  assert (G : forall n a, length a <= n -> forall s, utf8_decode a = Some s ->
                utf8_decode_ignore (a ++ b) = s ++ utf8_decode_ignore b).
  { clear a s. induction n as [|n IH]; intros a Hn s H.
    { destruct a; [|cbn [length] in Hn; lia]. now injection H as <-. }
    destruct a as [|b0 r0]; [now injection H as <-|].
    cbn [length] in Hn. cbn [app utf8_decode utf8_decode_ignore] in *.
    destruct (b0 <? 128)%N eqn:L0.
    { apply push_some in H as (s' & H & ->). now rewrite (IH r0 ltac:(lia) s' H). }
    apply N.ltb_ge in L0.
    destruct (between 194 223 b0) eqn:B1.
    { apply between_spec in B1.
      rewrite (@ltb_false b0 194), (@ltb_true b0 224) by lia.
      destruct r0 as [|b1 r1]; [discriminate|]. cbn [app length] in *.
      destruct (continuation b1); [|discriminate].
      apply push_some in H as (s' & H & ->). now rewrite (IH r1 ltac:(lia) s' H). }
    destruct (between 224 239 b0) eqn:B2.
    { apply between_spec in B2.
      rewrite (@ltb_false b0 194), (@ltb_false b0 224), (@ltb_true b0 240) by lia.
      destruct r0 as [|b1 [|b2 r2]]; try discriminate. cbn [app length] in *.
      destruct (between _ _ b1); [|discriminate]. cbn [andb] in H.
      destruct (continuation b2); [|discriminate].
      apply push_some in H as (s' & H & ->). now rewrite (IH r2 ltac:(lia) s' H). }
    destruct (between 240 244 b0) eqn:B3; [|discriminate].
    apply between_spec in B3.
    rewrite (@ltb_false b0 194), (@ltb_false b0 224), (@ltb_false b0 240),
      (@ltb_true b0 245) by lia.
    destruct r0 as [|b1 [|b2 [|b3 r3]]]; try discriminate. cbn [app length] in *.
    destruct (between _ _ b1); [|discriminate]. cbn [andb] in H.
    destruct (continuation b2); [|discriminate]. cbn [andb] in H.
    destruct (continuation b3); [|discriminate].
    apply push_some in H as (s' & H & ->). now rewrite (IH r3 ltac:(lia) s' H). }
  exact (G (length a) a (le_n _) s).
Qed.

Lemma utf8_decode_1 b0 r :
  (b0 < 128)%N -> utf8_decode (b0 :: r) = push b0 (utf8_decode r).
Proof. intro H. cbn [utf8_decode]. now rewrite (ltb_true H). Qed.

Lemma utf8_decode_2 b0 b1 r :
  (194 <= b0 <= 223)%N -> (128 <= b1 <= 191)%N ->
  utf8_decode (b0 :: b1 :: r)
  = push ((b0 - 192) * 64 + (b1 - 128))%N (utf8_decode r).
Proof.
  intros H0 H1. cbn [utf8_decode]. unfold continuation.
  rewrite (@ltb_false b0 128), (@between_true 194 223 b0), (@between_true 128 191 b1) by lia.
  reflexivity.
Qed.

Lemma second_of_three b0 b1 :
  (128 <= b1 <= 191)%N -> (b0 = 224 -> 160 <= b1)%N -> (b0 = 237 -> b1 <= 159)%N ->
  between (if (b0 =? 224)%N then 160 else 128)
          (if (b0 =? 237)%N then 159 else 191) b1 = true.
Proof.
  intros H1 Ha Hb. apply between_true.
  destruct (N.eqb_spec b0 224), (N.eqb_spec b0 237); lia.
Qed.

Lemma second_of_four b0 b1 :
  (128 <= b1 <= 191)%N -> (b0 = 240 -> 144 <= b1)%N -> (b0 = 244 -> b1 <= 143)%N ->
  between (if (b0 =? 240)%N then 144 else 128)
          (if (b0 =? 244)%N then 143 else 191) b1 = true.
Proof.
  intros H1 Ha Hb. apply between_true.
  destruct (N.eqb_spec b0 240), (N.eqb_spec b0 244); lia.
Qed.

Lemma utf8_decode_3 b0 b1 b2 r :
  (224 <= b0 <= 239)%N ->
  (128 <= b1 <= 191)%N -> (b0 = 224 -> 160 <= b1)%N -> (b0 = 237 -> b1 <= 159)%N ->
  (128 <= b2 <= 191)%N ->
  utf8_decode (b0 :: b1 :: b2 :: r)
  = push ((b0 - 224) * 4096 + (b1 - 128) * 64 + (b2 - 128))%N (utf8_decode r).
Proof.
  intros H0 H1 Ha Hb H2. cbn [utf8_decode]. unfold continuation.
  rewrite (@ltb_false b0 128), (@between_false 194 223 b0), (@between_true 224 239 b0),
    (@between_true 128 191 b2), second_of_three by (assumption || lia).
  reflexivity.
Qed.

Lemma utf8_decode_4 b0 b1 b2 b3 r :
  (240 <= b0 <= 244)%N ->
  (128 <= b1 <= 191)%N -> (b0 = 240 -> 144 <= b1)%N -> (b0 = 244 -> b1 <= 143)%N ->
  (128 <= b2 <= 191)%N -> (128 <= b3 <= 191)%N ->
  utf8_decode (b0 :: b1 :: b2 :: b3 :: r)
  = push ((b0 - 240) * 262144 + (b1 - 128) * 4096 + (b2 - 128) * 64 + (b3 - 128))%N
         (utf8_decode r).
Proof.
  intros H0 H1 Ha Hb H2 H3. cbn [utf8_decode]. unfold continuation.
  rewrite (@ltb_false b0 128), (@between_false 194 223 b0), (@between_false 224 239 b0),
    (@between_true 240 244 b0), (@between_true 128 191 b2), (@between_true 128 191 b3),
    second_of_four by (assumption || lia).
  reflexivity.
Qed.

Lemma surrogate_false c :
  between 55296 57343 c = false -> (c < 55296 \/ 57343 < c)%N.
Proof.
  intro S. destruct (N.lt_ge_cases c 55296); [now left|].
  destruct (N.lt_ge_cases 57343 c); [now right|].
  rewrite between_true in S by lia. discriminate.
Qed.

Lemma utf8_char_decode c bs r :
  utf8_char c = Some bs -> utf8_decode (bs ++ r) = push c (utf8_decode r).
Proof.
  unfold utf8_char.
  destruct (N.ltb_spec c 128) as [H1|H1].
  { intro E. replace bs with [c] by congruence. apply (utf8_decode_1 r H1). }
  destruct (N.ltb_spec c 2048) as [H2|H2].
  { intro E. replace bs with [192 + c / 64; 128 + c mod 64]%N by congruence.
    change ([192 + c / 64; 128 + c mod 64]%N ++ r)
      with ((192 + c / 64)%N :: (128 + c mod 64)%N :: r).
    rewrite utf8_decode_2 by lia. f_equal. lia. }
  destruct (N.ltb_spec c 65536) as [H3|H3].
  { destruct (between 55296 57343 c) eqn:S; [discriminate|].
    apply surrogate_false in S. intro E.
    replace bs with [224 + c / 4096; 128 + (c / 64) mod 64; 128 + c mod 64]%N
      by congruence.
    change ([224 + c / 4096; 128 + (c / 64) mod 64; 128 + c mod 64]%N ++ r)
      with ((224 + c / 4096)%N :: (128 + (c / 64) mod 64)%N :: (128 + c mod 64)%N :: r).
    rewrite utf8_decode_3 by lia. f_equal. lia. }
  destruct (N.ltb_spec c 1114112) as [H4|H4]; [|discriminate].
  intro E.
  replace bs with [240 + c / 262144; 128 + (c / 4096) mod 64; 128 + (c / 64) mod 64;
                   128 + c mod 64]%N by congruence.
  change ([240 + c / 262144; 128 + (c / 4096) mod 64; 128 + (c / 64) mod 64;
           128 + c mod 64]%N ++ r)
    with ((240 + c / 262144)%N :: (128 + (c / 4096) mod 64)%N
          :: (128 + (c / 64) mod 64)%N :: (128 + c mod 64)%N :: r).
  rewrite utf8_decode_4 by lia. f_equal. lia.
Qed.

Lemma utf8_decode_encode s : forall bs,
  utf8_encode s = Some bs -> utf8_decode bs = Some s.
Proof.
  induction s as [|c s IH]; intros bs H; cbn [utf8_encode] in H.
  - now injection H as <-.
  - destruct (utf8_char c) as [b|] eqn:C; [|discriminate].
    destruct (utf8_encode s) as [bs'|]; [|discriminate].
    injection H as <-. rewrite (@utf8_char_decode c b bs' C), (IH bs' eq_refl). reflexivity.
Qed.

Lemma utf8_char_1 b0 : (b0 < 128)%N -> utf8_char b0 = Some [b0].
Proof. intro H. unfold utf8_char. now rewrite (ltb_true H). Qed.

Lemma utf8_char_2 b0 b1 :
  (194 <= b0 <= 223)%N -> (128 <= b1 <= 191)%N ->
  utf8_char ((b0 - 192) * 64 + (b1 - 128))%N = Some [b0; b1].
Proof.
  intros H0 H1. unfold utf8_char.
  rewrite (@ltb_false _ 128), (@ltb_true _ 2048) by lia.
  do 2 f_equal; [lia|]. f_equal. lia.
Qed.

Lemma utf8_char_3 b0 b1 b2 :
  (224 <= b0 <= 239)%N ->
  (128 <= b1 <= 191)%N -> (b0 = 224 -> 160 <= b1)%N -> (b0 = 237 -> b1 <= 159)%N ->
  (128 <= b2 <= 191)%N ->
  utf8_char ((b0 - 224) * 4096 + (b1 - 128) * 64 + (b2 - 128))%N = Some [b0; b1; b2].
Proof.
  intros H0 H1 Ha Hb H2. unfold utf8_char.
  rewrite (@ltb_false _ 128), (@ltb_false _ 2048), (@ltb_true _ 65536) by lia.
  rewrite between_false by lia.
  do 2 f_equal; [lia|]. f_equal; [lia|]. f_equal. lia.
Qed.

Lemma utf8_char_4 b0 b1 b2 b3 :
  (240 <= b0 <= 244)%N ->
  (128 <= b1 <= 191)%N -> (b0 = 240 -> 144 <= b1)%N -> (b0 = 244 -> b1 <= 143)%N ->
  (128 <= b2 <= 191)%N -> (128 <= b3 <= 191)%N ->
  utf8_char ((b0 - 240) * 262144 + (b1 - 128) * 4096 + (b2 - 128) * 64 + (b3 - 128))%N
  = Some [b0; b1; b2; b3].
Proof.
  intros H0 H1 Ha Hb H2 H3. unfold utf8_char.
  rewrite (@ltb_false _ 128), (@ltb_false _ 2048), (@ltb_false _ 65536),
    (@ltb_true _ 1114112) by lia.
  do 2 f_equal; [lia|]. f_equal; [lia|]. f_equal; [lia|]. f_equal. lia.
Qed.

Lemma second_of_three_inv b0 b1 :
  between (if (b0 =? 224)%N then 160 else 128)
          (if (b0 =? 237)%N then 159 else 191) b1 = true ->
  (128 <= b1 <= 191)%N /\ (b0 = 224 -> 160 <= b1)%N /\ (b0 = 237 -> b1 <= 159)%N.
Proof.
  intro H. apply between_spec in H.
  destruct (N.eqb_spec b0 224), (N.eqb_spec b0 237); lia.
Qed.

Lemma second_of_four_inv b0 b1 :
  between (if (b0 =? 240)%N then 144 else 128)
          (if (b0 =? 244)%N then 143 else 191) b1 = true ->
  (128 <= b1 <= 191)%N /\ (b0 = 240 -> 144 <= b1)%N /\ (b0 = 244 -> b1 <= 143)%N.
Proof.
  intro H. apply between_spec in H.
  destruct (N.eqb_spec b0 240), (N.eqb_spec b0 244); lia.
Qed.

Lemma utf8_encode_cons c s b kept :
  utf8_char c = Some b -> utf8_encode s = Some kept ->
  utf8_encode (c :: s) = Some (b ++ kept).
Proof. intros H1 H2. cbn [utf8_encode]. now rewrite H1, H2. Qed.

Lemma utf8_decode_ignore_kept_len n : forall bs, length bs <= n ->
  exists kept, utf8_encode (utf8_decode_ignore bs) = Some kept /\ subseq kept bs.
Proof.
  induction n as [|n IH]; intros bs Hn.
  { destruct bs; [|cbn [length] in Hn; lia]. exists []. split; [reflexivity | constructor]. }
  destruct bs as [|b0 r0]; [exists []; split; [reflexivity | constructor]|].
  cbn [length] in Hn.
  assert (Drop : exists kept, utf8_encode (utf8_decode_ignore r0) = Some kept
                              /\ subseq kept (b0 :: r0)).
  { destruct (IH r0 ltac:(lia)) as (kept & E & Sq). exists kept.
    split; [assumption | now constructor]. }
  assert (Nil : forall l, exists kept, utf8_encode [] = Some kept /\ subseq kept l).
  { intro l. exists []. split; [reflexivity | constructor]. }
  cbn [utf8_decode_ignore].
  destruct (N.ltb_spec b0 128) as [L0|L0].
  { destruct (IH r0 ltac:(lia)) as (kept & E & Sq). exists (b0 :: kept).
    split; [|now constructor].
    exact (@utf8_encode_cons _ _ _ _ (utf8_char_1 L0) E). }
  destruct (N.ltb_spec b0 194) as [L1|L1]; [exact Drop|].
  destruct (N.ltb_spec b0 224) as [L2|L2].
  { destruct r0 as [|b1 r1]; [apply Nil|]. cbn [length] in Hn.
    destruct (continuation b1) eqn:C1; [|exact Drop].
    apply between_spec in C1.
    destruct (IH r1 ltac:(lia)) as (kept & E & Sq). exists (b0 :: b1 :: kept).
    split; [|repeat apply subseq_keep; exact Sq].
    exact (@utf8_encode_cons _ _ _ _ (@utf8_char_2 b0 b1 ltac:(lia) C1) E). }
  destruct (N.ltb_spec b0 240) as [L3|L3].
  { destruct r0 as [|b1 r1]; [apply Nil|]. cbn [length] in Hn.
    destruct (between _ _ b1) eqn:C1; [|exact Drop].
    apply second_of_three_inv in C1 as (C1 & Ca & Cb).
    destruct r1 as [|b2 r2]; [apply Nil|]. cbn [length] in Hn.
    destruct (continuation b2) eqn:C2.
    - apply between_spec in C2.
      destruct (IH r2 ltac:(lia)) as (kept & E & Sq). exists (b0 :: b1 :: b2 :: kept).
      split; [|repeat apply subseq_keep; exact Sq].
      exact (@utf8_encode_cons _ _ _ _ (@utf8_char_3 b0 b1 b2 ltac:(lia) C1 Ca Cb C2) E).
    - destruct (IH (b2 :: r2) ltac:(cbn [length]; lia)) as (kept & E & Sq).
      exists kept. split; [assumption | do 2 apply subseq_drop; exact Sq]. }
  destruct (N.ltb_spec b0 245) as [L4|L4]; [|exact Drop].
  destruct r0 as [|b1 r1]; [apply Nil|]. cbn [length] in Hn.
  destruct (between _ _ b1) eqn:C1; [|exact Drop].
  apply second_of_four_inv in C1 as (C1 & Ca & Cb).
  destruct r1 as [|b2 r2]; [apply Nil|]. cbn [length] in Hn.
  destruct (continuation b2) eqn:C2.
  - apply between_spec in C2.
    destruct r2 as [|b3 r3]; [apply Nil|]. cbn [length] in Hn.
    destruct (continuation b3) eqn:C3.
    + apply between_spec in C3.
      destruct (IH r3 ltac:(lia)) as (kept & E & Sq).
      exists (b0 :: b1 :: b2 :: b3 :: kept).
      split; [|repeat apply subseq_keep; exact Sq].
      exact (@utf8_encode_cons _ _ _ _ (@utf8_char_4 b0 b1 b2 b3 ltac:(lia) C1 Ca Cb C2 C3) E).
    + destruct (IH (b3 :: r3) ltac:(cbn [length]; lia)) as (kept & E & Sq).
      exists kept. split; [assumption | do 3 apply subseq_drop; exact Sq].
  - destruct (IH (b2 :: r2) ltac:(cbn [length]; lia)) as (kept & E & Sq).
    exists kept. split; [assumption | do 2 apply subseq_drop; exact Sq].
Qed.


(** ** Printing the candidates *)

Lemma utf8_encode_forall s :
  Forall (fun c => utf8_char c <> None) s -> utf8_encode s <> None.
Proof.
  induction 1 as [|c s Hc _ IH]; cbn [utf8_encode]; [discriminate|].
  destruct (utf8_char c); [|contradiction].
  destruct (utf8_encode s); [discriminate | contradiction].
Qed.

Lemma utf8_encode_chars s :
  utf8_encode s <> None -> Forall (fun c => utf8_char c <> None) s.
Proof.
  induction s as [|c s IH]; cbn [utf8_encode]; intro H; constructor.
  - destruct (utf8_char c); [discriminate | contradiction].
  - apply IH. destruct (utf8_char c); [|contradiction].
    destruct (utf8_encode s); [discriminate | contradiction].
Qed.

Lemma utf8_encodable_app s t :
  utf8_encode s <> None -> utf8_encode t <> None -> utf8_encode (s ++ t) <> None.
Proof.
  intros Hs Ht. apply utf8_encode_forall, Forall_app.
  split; now apply utf8_encode_chars.
Qed.

Lemma utf8_encode_incl s t :
  incl s t -> utf8_encode t <> None -> utf8_encode s <> None.
Proof.
  intros I Ht. apply utf8_encode_forall, Forall_forall. intros c Hc.
  apply utf8_encode_chars in Ht. rewrite Forall_forall in Ht. apply Ht, I, Hc.
Qed.

Lemma ascii_encodable c : (c < 128)%N -> utf8_char c <> None.
Proof. intro H. now rewrite utf8_char_1. Qed.

Lemma space_encodable c : is_space c = true -> utf8_char c <> None.
Proof. intro H. apply utf8_space_junk in H as (wb & -> & _). discriminate. Qed.

Lemma rot13_encodable s : utf8_encode s <> None -> utf8_encode (rot13 s) <> None.
Proof.
  intro H. apply utf8_encode_chars in H. apply utf8_encode_forall.
  unfold rot13. apply Forall_map. eapply Forall_impl; [|exact H].
  intros c Hc. unfold rot13_char, is_upper, is_lower.
  destruct (between 65 90 c) eqn:U.
  { apply between_spec in U. apply ascii_encodable. lia. }
  destruct (between 97 122 c) eqn:L; [|assumption].
  apply between_spec in L. apply ascii_encodable. lia.
Qed.

(** What strict decoding gives can be encoded again. *)
Lemma utf8_decode_encodable raw s : utf8_decode raw = Some s -> utf8_encode s <> None.
Proof.
  intro H. pose proof (@utf8_decode_ignore_app raw s [] H) as E.
  rewrite app_nil_r in E. cbn [utf8_decode_ignore] in E. rewrite app_nil_r in E.
  destruct (@utf8_decode_ignore_kept_len (length raw) raw (le_n _)) as (kept & K & _).
  rewrite E in K. now rewrite K.
Qed.


Lemma base64_value_encodable x v : base64_value x = Returns v -> utf8_encode v <> None.
Proof.
  unfold base64_value. destruct (utf8_encode x) as [data|]; [|discriminate].
  cbn [or_raise bind]. destruct (b64decode data) as [raw|]; [|discriminate].
  cbn [or_raise bind]. destruct (utf8_decode raw) as [s|] eqn:D; [|discriminate].
  cbn [or_raise]. intros [= <-]. exact (utf8_decode_encodable _ D).
Qed.

(** A value of [findall] is made of characters of the text. *)
Lemma findall_incl p text v : In v (findall p text) -> incl v text.
Proof.
  intro H. apply findall_in in H as (a & s' & ma & st & marks & rest & -> & R & ->).
  apply sre_match_sound in R as (m & -> & _ & I & _).
  intros c Hc. apply (@reported_inside (m ++ rest) marks rest m eq_refl I) in Hc.
  apply in_app_iff. right. apply in_app_iff. now left.
Qed.

Lemma label_encodable k : utf8_encode (label k) <> None.
Proof. destruct k; vm_compute; discriminate. Qed.

(** Every candidate found in a text that UTF-8 can encode can be encoded:
    a plaintext candidate is made of characters of the text, ROT13 maps
    letters to letters, and a base64 candidate comes out of the strict
    UTF-8 decoder. *)
Lemma extract_encodable ps text flags :
  utf8_encode text <> None -> extract ps text = Returns flags ->
  Forall (fun flag => utf8_encode flag <> None) flags.
Proof.
  intros Ht H. destruct (extract_inv _ _ H) as (decoded & F & ->).
  apply Forall_app. split; [|apply Forall_app; split].
  - apply Forall_map, Forall_forall. intros v Hv.
    apply utf8_encodable_app; [exact (label_encodable Plaintext)|].
    exact (utf8_encode_incl (findall_incl _ _ _ Hv) Ht).
  - apply Forall_map, Forall_map, Forall_forall. intros v Hv.
    apply utf8_encodable_app; [exact (label_encodable Rot13)|].
    apply rot13_encodable. exact (utf8_encode_incl (findall_incl _ _ _ Hv) Ht).
  - apply Forall_map. clear H. induction F as [|x v xs vs Hx _ IH]; constructor.
    + apply utf8_encodable_app; [exact (label_encodable Base64)|].
      exact (base64_value_encodable _ Hx).
    + exact IH.
Qed.

Lemma possible_flags_encodable crib text flags :
  utf8_encode text <> None -> possible_flags crib text = Returns flags ->
  Forall (fun flag => utf8_encode flag <> None) flags.
Proof.
  unfold possible_flags. intros Ht H.
  destruct (build_patterns (strip c_lbrace crib)) as [ps|e]; [|discriminate].
  exact (@extract_encodable ps text flags Ht H).
Qed.

(** The loop of lines 104-106. *)
Lemma print_flags_all (encode : encoder) flags : forall out,
  Forall (fun flag => encode flag <> None) flags ->
  print_flags encode flags out = (Returns tt, out ++ flags).
Proof.
  induction flags as [|flag flags IH]; intros out F; cbn [print_flags].
  - now rewrite app_nil_r.
  - inversion F as [|? ? Hf F']; subst. unfold print.
    destruct (encode flag); [|contradiction].
    rewrite (IH _ F'), <- app_assoc. reflexivity.
Qed.

Lemma print_flags_stops (encode : encoder) printed flag rest : forall out,
  Forall (fun x => encode x <> None) printed -> encode flag = None ->
  print_flags encode (printed ++ flag :: rest) out
  = (Raises UnicodeEncodeError, out ++ printed).
Proof.
  induction printed as [|x printed IH]; intros out F E; cbn [app print_flags].
  - unfold print. rewrite E. now rewrite app_nil_r.
  - inversion F as [|? ? Hx F']; subst. unfold print.
    destruct (encode x); [|contradiction].
    rewrite (IH _ F' E), <- app_assoc. reflexivity.
Qed.

Lemma print_flags_cases (encode : encoder) flags :
  Forall (fun flag => encode flag <> None) flags
  \/ exists printed flag rest,
       flags = printed ++ flag :: rest
       /\ Forall (fun x => encode x <> None) printed /\ encode flag = None.
Proof.
  induction flags as [|x flags IH]; [left; constructor|].
  destruct (encode x) as [b|] eqn:E.
  - destruct IH as [F|(printed & flag & rest & -> & F & N)].
    + left. constructor; [congruence | assumption].
    + right. exists (x :: printed), flag, rest. repeat split; [|assumption].
      constructor; [congruence | assumption].
  - right. exists [], x, flags. repeat split; [constructor | assumption].
Qed.

(** A call that returns a list returns the list that the search built,
    and an exception that is not of [print] is the exception of the
    search. *)
Lemma parse_for_flag_on_returns (encode : encoder) crib text out flags :
  fst (parse_for_flag_on encode crib text out) = Returns flags ->
  possible_flags crib text = Returns flags.
Proof.
  unfold parse_for_flag_on. destruct (possible_flags crib text) as [l|e]; [|discriminate].
  destruct (print_flags encode l out) as [[u|e] out']; cbn [fst]; congruence.
Qed.

Lemma parse_for_flag_returns crib text out flags :
  fst (parse_for_flag crib text out) = Returns flags ->
  possible_flags crib text = Returns flags.
Proof. apply parse_for_flag_on_returns. Qed.

Lemma parse_for_flag_search_raises crib text e out :
  possible_flags crib text = Raises e -> parse_for_flag crib text out = (Raises e, out).
Proof. intro H. unfold parse_for_flag, parse_for_flag_on. now rewrite H. Qed.

(** On a text that UTF-8 can encode the printing never fails. *)
Lemma parse_for_flag_prints crib text out flags :
  utf8_encode text <> None -> possible_flags crib text = Returns flags ->
  parse_for_flag crib text out = (Returns flags, out ++ flags).
Proof.
  intros Ht H. unfold parse_for_flag, parse_for_flag_on. rewrite H.
  now rewrite (@print_flags_all utf8_encode flags out (@possible_flags_encodable crib text flags Ht H)).
Qed.

Lemma parse_for_flag_raises_cases crib text out e :
  fst (parse_for_flag crib text out) = Raises e ->
  possible_flags crib text = Raises e
  \/ (e = UnicodeEncodeError /\ utf8_encode text = None).
Proof.
  destruct (possible_flags crib text) as [flags|e'] eqn:P.
  - destruct (utf8_encode text) as [b|] eqn:T.
    + rewrite (@parse_for_flag_prints crib text out flags) by congruence. discriminate.
    + unfold parse_for_flag, parse_for_flag_on. rewrite P.
      destruct (print_flags_cases utf8_encode flags) as [F|(printed & flag & rest & -> & F & N)].
      * rewrite (@print_flags_all utf8_encode flags out F). discriminate.
      * rewrite (@print_flags_stops utf8_encode printed flag rest out F N). cbn [fst].
        intros [= <-]. right. now split.
  - rewrite (@parse_for_flag_search_raises crib text e' out P). cbn [fst]. intros [= <-]. now left.
Qed.

(** ** The claims *)

Lemma possible_flags_literal crib text :
  literal crib ->
  possible_flags crib text
  = extract (mk_patterns (fuzzy crib) (fuzzy (rot13 crib))
                         (anchored (firstn 3 (b64encode crib)))) text.
Proof.
  intro H. unfold possible_flags.
  now rewrite strip_literal, build_patterns_literal by assumption.
Qed.

Lemma plaintext_flags_literal crib text :
  literal crib -> plaintext_flags crib text = Returns (findall (fuzzy crib) text).
Proof.
  intro H. unfold plaintext_flags.
  now rewrite strip_literal, build_patterns_literal by assumption.
Qed.

Lemma rot13_flags_literal crib text :
  literal crib -> rot13_flags crib text = Returns (findall (fuzzy (rot13 crib)) text).
Proof.
  intro H. unfold rot13_flags.
  now rewrite strip_literal, build_patterns_literal by assumption.
Qed.

(** C1, as stated, fails, with the crib "FLAG" in four ways. A body with
    a line break gives no plaintext candidate, since the body of the pattern
    does not pass a line break. A body with a closing brace is cut at that
    brace. An "F" two characters before the flag starts the match early, and
    "{x}" right after the empty body "{}" is swallowed by the gap before the
    brace; in both the candidate is a longer text than the flag. *)
Lemma plaintext_round_trip_fails :
  let crib := py "FLAG" in
  let misses body text :=
    (exists pre post, text = pre ++ crib ++ py "{" ++ body ++ py "}" ++ post)
    /\ exists flags,
         fst (parse_for_flag crib text []) = Returns flags
         /\ ~ In (crib ++ py "{" ++ body ++ py "}") (candidates Plaintext flags) in
  misses (py "a" ++ [c_newline] ++ py "b")
         (py "junk FLAG{a" ++ [c_newline] ++ py "b} more junk")
  /\ misses (py "a}b") (py "junk FLAG{a}b} more junk")
  /\ misses (py "x") (py "F FLAG{x}")
  /\ misses [] (py "FLAG{}{x}").
Proof.
  cbv zeta. repeat split.
  - now exists (py "junk "), (py " more junk").
  - exists []. split; [vm_compute; reflexivity | intros []].
  - now exists (py "junk "), (py " more junk").
  - exists [py "plaintext flag: FLAG{a}"].
    split; [vm_compute; reflexivity | vm_compute; intuition discriminate].
  - now exists (py "F "), [].
  - exists [py "plaintext flag: F FLAG{x}"].
    split; [vm_compute; reflexivity | vm_compute; intuition discriminate].
  - now exists [], (py "{x}").
  - exists [py "plaintext flag: FLAG{}{x}"].
    split; [vm_compute; reflexivity | vm_compute; intuition discriminate].
Qed.

(** C1, amended: for a non-empty crib of ASCII characters that are literal
    in a regular expression and hold no closing brace, and a body without
    closing brace and line break, a text [pre ++ crib{body} ++ post] whose
    [pre] lacks the first crib character and whose [post] lacks a closing
    brace has exactly the plaintext candidate [crib{body}]; so has every
    list the call returns. The scenario of the spec is an instance: crib
    "FLAG", text "junk FLAG{he11o_world} more junk". *)
Theorem plaintext_round_trip (c : char) (crib pre body post : str) :
  literal (c :: crib) ->
  ~ In c_rbrace (c :: crib) -> ~ In c_rbrace body -> ~ In c_newline body ->
  ~ In c pre -> ~ In c_rbrace post ->
  let flag := (c :: crib) ++ c_lbrace :: body ++ [c_rbrace] in
  let text := pre ++ flag ++ post in
  plaintext_flags (c :: crib) text = Returns [flag]
  /\ (forall out flags,
        fst (parse_for_flag (c :: crib) text out) = Returns flags ->
        candidates Plaintext flags = [flag])
  /\ fst (parse_for_flag (py "FLAG") (py "junk FLAG{he11o_world} more junk") [])
     = Returns [py "plaintext flag: FLAG{he11o_world}"].
Proof.
  intros Hlit Hcrib Hbody Hnl Hpre Hpost flag text.
  assert (F : findall (fuzzy (c :: crib)) text = [flag]).
  { unfold text, flag. rewrite <- !app_assoc. cbn [app].
    rewrite <- !app_assoc. cbn [app].
    apply (findall_fuzzy_occurrence (c := c) (crib := crib)); assumption. }
  split; [|split].
  - now rewrite plaintext_flags_literal, F.
  - intros out flags H. apply parse_for_flag_returns in H.
    rewrite possible_flags_literal in H by assumption.
    apply extract_candidates in H as (H & _). cbn [plaintext_pattern] in H.
    now rewrite H, F.
  - vm_compute. reflexivity.
Qed.

Lemma plaintext_round_trip_witness :
  plaintext_flags (py "FLAG") (py "junk FLAG{he11o_world} more junk")
  = Returns [py "FLAG{he11o_world}"].
Proof.
  apply (@plaintext_round_trip 70%N (py "LAG") (py "junk ") (py "he11o_world")
           (py " more junk")).
  - repeat constructor.
  - cbn. intuition discriminate.
  - cbn. intuition discriminate.
  - cbn. intuition discriminate.
  - cbn. intuition discriminate.
  - cbn. intuition discriminate.
Defined.

(** One match of the base64 pattern that fails to decode makes the whole
    call raise: the list comprehension has no handler. *)
Lemma decode_failure_raises crib text ps x e :
  build_patterns (strip c_lbrace crib) = Returns ps ->
  In x (findall (base64_pattern ps) text) -> base64_value x = Raises e ->
  exists e', forall out, parse_for_flag crib text out = (Raises e', out).
Proof.
  intros B Hx He.
  assert (V : exists e', base64_values (findall (base64_pattern ps) text) = Raises e').
  { induction (findall (base64_pattern ps) text) as [|y ys IH]; [contradiction|].
    cbn [base64_values]. destruct Hx as [->|Hx].
    - rewrite He. now exists e.
    - destruct (base64_value y); [|eexists; reflexivity]. cbn [bind].
      destruct (IH Hx) as [e' ->]. now exists e'. }
  destruct V as [e' V]. exists e'. intro out.
  unfold parse_for_flag, parse_for_flag_on, possible_flags. rewrite B. cbn [bind].
  unfold extract.
  destruct (findall (base64_pattern ps) text) as [|y ys]; [contradiction|].
  rewrite V. reflexivity.
Qed.

(** C4 describes a per-candidate recovery that the code does not have: at
    crib "FLAG" and text "RkxBR3t0ZXN0fQ== Rkxab " the base64 pattern finds
    two matches; the first decodes to "FLAG{test}", the second has five data
    characters and [b64decode] raises, inside the list comprehension, so the
    call raises and neither returns nor prints anything. *)
Theorem decode_failure_aborts :
  let text := py "RkxBR3t0ZXN0fQ== Rkxab " in
  base64_flags (py "FLAG") text = Returns [py "RkxBR3t0ZXN0fQ== "; py "Rkxab "]
  /\ base64_value (py "RkxBR3t0ZXN0fQ== ") = Returns (py "FLAG{test}")
  /\ base64_value (py "Rkxab ") = Raises binascii_Error
  /\ forall out, parse_for_flag (py "FLAG") text out = (Raises binascii_Error, out).
Proof.
  cbv zeta. repeat split; vm_compute; reflexivity.
Qed.

(** C5, as stated, fails, with the crib "FLAG": the ROT13 form of a flag
    whose body holds a line break gives no rot13 candidate, and the ROT13
    form of a flag whose body holds a closing brace is cut at that brace. *)
Lemma rot13_round_trip_fails :
  let crib := py "FLAG" in
  let misses body text :=
    (exists pre post,
        text = pre ++ rot13 (crib ++ py "{" ++ body ++ py "}") ++ post)
    /\ exists flags,
         fst (parse_for_flag crib text []) = Returns flags
         /\ ~ In (crib ++ py "{" ++ body ++ py "}") (candidates Rot13 flags) in
  misses (py "a" ++ [c_newline] ++ py "b")
         (py "junk SYNT{n" ++ [c_newline] ++ py "o} more junk")
  /\ misses (py "a}b") (py "junk SYNT{n}o} more junk").
Proof.
  cbv zeta. repeat split.
  - now exists (py "junk "), (py " more junk").
  - exists []. split; [vm_compute; reflexivity | intros []].
  - now exists (py "junk "), (py " more junk").
  - exists [py "rot13 flag: FLAG{a}"].
    split; [vm_compute; reflexivity | vm_compute; intuition discriminate].
Qed.

(** C5, amended: for a non-empty crib of ASCII characters that are literal
    in a regular expression and hold no closing brace, and a body without
    closing brace and line break, a text [pre ++ ROT13(crib{body}) ++ post]
    whose [pre] lacks the ROT13 image of the first crib character and whose
    [post] lacks a closing brace has exactly one rot13 match, and the rot13
    candidates of every returned list are exactly [crib{body}]. The scenario
    of the spec is an instance: crib "FLAG", text "SYNT{grfg}". *)
Theorem rot13_round_trip (c : char) (crib pre body post : str) :
  literal (c :: crib) ->
  ~ In c_rbrace (c :: crib) -> ~ In c_rbrace body -> ~ In c_newline body ->
  ~ In (rot13_char c) pre -> ~ In c_rbrace post ->
  let flag := (c :: crib) ++ c_lbrace :: body ++ [c_rbrace] in
  let text := pre ++ rot13 flag ++ post in
  rot13_flags (c :: crib) text = Returns [rot13 flag]
  /\ (forall out flags,
        fst (parse_for_flag (c :: crib) text out) = Returns flags ->
        candidates Rot13 flags = [flag])
  /\ fst (parse_for_flag (py "FLAG") (py "SYNT{grfg}") [])
     = Returns [py "rot13 flag: FLAG{test}"].
Proof.
  intros Hlit Hcrib Hbody Hnl Hpre Hpost flag text.
  assert (F : findall (fuzzy (rot13 (c :: crib))) text = [rot13 flag]).
  { unfold text, flag. rewrite rot13_flag. rewrite <- !app_assoc. cbn [rot13 map app].
    rewrite <- !app_assoc. cbn [app].
    apply (findall_fuzzy_occurrence (c := rot13_char c) (crib := map rot13_char crib));
      try assumption.
    - intro H. apply Hcrib. exact (@rot13_in_fixed c_rbrace (c :: crib) eq_refl H).
    - intro H. apply Hbody. exact (@rot13_in_fixed c_rbrace body eq_refl H).
    - intro H. apply Hnl. exact (@rot13_in_fixed c_newline body eq_refl H). }
  split; [|split].
  - now rewrite rot13_flags_literal, F.
  - intros out flags H. apply parse_for_flag_returns in H.
    rewrite possible_flags_literal in H by assumption.
    apply extract_candidates in H as (_ & H & _). cbn [rot13_pattern] in H.
    rewrite H, F. cbn [map]. now rewrite rot13_involutive.
  - vm_compute. reflexivity.
Qed.

Lemma rot13_round_trip_witness :
  rot13_flags (py "FLAG") (py "xx SYNT{grfg} yy") = Returns [py "SYNT{grfg}"].
Proof.
  apply (@rot13_round_trip 70%N (py "LAG") (py "xx ") (py "test") (py " yy")).
  - repeat constructor.
  - cbn. intuition discriminate.
  - cbn. intuition discriminate.
  - cbn. intuition discriminate.
  - cbn. intuition discriminate.
  - cbn. intuition discriminate.
Defined.




(** C8, as stated, fails: the crib "(F)LAG" puts a capture group into the
    pattern, [findall] then reports the text of the group, and the text
    "FLAG{x}" gives the plaintext candidate "F", which has no brace. *)
Lemma candidate_without_braces :
  fst (parse_for_flag (py "(F)LAG") (py "FLAG{x}") []) = Returns [py "plaintext flag: F"]
  /\ candidates Plaintext [py "plaintext flag: F"] = [py "F"]
  /\ ~ braced (py "F").
Proof.
  repeat split; try (vm_compute; reflexivity).
  intros (a & b & c & H). apply (f_equal (@length N)) in H.
  rewrite length_app in H. cbn [length] in H. rewrite length_app in H.
  cbn [length py list_ascii_of_string map] in H. lia.
Qed.

(** C8, amended: for every crib of ASCII characters that are literal in a
    regular expression and every text, each plaintext match and each decoded
    rot13 match holds an opening brace followed, possibly after other
    characters, by a closing brace; so do the plaintext and rot13 candidates
    of every list the call returns. *)
Theorem candidates_braced (crib text : str) :
  literal crib ->
  (exists hits, plaintext_flags crib text = Returns hits /\ Forall braced hits)
  /\ (exists hits, rot13_flags crib text = Returns hits
                    /\ Forall braced (map rot13 hits))
  /\ (forall out flags,
        fst (parse_for_flag crib text out) = Returns flags ->
        Forall braced (candidates Plaintext flags)
        /\ Forall braced (candidates Rot13 flags)).
Proof.
  intro Hlit.
  assert (P : Forall braced (findall (fuzzy crib) text))
    by (apply Forall_forall; intros v; apply braced_fuzzy).
  assert (R : Forall braced (map rot13 (findall (fuzzy (rot13 crib)) text))).
  { apply Forall_forall. intros v H. apply in_map_iff in H as (x & <- & H).
    apply braced_rot13. exact (braced_fuzzy _ _ _ H). }
  split; [|split].
  - eexists. split; [now apply plaintext_flags_literal | exact P].
  - eexists. split; [now apply rot13_flags_literal | exact R].
  - intros out flags H. apply parse_for_flag_returns in H.
    rewrite possible_flags_literal in H by assumption.
    apply extract_candidates in H as (H1 & H2 & _).
    cbn [plaintext_pattern rot13_pattern] in H1, H2. now rewrite H1, H2.
Qed.

Lemma candidates_braced_witness :
  let flags := [py "plaintext flag: FxLAG{a}"; py "rot13 flag: FLAG{test}"] in
  Forall braced (candidates Plaintext flags)
  /\ Forall braced (candidates Rot13 flags).
Proof.
  apply (proj2 (proj2 (@candidates_braced (py "FLAG") (py "FxLAG{a} SYNT{grfg}")
                         ltac:(repeat constructor))) []).
  vm_compute. reflexivity.
Defined.




(** C2, as stated, fails on both sides: for the crib "FLAG" a line break
    inserted between "F" and "L" is one arbitrary character and leaves no
    plaintext match, and the three characters "LLL" inserted between "F"
    and "L" leave the match of that occurrence in place. *)
Lemma gap_tolerance_fails :
  fst (parse_for_flag (py "FLAG") (py "F" ++ [c_newline] ++ py "LAG{x}") []) = Returns []
  /\ fst (parse_for_flag (py "FLAG") (py "F" ++ py "LLL" ++ py "LAG{x}") [])
     = Returns [py "plaintext flag: FLLLLAG{x}"].
Proof.
  split; vm_compute; reflexivity.
Qed.

(** C2, amended: let the crib [u ++ v] consist of ASCII characters that
    are literal in a regular expression, [u] not empty, and let the text be
    [pre ++ u ++ ins ++ v ++ {body} ++ post] with no line break in the body.
    If [ins] has at most two characters, none a line break, the plaintext
    pattern matches where [u] begins and the scan reports at least one
    plaintext match. If [ins] has three or more characters, none of them a
    crib character or an opening brace, the pattern does not match where [u]
    begins and no reported match starts there. *)
Theorem gap_tolerance (u v pre ins body post : str) :
  literal (u ++ v) -> u <> [] -> ~ In c_newline body ->
  let text := pre ++ u ++ ins ++ v ++ c_lbrace :: body ++ c_rbrace :: post in
  exists ps hits,
    build_patterns (strip c_lbrace (u ++ v)) = Returns ps
    /\ plaintext_matches (u ++ v) text = Returns hits
    /\ (length ins <= 2 -> ~ In c_newline ins ->
        match_at (plaintext_pattern ps) text (length pre) = true /\ hits <> [])
    /\ (3 <= length ins ->
        (forall d, In d ins -> ~ In d (u ++ v) /\ d <> c_lbrace) ->
        match_at (plaintext_pattern ps) text (length pre) = false
        /\ forall f, In f hits -> start f <> length pre).
Proof.
  intros Hlit Hu Hbody text.
  exists (mk_patterns (fuzzy (u ++ v)) (fuzzy (rot13 (u ++ v)))
                      (anchored (firstn 3 (b64encode (u ++ v))))),
         (finditer (fuzzy (u ++ v)) text 0 0).
  rewrite strip_literal, build_patterns_literal, plaintext_matches_literal by assumption.
  cbn [plaintext_pattern]. unfold match_at, text. rewrite skipn_app_length.
  assert (Hu' : ~ In c_lbrace u).
  { intro Hin. apply (literal_no_lbrace Hlit). apply in_app_iff. now left. }
  split; [reflexivity|]. split; [reflexivity|]. split.
  - intros Hlen Hins.
    pose proof (@fuzzy_filler_passes u v ins body post Hu Hlen Hins Hbody) as R.
    split.
    + now destruct (run (fuzzy (u ++ v))
                        (u ++ ins ++ v ++ c_lbrace :: body ++ c_rbrace :: post)).
    + exact (@finditer_nonempty (fuzzy (u ++ v)) _ 0 0 pre _ eq_refl (Nat.le_0_l _) R).
  - intros Hlen Hins.
    pose proof (@fuzzy_filler_blocks u v ins
                  (v ++ c_lbrace :: body ++ c_rbrace :: post) Hlen Hins Hu') as R.
    split; [now rewrite R|].
    intros f Hf Hs.
    destruct (findall_located (fuzzy (u ++ v))
                (pre ++ u ++ ins ++ v ++ c_lbrace :: body ++ c_rbrace :: post)) as [_ L].
    rewrite Forall_forall in L. apply L, located_run in Hf.
    rewrite Hs, skipn_app_length in Hf. contradiction.
Qed.

Lemma gap_tolerance_witness :
  (exists ps hits,
      build_patterns (strip c_lbrace (py "FLAG")) = Returns ps
      /\ plaintext_matches (py "FLAG") (py "see FL__AG{x} here") = Returns hits
      /\ match_at (plaintext_pattern ps) (py "see FL__AG{x} here") 4 = true
      /\ hits <> [])
  /\ (exists ps hits,
         build_patterns (strip c_lbrace (py "FLAG")) = Returns ps
         /\ plaintext_matches (py "FLAG") (py "see FL___AG{x} here") = Returns hits
         /\ match_at (plaintext_pattern ps) (py "see FL___AG{x} here") 4 = false
         /\ forall f, In f hits -> start f <> 4).
Proof.
  split.
  - destruct (@gap_tolerance (py "FL") (py "AG") (py "see ") (py "__") (py "x") (py " here"))
      as (ps & hits & B & P & T & _).
    + repeat constructor.
    + discriminate.
    + cbn. intuition discriminate.
    + exists ps, hits. split; [exact B|]. split; [exact P|].
      apply T; [cbn; lia | cbn; intuition discriminate].
  - destruct (@gap_tolerance (py "FL") (py "AG") (py "see ") (py "___") (py "x") (py " here"))
      as (ps & hits & B & P & _ & N).
    + repeat constructor.
    + discriminate.
    + cbn. intuition discriminate.
    + exists ps, hits. split; [exact B|]. split; [exact P|].
      apply N; [cbn; lia|].
      intros d Hd. cbn in Hd. split; [cbn|]; intuition (subst; discriminate).
Defined.

(** C3, as stated, fails. By design the anchor is the first three
    characters of the base64 text of the crib alone: for the one-character
    crib "F" that is "Rg=", while the base64 text of "F{x}" is "Rnt4fQ==",
    and the call finds nothing. Besides, the set of the pattern holds the
    backslash where the base64 alphabet has "/": it rejects "/", and the
    base64 text "RkxBR3s/fQ==" of "FLAG{?}" is not matched. *)
Lemma base64_round_trip_fails :
  (base64_text (py "F{x}") = Some (py "Rnt4fQ==")
   /\ fst (parse_for_flag (py "F") (py "Rnt4fQ== ") []) = Returns [])
  /\ (base64_text (py "FLAG{?}") = Some (py "RkxBR3s/fQ==")
      /\ fst (parse_for_flag (py "FLAG") (py "RkxBR3s/fQ== ") []) = Returns []
      /\ ~ classy c_slash).
Proof.
  repeat split; try (vm_compute; reflexivity).
  intro H. vm_compute in H. discriminate.
Qed.

(** C3, amended: for a crib of three or more ASCII characters that are
    literal in a regular expression and an ASCII body whose base64 text
    [encoded] of [crib{body}] holds no "/", a text
    [pre ++ encoded ++ w :: post] with a whitespace character [w], a [pre]
    that lacks the first character of [encoded] and a [post] without
    whitespace, both of characters that UTF-8 can encode, has exactly one
    base64 match, [encoded ++ w]; it decodes to [crib{body}], the call
    returns, and [crib{body}] is the one base64 candidate of the returned
    list. The pattern is the first three
    characters of the base64 text (of the crib, and so of [encoded]), then
    one or more characters of a set that holds the letters, the digits and
    "+", then up to two "=", then a whitespace character. *)
Theorem base64_round_trip (crib body pre post encoded : str) (w : char) :
  literal crib -> 3 <= length crib -> Forall (fun c => (c < 128)%N) body ->
  base64_text (crib ++ c_lbrace :: body ++ [c_rbrace]) = Some encoded ->
  ~ In c_slash encoded -> is_space w = true ->
  ~ In (hd 0%N encoded) pre -> Forall (fun x => is_space x = false) post ->
  utf8_encode (pre ++ post) <> None ->
  let flag := crib ++ c_lbrace :: body ++ [c_rbrace] in
  let text := pre ++ encoded ++ w :: post in
  base64_flags crib text = Returns [encoded ++ [w]]
  /\ base64_value (encoded ++ [w]) = Returns flag
  /\ (exists flags,
        (forall out, fst (parse_for_flag crib text out) = Returns flags)
        /\ candidates Base64 flags = [flag])
  /\ (exists ps set,
        build_patterns (strip c_lbrace crib) = Returns ps
        /\ base64_pattern ps
           = map (fun c => Atom (ALit c)) (firstn 3 encoded)
             ++ [Rep (AIn false set) 1 None true;
                 Rep (AIn false [(c_equal, c_equal)]) 0 (Some 2) true;
                 Atom ASpace]
        /\ forall c, is_ascii_alnum c = true \/ c = c_plus ->
                     accepts (AIn false set) c = true).
Proof.
  intros Hlit Hlen Hbody Henc Hslash Hw Hpre Hpost Hutf flag text.
  assert (Hflag : Forall (fun c => (c < 128)%N) flag).
  { unfold flag. apply Forall_app. split; [now apply literal_ascii|].
    constructor; [unfold c_lbrace; lia|]. apply Forall_app. split; [assumption|].
    constructor; [unfold c_rbrace; lia | constructor]. }
  unfold base64_text in Henc. fold flag in Henc.
  rewrite (utf8_encode_ascii Hflag) in Henc. injection Henc as <-.
  destruct (b64encode_anchored crib (c_lbrace :: body ++ [c_rbrace]) Hlen)
    as (c & anchor & v & rest & Ea & La & Ee & Hv & used & Eu).
  fold flag in Ee, Eu.
  assert (Hrest : Forall (fun b => (b < 256)%N) rest).
  { rewrite Eu in Hflag. apply Forall_app in Hflag as [_ Hflag].
    revert Hflag. apply Forall_impl. intros. lia. }
  destruct (b64encode_shape Hrest) as (run0 & pad & Er & Hrun & Hpad).
  { intro Hin. apply Hslash. rewrite Ee. apply in_app_iff. right. now right. }
  assert (Hc : classy (b2a v)).
  { apply b2a_classy; [assumption|]. intro E. apply Hslash. rewrite Ee.
    apply in_app_iff. right. left. exact E. }
  assert (Shape : b64encode flag = (c :: anchor) ++ (b2a v :: run0) ++ pad)
    by (rewrite Ee, Er; reflexivity).
  assert (Value : base64_value (b64encode flag ++ [w]) = Returns flag)
    by now apply base64_value_round_trip.
  assert (Found : findall (anchored (c :: anchor)) text = [b64encode flag ++ [w]]).
  { unfold text. rewrite Shape. rewrite Shape in Hpre. cbn [app hd] in Hpre.
    apply findall_anchored_occurrence; auto; try (now constructor); discriminate. }
  assert (Pats : build_patterns (strip c_lbrace crib)
                 = Returns (mk_patterns (fuzzy crib) (fuzzy (rot13 crib))
                                        (anchored (c :: anchor))))
    by (rewrite strip_literal, build_patterns_literal, Ea by assumption; reflexivity).
  split; [|split; [|split]].
  - unfold base64_flags. rewrite Pats. cbn [bind base64_pattern]. now rewrite Found.
  - exact Value.
  - assert (Text : utf8_encode text <> None).
    { apply utf8_encode_chars in Hutf. apply Forall_app in Hutf as [U1 U2].
      apply utf8_encode_forall. unfold text.
      apply Forall_app. split; [assumption|]. apply Forall_app. split.
      - eapply Forall_impl; [|exact (b64encode_ascii flag)].
        intros x Hx. now apply ascii_encodable.
      - constructor; [now apply space_encodable | assumption]. }
    assert (Search : possible_flags crib text
                     = Returns (map (app plaintext_label) (findall (fuzzy crib) text)
                                ++ map (app rot13_label)
                                       (map rot13 (findall (fuzzy (rot13 crib)) text))
                                ++ [base64_label ++ flag])).
    { unfold possible_flags. rewrite Pats.
      cbn [bind]. apply extract_returns. cbn [base64_pattern]. rewrite Found.
      cbn [base64_values]. rewrite Value. reflexivity. }
    eexists. split.
    + intro out. now rewrite (@parse_for_flag_prints crib text out _ Text Search).
    + rewrite !candidates_app.
      change plaintext_label with (label Plaintext).
      change rot13_label with (label Rot13).
      rewrite !candidates_other by discriminate. reflexivity.
  - eexists _, base64_set. split; [exact Pats|]. cbn [base64_pattern].
    split.
    + unfold anchored. rewrite Shape.
      destruct anchor as [|c1 [|c2 [|]]]; try discriminate La. reflexivity.
    + intros x Hx. apply classy_spec. destruct Hx as [Hx| ->]; [|now left].
      apply is_ascii_alnum_spec in Hx. lia.
Qed.

Lemma base64_round_trip_witness :
  base64_flags (py "FLAG") (py "see RkxBR3t0ZXN0fQ== here")
  = Returns [py "RkxBR3t0ZXN0fQ== "].
Proof.
  apply (@base64_round_trip (py "FLAG") (py "test") (py "see ") (py "here")
           (py "RkxBR3t0ZXN0fQ==") 32%N).
  - repeat constructor.
  - cbn. lia.
  - repeat constructor.
  - reflexivity.
  - cbn. intuition discriminate.
  - reflexivity.
  - cbn. intuition discriminate.
  - repeat constructor.
  - vm_compute. discriminate.
Defined.

(** ** [robots.txt] *)

Lemma str_eqb_refl a : str_eqb a a = true.
Proof. induction a as [|x a IH]; [reflexivity|]. cbn. now rewrite N.eqb_refl. Qed.

Lemma str_eqb_eq a b : str_eqb a b = true <-> a = b.
Proof.
  split; [|intros ->; apply str_eqb_refl].
  revert b. induction a as [|x a IH]; intros [|y b] H; try discriminate; [reflexivity|].
  cbn in H. apply andb_true_iff in H as [H1 H2]. apply N.eqb_eq in H1.
  now rewrite H1, (IH b H2).
Qed.

Lemma split_nonempty sep s : split sep s <> [].
Proof.
  destruct s as [|c s]; cbn [split]; [discriminate|].
  destruct (c =? sep)%N; [discriminate|]. now destruct (split sep s).
Qed.

Lemma split_fields sep s f :
  In f (split sep s) -> ~ In sep f /\ incl f s.
Proof.
  revert f. induction s as [|c s IH]; cbn [split]; intros f H.
  - destruct H as [<-|[]]. split; [intros [] | intros x []].
  - destruct (N.eqb_spec c sep) as [E|E].
    + destruct H as [<-|H]; [split; [intros [] | intros x []]|].
      destruct (IH f H) as [H1 H2]. split; [assumption|]. now apply incl_tl.
    + destruct (split sep s) as [|g gs]; [destruct H as [<-|[]]|].
      * split; [intros [H|[]]; now apply E | intros x [<-|[]]; now left].
      * destruct H as [<-|H].
        -- destruct (IH g (or_introl eq_refl)) as [H1 H2]. split.
           ++ intros [H|H]; [now apply E | now apply H1].
           ++ intros x [<-|H]; [now left | right; now apply H2].
        -- destruct (IH f (or_intror H)) as [H1 H2]. split; [assumption|].
           now apply incl_tl.
Qed.

Lemma split_app_sep sep a b :
  split sep (a ++ sep :: b) = split sep a ++ split sep b.
Proof.
  induction a as [|c a IH]; cbn [app split].
  - now rewrite N.eqb_refl.
  - destruct (c =? sep)%N; rewrite IH; [reflexivity|].
    pose proof (split_nonempty sep a). now destruct (split sep a).
Qed.

Lemma robots_line_step c u d a s line :
  robots_line (robots_dict c u d a s) line
  = Return (robots_dict (c ++ comment_of line)
                        (u ++ field_of (py "User-agent:") line)
                        (d ++ field_of (py "Disallow:") line)
                        (a ++ field_of (py "Allow:") line)
                        (s ++ field_of (py "Sitemap:") line)).
Proof.
  unfold robots_line, comment_of, field_of.
  destruct (mem c_hash line).
  { now rewrite !app_nil_r. }
  pose proof (split_nonempty c_space line) as N.
  destruct (split c_space line) as [|entry0 [|entry1 entry]]; [contradiction| |].
  { now rewrite !app_nil_r. }
  cbn [length Nat.eqb negb index nth_error or_else and_then].
  destruct (str_eqb entry0 (py "User-agent:")) eqn:E1.
  { apply str_eqb_eq in E1. subst entry0. now rewrite !app_nil_r. }
  destruct (str_eqb entry0 (py "Disallow:")) eqn:E2.
  { apply str_eqb_eq in E2. subst entry0. now rewrite !app_nil_r. }
  destruct (str_eqb entry0 (py "Allow:")) eqn:E3.
  { apply str_eqb_eq in E3. subst entry0. now rewrite !app_nil_r. }
  destruct (str_eqb entry0 (py "Sitemap:")) eqn:E4.
  { apply str_eqb_eq in E4. subst entry0. now rewrite !app_nil_r. }
  now rewrite !app_nil_r.
Qed.

Lemma robots_loop_step lines : forall c u d a s,
  robots_loop lines (robots_dict c u d a s)
  = Return (robots_dict (c ++ flat_map comment_of lines)
                        (u ++ flat_map (field_of (py "User-agent:")) lines)
                        (d ++ flat_map (field_of (py "Disallow:")) lines)
                        (a ++ flat_map (field_of (py "Allow:")) lines)
                        (s ++ flat_map (field_of (py "Sitemap:")) lines)).
Proof.
  induction lines as [|line lines IH]; intros; cbn [robots_loop flat_map].
  - now rewrite !app_nil_r.
  - rewrite robots_line_step. cbn [and_then]. rewrite IH. now rewrite <- !app_assoc.
Qed.

Lemma robots_loop_lines lines :
  robots_loop lines robots_empty = Return (robots_lines lines).
Proof. exact (robots_loop_step lines [] [] [] [] []). Qed.

Lemma robots_of_inv r d :
  robots_of r = Return d ->
  (status_code r <> 200%N /\ d = [])
  \/ (status_code r = 200%N
      /\ exists text, utf8_decode (content r) = Some text
                      /\ d = robots_lines (split c_newline text)).
Proof.
  unfold robots_of. destruct (N.eqb_spec (status_code r) 200) as [E|E].
  - destruct (utf8_decode (content r)) as [text|]; [|discriminate].
    cbn [or_else and_then]. rewrite robots_loop_lines. intros [= <-].
    right. split; [assumption|]. now exists text.
  - intros [= <-]. now left.
Qed.

Lemma crawl_robots_inv get self d :
  crawl_robots get self = Return d ->
  exists r, get (url self ++ py "robots.txt") = Some r /\ robots_of r = Return d.
Proof.
  unfold crawl_robots. destruct (get (url self ++ py "robots.txt")) as [r|];
    [|discriminate].
  intro H. now exists r.
Qed.

Lemma mem_In c l : mem c l = true <-> In c l.
Proof.
  unfold mem. rewrite existsb_exists. split.
  - intros (x & H & E). apply N.eqb_eq in E. now subst.
  - intro H. exists c. split; [assumption | apply N.eqb_refl].
Qed.

Lemma in_comment_of v lines :
  In v (flat_map comment_of lines) <-> In v lines /\ In c_hash v.
Proof.
  rewrite in_flat_map. unfold comment_of. split.
  - intros (line & H & Hv). destruct (mem c_hash line) eqn:M; [|destruct Hv].
    destruct Hv as [<-|[]]. split; [assumption | now apply mem_In].
  - intros [H M]. exists v. split; [assumption|].
    apply mem_In in M. rewrite M. now left.
Qed.

Lemma in_field_of v directive lines :
  In v (flat_map (field_of directive) lines)
  <-> exists line entry, In line lines /\ ~ In c_hash line
                         /\ split c_space line = directive :: v :: entry.
Proof.
  rewrite in_flat_map. unfold field_of. split.
  - intros (line & H & Hv). destruct (mem c_hash line) eqn:M; [destruct Hv|].
    destruct (split c_space line) as [|entry0 [|entry1 entry]] eqn:S; try destruct Hv.
    destruct (str_eqb entry0 directive) eqn:E; [|destruct Hv].
    destruct Hv as [<-|[]]. apply str_eqb_eq in E. subst entry0.
    exists line, entry. split; [assumption|]. split; [|exact S].
    intro Hh. apply mem_In in Hh. congruence.
  - intros (line & entry & H & M & E). exists line. split; [assumption|].
    destruct (mem c_hash line) eqn:M'; [apply mem_In in M'; contradiction|].
    rewrite E, str_eqb_refl. now left.
Qed.

Lemma field_of_clean v directive lines :
  In v (flat_map (field_of directive) lines) ->
  exists line, In line lines /\ incl v line /\ ~ In c_space v /\ ~ In c_hash v.
Proof.
  intro H. apply in_field_of in H as (line & entry & H & M & E).
  assert (F : In v (split c_space line)) by (rewrite E; right; now left).
  apply split_fields in F as [F1 F2].
  exists line. repeat split; try assumption. intro Hh. apply M. now apply F2.
Qed.

Lemma utf8_decode_app a s b :
  utf8_decode a = Some s ->
  utf8_decode (a ++ b) = option_map (app s) (utf8_decode b).
Proof.
  assert (G : forall n a, length a <= n -> forall s, utf8_decode a = Some s ->
                utf8_decode (a ++ b) = option_map (app s) (utf8_decode b)).
  { clear a s. induction n as [|n IH]; intros a Hn s H.
    { destruct a; [|cbn [length] in Hn; lia]. injection H as <-.
      cbn [app]. now destruct (utf8_decode b). }
    destruct a as [|b0 r0].
    { injection H as <-. cbn [app]. now destruct (utf8_decode b). }
    cbn [length] in Hn. cbn [app utf8_decode] in *.
    destruct (b0 <? 128)%N.
    { apply push_some in H as (s' & H & ->). rewrite (IH r0 ltac:(lia) s' H).
      now destruct (utf8_decode b). }
    destruct (between 194 223 b0).
    { destruct r0 as [|b1 r1]; [discriminate|]. cbn [app length] in *.
      destruct (continuation b1); [|discriminate].
      apply push_some in H as (s' & H & ->). rewrite (IH r1 ltac:(lia) s' H).
      now destruct (utf8_decode b). }
    destruct (between 224 239 b0).
    { destruct r0 as [|b1 [|b2 r2]]; try discriminate. cbn [app length] in *.
      destruct (between _ _ b1 && continuation b2); [|discriminate].
      apply push_some in H as (s' & H & ->). rewrite (IH r2 ltac:(lia) s' H).
      now destruct (utf8_decode b). }
    destruct (between 240 244 b0); [|discriminate].
    destruct r0 as [|b1 [|b2 [|b3 r3]]]; try discriminate. cbn [app length] in *.
    destruct (between _ _ b1 && continuation b2 && continuation b3); [|discriminate].
    apply push_some in H as (s' & H & ->). rewrite (IH r3 ltac:(lia) s' H).
    now destruct (utf8_decode b). }
  exact (G (length a) a (le_n _) s).
Qed.

(** X1: What [crawl_robots] and [check_robots] do with the answer to the
    request for [robots.txt]: any status but 200 gives the empty dictionary
    and [False], and the body is not decoded; status 200 gives [True] and,
    when the body is valid UTF-8, a dictionary with the five keys
    "comments", "user-agent", "disallow", "allow" and "sitemap" in this
    order; a body that is no valid UTF-8 makes [crawl_robots] raise
    [UnicodeDecodeError]. No line makes it raise. *)
Theorem crawl_robots_outcome (get : str -> option response) (self : Client)
    (r : response) :
  get (url self ++ py "robots.txt") = Some r ->
  (status_code r <> 200%N ->
   check_robots get self = Return false /\ crawl_robots get self = Return [])
  /\ (status_code r = 200%N ->
      check_robots get self = Return true
      /\ match utf8_decode (content r) with
         | Some text =>
             exists d, crawl_robots get self = Return d
                       /\ map fst d = [py "comments"; py "user-agent"; py "disallow";
                                       py "allow"; py "sitemap"]
         | None => crawl_robots get self = Raise (Raised UnicodeDecodeError)
         end).
Proof.
  intro G. unfold check_robots, crawl_robots, robots_of. rewrite G.
  cbn [or_else and_then]. split; intro E.
  - apply N.eqb_neq in E. now rewrite E.
  - rewrite E. cbn [N.eqb Pos.eqb]. split; [reflexivity|].
    destruct (utf8_decode (content r)) as [text|]; [|reflexivity].
    cbn [or_else and_then]. rewrite robots_loop_lines. eexists. split; reflexivity.
Qed.

Lemma crawl_robots_outcome_witness :
  check_robots (fun _ => Some (mk_response 200 (py "Disallow: /admin")))
               (Client_init (py "http://ctf.example/") (py "out"))
  = Return true
  /\ exists d,
       crawl_robots (fun _ => Some (mk_response 200 (py "Disallow: /admin")))
                    (Client_init (py "http://ctf.example/") (py "out"))
       = Return d
       /\ map fst d = [py "comments"; py "user-agent"; py "disallow";
                       py "allow"; py "sitemap"].
Proof.
  exact (proj2 (@crawl_robots_outcome
                  (fun _ => Some (mk_response 200 (py "Disallow: /admin")))
                  (Client_init (py "http://ctf.example/") (py "out"))
                  (mk_response 200 (py "Disallow: /admin")) eq_refl) eq_refl).
Defined.

(** X2: The dictionary of [crawl_robots] in closed form: "comments" holds the
    lines with a "#", whole and in order; the list of a directive holds, in
    order, the second space-separated field of every line without "#" that
    has two fields or more and whose first field is the directive's name
    with its colon, in this spelling. *)
Theorem crawl_robots_lines (get : str -> option response) (self : Client)
    (r : response) (text : str) :
  get (url self ++ py "robots.txt") = Some r ->
  status_code r = 200%N -> utf8_decode (content r) = Some text ->
  let lines := split c_newline text in
  crawl_robots get self
  = Return [(py "comments", filter (mem c_hash) lines);
            (py "user-agent", flat_map (field_of (py "User-agent:")) lines);
            (py "disallow", flat_map (field_of (py "Disallow:")) lines);
            (py "allow", flat_map (field_of (py "Allow:")) lines);
            (py "sitemap", flat_map (field_of (py "Sitemap:")) lines)]
  /\ forall directive v,
       In v (flat_map (field_of directive) lines)
       <-> exists line entry,
             In line lines /\ ~ In c_hash line
             /\ split c_space line = directive :: v :: entry.
Proof.
  intros G E T lines. split; [|intros; apply in_field_of].
  unfold crawl_robots, robots_of. rewrite G. cbn [or_else and_then].
  rewrite E, T. cbn [N.eqb Pos.eqb or_else and_then]. rewrite robots_loop_lines.
  unfold robots_lines, robots_dict. do 3 f_equal.
  fold lines. induction lines as [|line lines' IH]; [reflexivity|].
  cbn [flat_map filter]. unfold comment_of at 1.
  destruct (mem c_hash line); cbn [app]; now rewrite IH.
Qed.

Lemma crawl_robots_lines_witness :
  crawl_robots
    (fun _ => Some (mk_response 200
                      (py "User-agent: *" ++ [c_newline]
                       ++ py "Disallow: /admin /x" ++ [c_newline]
                       ++ py "Disallow: /secret # hidden" ++ [c_newline]
                       ++ py "disallow: /lower" ++ [c_newline]
                       ++ py "Allow:/nospace")))
    (Client_init (py "http://ctf.example/") (py "out"))
  = Return [(py "comments", [py "Disallow: /secret # hidden"]);
            (py "user-agent", [py "*"]);
            (py "disallow", [py "/admin"]);
            (py "allow", []);
            (py "sitemap", [])].
Proof.
  exact (proj1 (@crawl_robots_lines
                  (fun _ => Some (mk_response 200
                      (py "User-agent: *" ++ [c_newline]
                       ++ py "Disallow: /admin /x" ++ [c_newline]
                       ++ py "Disallow: /secret # hidden" ++ [c_newline]
                       ++ py "disallow: /lower" ++ [c_newline]
                       ++ py "Allow:/nospace")))
                  (Client_init (py "http://ctf.example/") (py "out"))
                  _ _ eq_refl eq_refl eq_refl)).
Defined.

(** X3: Every value that [crawl_robots] returns is free of line breaks; a
    comment holds a "#", and a value under "user-agent", "disallow",
    "allow" or "sitemap" holds neither a space nor a "#": of a line such as
    "Disallow: /a /b" only "/a" is kept, and a directive with a trailing
    comment is filed under "comments" only. *)
Theorem crawl_robots_values (get : str -> option response) (self : Client)
    (d : dict) (key : str) (l : list str) (v : str) :
  crawl_robots get self = Return d -> In (key, l) d -> In v l ->
  ~ In c_newline v
  /\ (key = py "comments" -> In c_hash v)
  /\ (key <> py "comments" -> ~ In c_space v /\ ~ In c_hash v).
Proof.
  intros H Hk Hv. apply crawl_robots_inv in H as (r & _ & H).
  apply robots_of_inv in H as [[_ ->]|(_ & text & _ & ->)]; [destruct Hk|].
  assert (L : forall line, In line (split c_newline text) -> ~ In c_newline line)
    by (intros line Hl; now apply split_fields in Hl).
  assert (F : forall directive, In v (flat_map (field_of directive) (split c_newline text)) ->
              ~ In c_newline v /\ ~ In c_space v /\ ~ In c_hash v).
  { intros directive Hf. apply field_of_clean in Hf as (line & Hl & I & S & C).
    repeat split; try assumption. intro Hn. apply (L line Hl). now apply I. }
  unfold robots_lines, robots_dict in Hk.
  destruct Hk as [Hk|[Hk|[Hk|[Hk|[Hk|[]]]]]]; injection Hk as <- <-.
  - apply in_comment_of in Hv as [Hl Hh]. split; [now apply L|].
    split; [now intros _ | intro N; now contradiction N].
  - destruct (F _ Hv) as (N & S & C). split; [assumption|]. split; [discriminate | now intros _].
  - destruct (F _ Hv) as (N & S & C). split; [assumption|]. split; [discriminate | now intros _].
  - destruct (F _ Hv) as (N & S & C). split; [assumption|]. split; [discriminate | now intros _].
  - destruct (F _ Hv) as (N & S & C). split; [assumption|]. split; [discriminate | now intros _].
Qed.

Lemma crawl_robots_values_witness :
  ~ In c_newline (py "/admin")
  /\ (py "disallow" = py "comments" -> In c_hash (py "/admin"))
  /\ (py "disallow" <> py "comments" ->
      ~ In c_space (py "/admin") /\ ~ In c_hash (py "/admin")).
Proof.
  apply (@crawl_robots_values
           (fun _ => Some (mk_response 200 (py "Disallow: /admin /x")))
           (Client_init (py "http://ctf.example/") (py "out"))
           [(py "comments", []); (py "user-agent", []); (py "disallow", [py "/admin"]);
            (py "allow", []); (py "sitemap", [])]
           (py "disallow") [py "/admin"] (py "/admin")).
  - vm_compute. reflexivity.
  - right. right. left. reflexivity.
  - left. reflexivity.
Defined.

(** X4: [robots.txt] is read line by line: the dictionary of two bodies joined
    by a line break is, list by list, the dictionary of the first followed
    by that of the second. *)
Theorem robots_of_concat (b1 b2 : bytes) (d1 d2 : dict) :
  robots_of (mk_response 200 b1) = Return d1 ->
  robots_of (mk_response 200 b2) = Return d2 ->
  robots_of (mk_response 200 (b1 ++ c_newline :: b2)) = Return (dict_concat d1 d2).
Proof.
  intros H1 H2.
  apply robots_of_inv in H1 as [[N _]|(_ & t1 & T1 & ->)]; [now contradiction N|].
  apply robots_of_inv in H2 as [[N _]|(_ & t2 & T2 & ->)]; [now contradiction N|].
  cbn [content] in T1, T2. unfold robots_of. cbn [status_code content N.eqb Pos.eqb].
  rewrite (@utf8_decode_app b1 t1 (c_newline :: b2) T1). cbn [utf8_decode].
  replace (c_newline <? 128)%N with true by reflexivity.
  rewrite T2. cbn [push option_map or_else and_then].
  rewrite robots_loop_lines, split_app_sep.
  unfold robots_lines, robots_dict. cbn [dict_concat]. now rewrite !flat_map_app.
Qed.

Lemma robots_of_concat_witness :
  robots_of (mk_response 200 (py "Disallow: /a" ++ c_newline :: py "# note"))
  = Return (dict_concat
              [(py "comments", []); (py "user-agent", []); (py "disallow", [py "/a"]);
               (py "allow", []); (py "sitemap", [])]
              [(py "comments", [py "# note"]); (py "user-agent", []); (py "disallow", []);
               (py "allow", []); (py "sitemap", [])]).
Proof.
  apply (@robots_of_concat (py "Disallow: /a") (py "# note")); vm_compute; reflexivity.
Defined.

(** ** [get_remote_files] *)

Lemma str_in_In x l : str_in x l = true <-> In x l.
Proof.
  unfold str_in. rewrite existsb_exists. split.
  - intros (y & H & E). apply str_eqb_eq in E. now subst.
  - intro H. exists x. split; [assumption | apply str_eqb_refl].
Qed.

Lemma find_all_In page n t : In t (find_all page n) <-> In t page /\ name t = n.
Proof. unfold find_all. now rewrite filter_In, str_eqb_eq. Qed.

(** A tag offers the path [v]: its attribute [attr] is [v], not empty and
    without "http". *)
Lemma remote_loop_spec link attr tags : forall files,
  NoDup files ->
  NoDup (remote_loop link attr tags files)
  /\ forall u, In u (remote_loop link attr tags files)
               <-> In u files
                   \/ exists t v, In t tags /\ attrs_get (attrs t) attr = Some v
                                  /\ v <> [] /\ contains (py "http") v = false
                                  /\ u = link ++ v.
Proof.
  induction tags as [|t tags IH]; intros files ND; cbn [remote_loop].
  { split; [assumption|]. intro u. split; [now left|].
    intros [H|(t & v & [] & _)]. assumption. }
  assert (Skip : forall v, attrs_get (attrs t) attr = Some v ->
                   v = [] \/ contains (py "http") v = true \/ In (link ++ v) files ->
                   NoDup (remote_loop link attr tags files)
                   /\ forall u, In u (remote_loop link attr tags files)
                        <-> In u files
                            \/ exists t0 v0, In t0 (t :: tags)
                                 /\ attrs_get (attrs t0) attr = Some v0
                                 /\ v0 <> [] /\ contains (py "http") v0 = false
                                 /\ u = link ++ v0).
  { intros v Hv Hs. destruct (IH files ND) as [N I]. split; [assumption|].
    intro u. rewrite I. split.
    - intros [H|(t0 & v0 & H0 & H)]; [now left|].
      right. exists t0, v0. split; [now right | assumption].
    - intros [H|(t0 & v0 & [<-|H0] & A & E & C & ->)]; [now left| |].
      + rewrite Hv in A. injection A as <-.
        destruct Hs as [Hs|[Hs|Hs]]; [contradiction | congruence | now left].
      + right. exists t0, v0. now repeat split. }
  destruct (attrs_get (attrs t) attr) as [[|c v]|] eqn:A.
  - apply (Skip [] eq_refl). now left.
  - destruct (contains (py "http") (c :: v)) eqn:C; cbn [negb].
    + apply (Skip (c :: v) eq_refl). right. now left.
    + destruct (str_in (link ++ c :: v) files) eqn:S; cbn [negb].
      * apply (Skip (c :: v) eq_refl). right. right. now apply str_in_In.
      * assert (ND' : NoDup (files ++ [link ++ c :: v])).
        { apply NoDup_app; [assumption | repeat constructor; intros [] |].
          intros x Hx [<-|[]]. apply str_in_In in Hx. congruence. }
        destruct (IH _ ND') as [N I]. split; [assumption|].
        intro u. rewrite I, in_app_iff. split.
        -- intros [[H|[<-|[]]]|(t0 & v0 & H0 & H)].
           ++ now left.
           ++ right. exists t, (c :: v). repeat split; try assumption;
                [now left | discriminate].
           ++ right. exists t0, v0. split; [now right | assumption].
        -- intros [H|(t0 & v0 & [<-|H0] & A0 & E & C0 & ->)].
           ++ left. now left.
           ++ rewrite A in A0. injection A0 as <-. left. right. now left.
           ++ right. exists t0, v0. now repeat split.
  - destruct (IH files ND) as [N I]. split; [assumption|].
    intro u. rewrite I. split.
    + intros [H|(t0 & v0 & H0 & H)]; [now left|].
      right. exists t0, v0. split; [now right | assumption].
    + intros [H|(t0 & v0 & [<-|H0] & A0 & E & C & ->)]; [now left| |].
      * congruence.
      * right. exists t0, v0. now repeat split.
Qed.

Lemma remote_group link attr page n :
  NoDup (remote_loop link attr (find_all page n) [])
  /\ forall u, In u (remote_loop link attr (find_all page n) [])
               <-> exists t v, In t page /\ name t = n
                               /\ attrs_get (attrs t) attr = Some v
                               /\ v <> [] /\ contains (py "http") v = false
                               /\ u = link ++ v.
Proof.
  destruct (@remote_loop_spec link attr (find_all page n) [] (NoDup_nil _)) as [N I].
  split; [assumption|]. intro u. rewrite I. split.
  - intros [[]|(t & v & H & R)]. apply find_all_In in H as [H1 H2].
    exists t, v. now repeat split.
  - intros (t & v & H1 & H2 & R). right. exists t, v.
    split; [now apply find_all_In | assumption].
Qed.

(** X5: The list of [get_remote_files] is the style sheets, then the images,
    then the scripts; no group holds a URL twice; and a URL is in a group
    exactly when it is [link] followed by the [href] (of a [link] tag) or
    the [src] (of an [img] or [script] tag) of the page, for a value that is
    not empty and in which the four characters "http" do not occur. So every
    URL of the list begins with [link], and a reference in which "http"
    occurs is never listed. The test is on these four characters alone: a
    reference that is absolute in another way, such as
    "//cdn.example/lib.js", is listed, behind [link]. *)
Theorem get_remote_files_groups (get : str -> option response)
    (bs : response -> soup) (link : str) (all_files : list str) :
  get_remote_files get bs link = Return all_files ->
  exists r css_files image_files script_files,
    get link = Some r
    /\ all_files = css_files ++ image_files ++ script_files
    /\ NoDup css_files /\ NoDup image_files /\ NoDup script_files
    /\ (forall group n attr,
          (group, n, attr) = (css_files, py "link", py "href")
          \/ (group, n, attr) = (image_files, py "img", py "src")
          \/ (group, n, attr) = (script_files, py "script", py "src") ->
          forall u, In u group
                    <-> exists t v, In t (bs r) /\ name t = n
                                    /\ attrs_get (attrs t) attr = Some v
                                    /\ v <> [] /\ contains (py "http") v = false
                                    /\ u = link ++ v)
    /\ (forall u, In u all_files ->
          exists v, u = link ++ v /\ v <> [] /\ contains (py "http") v = false).
Proof.
  unfold get_remote_files. destruct (get link) as [r|]; [|discriminate].
  cbn [or_else and_then]. intros [= <-]. unfold remote_files.
  destruct (remote_group link (py "href") (bs r) (py "link")) as [N1 I1].
  destruct (remote_group link (py "src") (bs r) (py "img")) as [N2 I2].
  destruct (remote_group link (py "src") (bs r) (py "script")) as [N3 I3].
  exists r. do 3 eexists. split; [reflexivity|]. split; [reflexivity|].
  split; [assumption|]. split; [assumption|]. split; [assumption|]. split.
  - intros group n attr Hg u.
    destruct Hg as [Hg|[Hg|Hg]]; injection Hg as -> -> ->;
      [apply I1 | apply I2 | apply I3].
  - intros u Hu. rewrite !in_app_iff in Hu.
    destruct Hu as [Hu|[Hu|Hu]];
      [apply I1 in Hu | apply I2 in Hu | apply I3 in Hu];
      destruct Hu as (t & v & _ & _ & _ & E & C & ->); now exists v.
Qed.

Lemma get_remote_files_groups_witness :
  let link := py "http://ctf.example/" in
  let page := [mk_tag (py "link") [(py "rel", py "stylesheet"); (py "href", py "css/site.css")];
               mk_tag (py "img") [(py "src", py "https://cdn.example/logo.png")];
               mk_tag (py "script") [(py "src", py "js/app.js")];
               mk_tag (py "script") [(py "src", py "js/app.js")];
               mk_tag (py "script") [(py "src", py "//cdn.example/lib.js")]] in
  get_remote_files (fun _ => Some (mk_response 200 [])) (fun _ => page) link
  = Return [link ++ py "css/site.css"; link ++ py "js/app.js";
            link ++ py "//cdn.example/lib.js"]
  /\ exists v, link ++ py "//cdn.example/lib.js" = link ++ v /\ v <> []
               /\ contains (py "http") v = false.
Proof.
  cbv zeta. split; [vm_compute; reflexivity|].
  destruct (@get_remote_files_groups
              (fun _ => Some (mk_response 200 []))
              (fun _ => [mk_tag (py "link") [(py "rel", py "stylesheet");
                                             (py "href", py "css/site.css")];
                         mk_tag (py "img") [(py "src", py "https://cdn.example/logo.png")];
                         mk_tag (py "script") [(py "src", py "js/app.js")];
                         mk_tag (py "script") [(py "src", py "js/app.js")];
                         mk_tag (py "script") [(py "src", py "//cdn.example/lib.js")]])
              (py "http://ctf.example/")
              [py "http://ctf.example/" ++ py "css/site.css";
               py "http://ctf.example/" ++ py "js/app.js";
               py "http://ctf.example/" ++ py "//cdn.example/lib.js"]
              ltac:(vm_compute; reflexivity))
    as (r & css & img & js & _ & _ & _ & _ & _ & _ & H).
  apply H. right. right. left. reflexivity.
Defined.

(** ** What the decoder that ignores errors keeps *)

(** X6: Decoding with [ignore] leaves valid UTF-8 alone: octets that decode
    strictly to [s] decode to [s], and they still do when other octets,
    valid or not, follow them. *)
Theorem utf8_decode_ignore_valid (a b : bytes) (s : str) :
  utf8_decode a = Some s ->
  utf8_decode_ignore a = s
  /\ utf8_decode_ignore (a ++ b) = s ++ utf8_decode_ignore b.
Proof.
  intro H. split; [|now apply utf8_decode_ignore_app].
  rewrite <- (app_nil_r a), (@utf8_decode_ignore_app a s [] H). apply app_nil_r.
Qed.

Lemma utf8_decode_ignore_valid_witness :
  utf8_decode_ignore [226; 130; 172]%N = [8364%N]
  /\ utf8_decode_ignore ([226; 130; 172] ++ [255; 65])%N
     = [8364%N] ++ utf8_decode_ignore [255; 65]%N.
Proof.
  apply (@utf8_decode_ignore_valid [226; 130; 172]%N [255; 65]%N [8364%N]).
  vm_compute. reflexivity.
Defined.

(** X7: A text written as UTF-8 is read back unchanged by the decoder that the
    file functions use. *)
Theorem utf8_decode_ignore_encode (s : str) (bs : bytes) :
  utf8_encode s = Some bs -> utf8_decode_ignore bs = s.
Proof.
  intro H. apply utf8_decode_encode in H.
  rewrite <- (app_nil_r bs), (@utf8_decode_ignore_app bs s [] H). apply app_nil_r.
Qed.

Lemma utf8_decode_ignore_encode_witness :
  utf8_decode_ignore [70; 226; 130; 172; 240; 159; 154; 169]%N = [70; 8364; 128681]%N.
Proof.
  apply (@utf8_decode_ignore_encode [70; 8364; 128681]%N). vm_compute. reflexivity.
Defined.

(** X8: Whatever the octets, the decoded text can be encoded again (it holds
    no surrogate and nothing beyond U+10FFFF), and encoding it gives the
    input with some octets left out: the decoder drops octets, it never
    alters or reorders them. *)
Theorem utf8_decode_ignore_kept (bs : bytes) :
  exists kept, utf8_encode (utf8_decode_ignore bs) = Some kept /\ subseq kept bs.
Proof. exact (@utf8_decode_ignore_kept_len (length bs) bs (le_n _)). Qed.

Lemma utf8_decode_ignore_eq bs :
  utf8_decode_ignore bs
  = match bs with
    | [] => []
    | b0 :: r0 =>
        if (b0 <? 128)%N then b0 :: utf8_decode_ignore r0
        else if (b0 <? 194)%N then utf8_decode_ignore r0
        else if (b0 <? 224)%N then
          match r0 with
          | [] => []
          | b1 :: r1 =>
              if continuation b1
              then ((b0 - 192) * 64 + (b1 - 128))%N :: utf8_decode_ignore r1
              else utf8_decode_ignore r0
          end
        else if (b0 <? 240)%N then
          match r0 with
          | [] => []
          | b1 :: r1 =>
              if between (if (b0 =? 224)%N then 160 else 128)
                         (if (b0 =? 237)%N then 159 else 191) b1
              then
                match r1 with
                | [] => []
                | b2 :: r2 =>
                    if continuation b2
                    then ((b0 - 224) * 4096 + (b1 - 128) * 64 + (b2 - 128))%N
                         :: utf8_decode_ignore r2
                    else utf8_decode_ignore r1
                end
              else utf8_decode_ignore r0
          end
        else if (b0 <? 245)%N then
          match r0 with
          | [] => []
          | b1 :: r1 =>
              if between (if (b0 =? 240)%N then 144 else 128)
                         (if (b0 =? 244)%N then 143 else 191) b1
              then
                match r1 with
                | [] => []
                | b2 :: r2 =>
                    if continuation b2 then
                      match r2 with
                      | [] => []
                      | b3 :: r3 =>
                          if continuation b3
                          then ((b0 - 240) * 262144 + (b1 - 128) * 4096
                                + (b2 - 128) * 64 + (b3 - 128))%N
                               :: utf8_decode_ignore r3
                          else utf8_decode_ignore r2
                      end
                    else utf8_decode_ignore r1
                end
              else utf8_decode_ignore r0
          end
        else utf8_decode_ignore r0
    end.
Proof. destruct bs; reflexivity. Qed.

Lemma utf8_decode_ignore_low c r :
  (c < 128)%N -> utf8_decode_ignore (c :: r) = c :: utf8_decode_ignore r.
Proof. intro H. rewrite utf8_decode_ignore_eq. now rewrite (ltb_true H). Qed.

Lemma low_not_continuation c : (c < 128)%N -> continuation c = false.
Proof. intro H. apply between_false. lia. Qed.

Lemma low_not_second b0 c lo hi :
  (c < 128)%N ->
  between (if (b0 =? lo)%N then 160 else 128) hi c = false
  /\ between (if (b0 =? lo)%N then 144 else 128) hi c = false.
Proof.
  intro H. split; apply between_false; destruct (b0 =? lo)%N; lia.
Qed.

Lemma utf8_decode_ignore_before c r : (c < 128)%N -> forall a,
  utf8_decode_ignore (a ++ c :: r)
  = utf8_decode_ignore a ++ c :: utf8_decode_ignore r.
Proof.
  intros Hc.
  pose proof (utf8_decode_ignore_low r Hc) as Low.
  pose proof (low_not_continuation Hc) as NC.
  assert (G : forall n a, length a <= n ->
                utf8_decode_ignore (a ++ c :: r)
                = utf8_decode_ignore a ++ c :: utf8_decode_ignore r).
  { induction n as [|n IH]; intros a Hn.
    { destruct a; [exact Low | cbn [length] in Hn; lia]. }
    destruct a as [|b0 r0]; [exact Low|]. cbn [length] in Hn.
    rewrite (utf8_decode_ignore_eq ((b0 :: r0) ++ c :: r)),
      (utf8_decode_ignore_eq (b0 :: r0)).
    cbn [app].
    destruct (b0 <? 128)%N; [cbn [app]; f_equal; apply IH; lia|].
    destruct (b0 <? 194)%N; [apply IH; lia|].
    destruct (b0 <? 224)%N.
    { destruct r0 as [|b1 r1]; cbn [app length] in *.
      - now rewrite NC, Low.
      - destruct (continuation b1).
        + cbn [app]. f_equal. apply IH. lia.
        + apply (IH (b1 :: r1)). cbn [length]. lia. }
    destruct (b0 <? 240)%N.
    { destruct r0 as [|b1 r1]; cbn [app length] in *.
      - rewrite (proj1 (low_not_second b0 224 _ Hc)). exact Low.
      - destruct (between _ _ b1).
        + destruct r1 as [|b2 r2]; cbn [app length] in *.
          * now rewrite NC, Low.
          * destruct (continuation b2).
            -- cbn [app]. f_equal. apply IH. lia.
            -- apply (IH (b2 :: r2)). cbn [length]. lia.
        + apply (IH (b1 :: r1)). cbn [length]. lia. }
    destruct (b0 <? 245)%N; [|apply IH; lia].
    destruct r0 as [|b1 r1]; cbn [app length] in *.
    - rewrite (proj2 (low_not_second b0 240 _ Hc)). exact Low.
    - destruct (between _ _ b1).
      + destruct r1 as [|b2 r2]; cbn [app length] in *.
        * now rewrite NC, Low.
        * destruct (continuation b2).
          -- destruct r2 as [|b3 r3]; cbn [app length] in *.
             ++ now rewrite NC, Low.
             ++ destruct (continuation b3).
                ** cbn [app]. f_equal. apply IH. lia.
                ** apply (IH (b3 :: r3)). cbn [length]. lia.
          -- apply (IH (b2 :: r2)). cbn [length]. lia.
      + apply (IH (b1 :: r1)). cbn [length]. lia. }
  intro a. exact (G (length a) a (le_n _)).
Qed.

(** X9: ASCII text survives the decoding whatever surrounds it: the octets
    before it and the octets after it are decoded on their own, and the
    text stands between the two results unchanged. A flag in ASCII inside a
    binary file is still there to be found. *)
Theorem utf8_decode_ignore_ascii (a text b : bytes) :
  text <> [] -> Forall (fun c => (c < 128)%N) text ->
  utf8_decode_ignore (a ++ text ++ b)
  = utf8_decode_ignore a ++ text ++ utf8_decode_ignore b.
Proof.
  intros Hne Ht. destruct text as [|c text]; [contradiction|].
  inversion Ht as [|? ? Hc Ht']; subst. cbn [app].
  rewrite (utf8_decode_ignore_before _ Hc). do 2 f_equal.
  apply utf8_decode_ignore_app. now apply utf8_decode_ascii.
Qed.

Lemma utf8_decode_ignore_ascii_witness :
  utf8_decode_ignore ([137; 80; 78; 71; 226] ++ py "FLAG{x}" ++ [130; 172; 255])%N
  = utf8_decode_ignore [137; 80; 78; 71; 226]%N ++ py "FLAG{x}"
    ++ utf8_decode_ignore [130; 172; 255]%N.
Proof.
  apply (@utf8_decode_ignore_ascii [137; 80; 78; 71; 226]%N (py "FLAG{x}")
           [130; 172; 255]%N).
  - discriminate.
  - repeat constructor.
Defined.

(** ** The comments of [extract_comments] *)

Lemma scan_in m s : forall skip pos f,
  In f (scan m s skip pos) ->
  exists a s' ma st marks rest,
    s = a ++ s' /\ m ma st s' = Some (marks, rest)
    /\ value f = reported s' marks rest.
Proof.
  induction s as [|c s IH]; intros skip pos f H; cbn [scan] in H.
  - destruct skip; [|contradiction].
    destruct (m false 0 []) as [[marks rest]|] eqn:E; [|contradiction].
    destruct H as [<-|[]]. now exists [], [], false, 0, marks, rest.
  - assert (Later : forall k q, In f (scan m s k q) ->
              exists a s' ma st marks rest,
                c :: s = a ++ s' /\ m ma st s' = Some (marks, rest)
                /\ value f = reported s' marks rest).
    { intros k q Hin.
      destruct (IH _ _ _ Hin) as (a & s' & ma & st & marks & rest & -> & R & V).
      now exists (c :: a), s', ma, st, marks, rest. }
    destruct skip as [|k]; [|eauto].
    destruct (m false 0 (c :: s)) as [[marks rest]|] eqn:E; [|eauto].
    destruct (length (c :: s) - length rest) as [|n].
    + destruct H as [<-|H]; [now exists [], (c :: s), false, 0, marks, rest|].
      destruct (m true (length (c :: s)) (c :: s)) as [[marks' rest']|] eqn:E';
        [|eauto].
      destruct H as [<-|H]; [|eauto].
      now exists [], (c :: s), true, (length (c :: s)), marks', rest'.
    + destruct H as [<-|H]; [|eauto].
      now exists [], (c :: s), false, 0, marks, rest.
Qed.


Lemma at_end_cases s : at_end s = true -> s = [] \/ s = [c_newline].
Proof.
  destruct s as [|c [|d s]]; cbn [at_end]; intro H; try discriminate.
  - now left.
  - apply N.eqb_eq in H. subst. now right.
Qed.

Lemma any_no_newline w :
  Forall (fun c => accepts AAny c = true) w <-> ~ In c_newline w.
Proof.
  rewrite Forall_forall. cbn [accepts]. split.
  - intros H Hin. specialize (H _ Hin). now rewrite N.eqb_refl in H.
  - intros H c Hc. apply negb_true_iff, N.eqb_neq. intros ->. contradiction.
Qed.

Lemma line_comment_inv ma st s marks rest :
  xmatch line_comment ma st s = Some (marks, rest) ->
  exists w, s = c_slash :: c_slash :: w ++ rest
            /\ w <> [] /\ ~ In c_newline w /\ at_end rest = true /\ marks = [].
Proof.
  unfold line_comment. cbn [xmatch].
  destruct s as [|c0 s]; [discriminate|]. cbn [accepts].
  destruct (N.eqb_spec c0 c_slash) as [->|]; [|discriminate].
  destruct s as [|c1 s]; [discriminate|].
  destruct (N.eqb_spec c1 c_slash) as [->|]; [|discriminate].
  intro H. apply rep_sound in H as (w & s' & -> & Hw & Hlo & _ & Hk).
  destruct (at_end s') eqn:E; [|discriminate].
  destruct (ma && Nat.eqb (length s') st); [discriminate|].
  injection Hk as <- <-. exists w. repeat split; try assumption.
  - intros ->. cbn [length] in Hlo. lia.
  - now apply any_no_newline.
Qed.








Lemma block_comment_inv m :
  matches block_comment m ->
  exists w, m = c_slash :: c_star :: w ++ [c_star; c_slash]
            /\ w <> [] /\ ~ In c_newline w.
Proof.
  unfold block_comment. intro H.
  inversion H as [|a1 p1 x1 m1 A1 M1| | |]; subst. clear H.
  inversion M1 as [|a2 p2 x2 m2 A2 M2| | |]; subst. clear M1.
  inversion M2 as [| |a3 lo hi g p3 w m3 Hw Hlo _ M3| |]; subst. clear M2.
  inversion M3 as [|a4 p4 x4 m4 A4 M4| | |]; subst. clear M3.
  inversion M4 as [|a5 p5 x5 m5 A5 M5| | |]; subst. clear M4.
  inversion M5; subst. clear M5.
  cbn [accepts] in A1, A2, A4, A5.
  apply N.eqb_eq in A1, A2, A4, A5. subst.
  exists w. repeat split.
  - intros ->. cbn [length] in Hlo. lia.
  - now apply any_no_newline.
Qed.

Lemma groupless_block_comment : groupless block_comment.
Proof.
  split; intro H; cbv in H; repeat (destruct H as [H|H]; [discriminate H|]);
    destruct H.
Qed.

Lemma findall_block_inv source v :
  In v (findall block_comment source) ->
  exists w pre post,
    v = c_slash :: c_star :: w ++ [c_star; c_slash]
    /\ w <> [] /\ ~ In c_newline w /\ source = pre ++ v ++ post.
Proof.
  intro H. apply findall_in in H as (a & s' & ma & st & marks & rest & -> & R & ->).
  pose proof (@sre_match_groupless block_comment ma st groupless_block_comment _ _ _ R) as ->.
  apply sre_match_sound in R as (m & -> & M & _).
  apply block_comment_inv in M as (w & -> & Hw & Hn).
  exists w, a, rest. cbn [reported]. rewrite take_until_app. now repeat split.
Qed.

Lemma xfindall_line_inv source v :
  In v (xfindall line_comment source) ->
  exists w pre tail,
    v = c_slash :: c_slash :: w /\ w <> [] /\ ~ In c_newline w
    /\ source = pre ++ v ++ tail /\ (tail = [] \/ tail = [c_newline]).
Proof.
  unfold xfindall. intro H. apply in_map_iff in H as (f & <- & H).
  apply scan_in in H as (a & s' & ma & st & marks & rest & -> & R & ->).
  apply line_comment_inv in R as (w & -> & Hw & Hn & He & ->).
  exists w, a, rest. cbn [reported].
  replace (take_until _ rest) with (c_slash :: c_slash :: w)
    by (symmetry; exact (take_until_app (c_slash :: c_slash :: w) rest)).
  repeat split; try assumption. now apply at_end_cases.
Qed.









Lemma extract_comments_unfold (html_comments : str -> list str) source_code :
  extract_comments html_comments source_code
  = html_comments source_code ++ findall block_comment source_code
    ++ xfindall line_comment source_code.
Proof. unfold extract_comments. cbv zeta. cbn [app]. now rewrite <- app_assoc. Qed.

(** X10: Every comment that [extract_comments] returns is a comment of the HTML
    parser, or a text "/*", one or more characters, "*/" of the source, or a
    text "//" and one or more characters with which the source ends, a
    final line break apart. A block or line comment holds no line break:
    a block comment that runs over several lines is not extracted, and
    neither is a "//" comment on a line before the last. *)
Theorem extract_comments_kinds (html_comments : str -> list str)
    (source_code v : str) :
  In v (extract_comments html_comments source_code) ->
  In v (html_comments source_code)
  \/ (exists w pre post,
        v = py "/*" ++ w ++ py "*/" /\ w <> [] /\ ~ In c_newline v
        /\ source_code = pre ++ v ++ post)
  \/ (exists w pre tail,
        v = py "//" ++ w /\ w <> [] /\ ~ In c_newline v
        /\ source_code = pre ++ v ++ tail /\ (tail = [] \/ tail = [c_newline])).
Proof.
  rewrite extract_comments_unfold, !in_app_iff.
  intros [H|[H|H]]; [now left| |].
  - right. left. apply findall_block_inv in H as (w & pre & post & -> & Hw & Hn & E).
    exists w, pre, post. repeat split; try assumption.
    intros [C|[C|C]]; [discriminate C | discriminate C|].
    apply in_app_iff in C as [C|[C|[C|[]]]]; [contradiction | discriminate C | discriminate C].
  - right. right.
    apply xfindall_line_inv in H as (w & pre & tail & -> & Hw & Hn & E & T).
    exists w, pre, tail. repeat split; try assumption.
    intros [C|[C|C]]; [discriminate C | discriminate C | contradiction].
Qed.

Lemma extract_comments_kinds_witness :
  In (py "/* a */") ((fun _ : str => []) (py "x /* a */ y"))
  \/ (exists w pre post,
        py "/* a */" = py "/*" ++ w ++ py "*/" /\ w <> [] /\ ~ In c_newline (py "/* a */")
        /\ py "x /* a */ y" = pre ++ py "/* a */" ++ post)
  \/ (exists w pre tail,
        py "/* a */" = py "//" ++ w /\ w <> [] /\ ~ In c_newline (py "/* a */")
        /\ py "x /* a */ y" = pre ++ py "/* a */" ++ tail
        /\ (tail = [] \/ tail = [c_newline])).
Proof.
  apply (@extract_comments_kinds (fun _ => []) (py "x /* a */ y") (py "/* a */")).
  vm_compute. left. reflexivity.
Defined.






(** ** The exceptions of the flag search, and the search over the files *)

Lemma groupless_anchored anchor : groupless (anchored anchor).
Proof.
  unfold groupless, anchored. split; intro H; apply in_app_iff in H as [H|H].
  - apply in_map_iff in H as (c & E & _). discriminate E.
  - repeat (destruct H as [H|H]; [discriminate H|]). destruct H.
  - apply in_map_iff in H as (c & E & _). discriminate E.
  - repeat (destruct H as [H|H]; [discriminate H|]). destruct H.
Qed.

Lemma anchored_encodable anchor : forall m,
  Forall (fun c => (c < 128)%N) anchor -> matches (anchored anchor) m ->
  Forall (fun c => utf8_char c <> None) m.
Proof.
  unfold anchored. induction anchor as [|c anchor IH]; intros m Ha M; cbn [map app] in M.
  - inversion M as [| |a1 lo1 hi1 g1 p1 w1 m1 Hw1 _ _ M1| |]; subst. clear M.
    inversion M1 as [| |a2 lo2 hi2 g2 p2 w2 m2 Hw2 _ _ M2| |]; subst. clear M1.
    inversion M2 as [|a3 p3 x m3 Hx M3| | |]; subst. clear M2.
    inversion M3; subst. clear M3.
    apply Forall_app. split; [|apply Forall_app; split].
    + eapply Forall_impl; [|exact Hw1]. intros x' Hx'. apply ascii_encodable.
      apply classy_spec in Hx'. lia.
    + eapply Forall_impl; [|exact Hw2]. intros x' Hx'. apply ascii_encodable.
      cbn [accepts existsb xorb] in Hx'. rewrite orb_false_r in Hx'.
      unfold in_range in Hx'. cbn [fst snd] in Hx'. apply between_spec in Hx'.
      unfold c_equal in Hx'. lia.
    + constructor; [|constructor]. now apply space_encodable.
  - inversion Ha as [|? ? Hc Ha']; subst.
    inversion M as [|a1 p1 x m1 Hx M1| | |]; subst. clear M.
    cbn [accepts] in Hx. apply N.eqb_eq in Hx. subst x.
    constructor; [now apply ascii_encodable | now apply IH].
Qed.

Lemma base64_values_raises xs e :
  base64_values xs = Raises e -> exists x, In x xs /\ base64_value x = Raises e.
Proof.
  induction xs as [|x xs IH]; cbn [base64_values]; [discriminate|].
  destruct (base64_value x) as [v|e'] eqn:V; cbn [bind].
  - destruct (base64_values xs) as [vs|e'']; cbn [bind]; [discriminate|].
    intros [= ->]. destruct (IH eq_refl) as (y & Hy & Ey). exists y. split; [now right | assumption].
  - intros [= ->]. exists x. split; [now left | assumption].
Qed.

Lemma base64_value_raises x e :
  utf8_encode x <> None -> base64_value x = Raises e ->
  e = binascii_Error \/ e = UnicodeDecodeError.
Proof.
  unfold base64_value. intro H. destruct (utf8_encode x) as [data|]; [|contradiction].
  cbn [or_raise bind]. destruct (b64decode data) as [raw|]; cbn [or_raise bind].
  - destruct (utf8_decode raw); cbn [or_raise]; [discriminate|]. intros [= <-]. now right.
  - intros [= <-]. now left.
Qed.

Lemma possible_flags_raises crib text e :
  literal crib -> possible_flags crib text = Raises e ->
  e = binascii_Error \/ e = UnicodeDecodeError.
Proof.
  intros Hlit. rewrite possible_flags_literal by assumption. unfold extract.
  cbn [plaintext_pattern rot13_pattern base64_pattern].
  set (anchor := firstn 3 (b64encode crib)).
  destruct (findall (anchored anchor) text) as [|x xs] eqn:F.
  { destruct (findall (fuzzy crib) text), (findall (fuzzy (rot13 crib)) text); discriminate. }
  destruct (base64_values (x :: xs)) as [decoded|e'] eqn:V; cbn [bind].
  { destruct (findall (fuzzy crib) text), (findall (fuzzy (rot13 crib)) text); discriminate. }
  intro H. assert (e' = e) as ->.
  { destruct (findall (fuzzy crib) text), (findall (fuzzy (rot13 crib)) text);
      now injection H. }
  apply base64_values_raises in V as (y & Hy & Ey).
  apply (@base64_value_raises y); [|assumption].
  rewrite <- F in Hy.
  apply findall_in in Hy as (a & s' & ma & st & marks & rest & _ & R & ->).
  pose proof (@sre_match_groupless (anchored anchor) ma st (groupless_anchored anchor)
                _ _ _ R) as ->.
  apply sre_match_sound in R as (m & -> & M & _).
  cbn [reported]. rewrite take_until_app.
  apply utf8_encode_forall, (@anchored_encodable anchor); [|assumption].
  unfold anchor. apply Forall_forall. intros c Hc. apply in_firstn in Hc.
  pose proof (b64encode_ascii crib) as A. rewrite Forall_forall in A. now apply A.
Qed.

(** X14: With a crib of ASCII characters that are literal in a regular
    expression, [parse_for_flag] raises one of three exceptions:
    [binascii.Error] or [UnicodeDecodeError], from the decoding of a base64
    match, with nothing printed; or [UnicodeEncodeError], from [print], and
    that only for a text that UTF-8 cannot encode (one that holds a
    surrogate). No text makes a pattern fail to compile or a base64 match
    fail to encode, and on a text that UTF-8 can encode only a base64 match
    that does not decode makes the call raise. *)
Theorem parse_for_flag_raises (crib text : str) (out : stdout) (e : exn) :
  literal crib -> fst (parse_for_flag crib text out) = Raises e ->
  ((e = binascii_Error \/ e = UnicodeDecodeError)
   /\ parse_for_flag crib text out = (Raises e, out))
  \/ (e = UnicodeEncodeError /\ utf8_encode text = None).
Proof.
  intros Hlit H. apply parse_for_flag_raises_cases in H as [H|H]; [left | now right].
  split; [exact (@possible_flags_raises crib text e Hlit H)|].
  exact (@parse_for_flag_search_raises crib text e out H).
Qed.

Lemma parse_for_flag_raises_witness :
  (((binascii_Error = binascii_Error \/ binascii_Error = UnicodeDecodeError)
    /\ parse_for_flag (py "FLAG") (py "RkxBR3t0ZXN0fQ== Rkxab ") []
       = (Raises binascii_Error, []))
   \/ (binascii_Error = UnicodeEncodeError
       /\ utf8_encode (py "RkxBR3t0ZXN0fQ== Rkxab ") = None))
  /\ (((UnicodeEncodeError = binascii_Error \/ UnicodeEncodeError = UnicodeDecodeError)
       /\ parse_for_flag (py "FLAG") (py "FLAG{" ++ [55296%N] ++ py "}") []
          = (Raises UnicodeEncodeError, []))
      \/ (UnicodeEncodeError = UnicodeEncodeError
          /\ utf8_encode (py "FLAG{" ++ [55296%N] ++ py "}") = None)).
Proof.
  split.
  - apply (@parse_for_flag_raises (py "FLAG") (py "RkxBR3t0ZXN0fQ== Rkxab ") []
             binascii_Error).
    + repeat constructor.
    + vm_compute. reflexivity.
  - apply (@parse_for_flag_raises (py "FLAG") (py "FLAG{" ++ [55296%N] ++ py "}") []
             UnicodeEncodeError).
    + repeat constructor.
    + vm_compute. reflexivity.
Defined.












(** ** [mirror] *)

Lemma join_split sep s : join_str [sep] (split sep s) = s.
Proof.
  induction s as [|c s IH]; [reflexivity|]. cbn [split].
  pose proof (split_nonempty sep s) as N.
  destruct (N.eqb_spec c sep) as [->|_].
  - destruct (split sep s) as [|f fs]; [contradiction|].
    cbn [join_str app] in *. now rewrite IH.
  - destruct (split sep s) as [|f [|g fs]]; [contradiction| |].
    + cbn [join_str] in *. now rewrite IH.
    + cbn [join_str app] in *. now rewrite IH.
Qed.

Lemma join_str_last sep l x :
  l <> [] -> join_str sep (l ++ [x]) = join_str sep l ++ sep ++ x.
Proof.
  induction l as [|y l IH]; intro H; [contradiction|].
  destruct l as [|z l]; [reflexivity|].
  cbn [app join_str] in *. rewrite IH by discriminate. now rewrite <- !app_assoc.
Qed.

Lemma split_plain sep s : ~ In sep s -> split sep s = [s].
Proof.
  induction s as [|c s IH]; intro H; [reflexivity|]. cbn [split].
  destruct (N.eqb_spec c sep) as [->|_]; [exfalso; apply H; now left|].
  rewrite IH; [reflexivity|]. intro Hin. apply H. now right.
Qed.

Lemma split_many sep s : In sep s -> 1 < length (split sep s).
Proof.
  induction s as [|c s IH]; intro H; [destruct H|]. cbn [split].
  pose proof (split_nonempty sep s) as N.
  destruct (N.eqb_spec c sep) as [->|Hc].
  - destruct (split sep s); [contradiction | cbn [length]; lia].
  - destruct H as [H|H]; [congruence|]. specialize (IH H).
    destruct (split sep s); [contradiction | exact IH].
Qed.

(** A reference with a separator is its folders, the separator and its
    file name, and the file name holds no separator. *)
Lemma split_folders sep s :
  In sep s ->
  removelast (split sep s) <> []
  /\ s = join_str [sep] (removelast (split sep s)) ++ sep :: last (split sep s) []
  /\ ~ In sep (last (split sep s) []).
Proof.
  intro H. pose proof (split_many sep s H) as L.
  pose proof (split_nonempty sep s) as N.
  pose proof (@app_removelast_last str (split sep s) [] N) as E.
  assert (R : removelast (split sep s) <> []).
  { intro R. rewrite R in E. rewrite E in L. cbn [app length] in L. lia. }
  split; [assumption|]. split.
  - rewrite <- (join_split sep s) at 1. rewrite E at 1.
    now rewrite join_str_last.
  - apply (@split_fields sep s). rewrite E at 2. apply in_app_iff. right. now left.
Qed.

Lemma startswith_cons c s x :
  startswith (c :: s) [x] = (x =? c)%N.
Proof. unfold startswith. cbn [after_prefix]. now destruct (x =? c)%N. Qed.

Lemma endswith_last a c : endswith (a ++ [c]) [c] = true.
Proof.
  unfold endswith. rewrite rev_app_distr. cbn [rev app].
  rewrite startswith_cons. apply N.eqb_refl.
Qed.

Lemma Client_init_dir u d :
  endswith (webwizard_dir (Client_init u d)) (py "/") = true.
Proof.
  cbn [Client_init webwizard_dir]. unfold path_join.
  replace (startswith (py "webwizard_output/") (py "/")) with false by reflexivity.
  change (py "webwizard_output/") with (py "webwizard_output" ++ [c_slash]).
  destruct (Nat.eqb (length d) 0 || endswith d (py "/")).
  - rewrite app_assoc. apply endswith_last.
  - rewrite !app_assoc. apply endswith_last.
Qed.

Lemma path_join_below dir x :
  endswith dir (py "/") = true -> startswith x (py "/") = false ->
  path_join dir x = dir ++ x.
Proof. intros H1 H2. unfold path_join. now rewrite H2, H1, orb_true_r. Qed.

Lemma path_join_absolute dir x :
  startswith x (py "/") = true -> path_join dir x = x.
Proof. intro H. unfold path_join. now rewrite H. Qed.

(** The path that lines 250-267 compute for a reference [v]. *)
Lemma local_path_target dir v :
  endswith dir (py "/") = true -> In c_slash v ->
  path_join dir (join_str (py "/") (removelast (split c_slash v)))
  ++ py "/" ++ last (split c_slash v) []
  = local_target dir v.
Proof.
  intros Hd Hv. destruct (@split_folders c_slash v Hv) as (_ & E & F).
  change (py "/") with [c_slash] in *.
  remember (join_str [c_slash] (removelast (split c_slash v))) as J eqn:EJ.
  remember (last (split c_slash v) []) as file eqn:Ef.
  clear EJ Ef Hv. subst v. unfold local_target.
  change (py "/") with [c_slash].
  destruct J as [|j J]; cbn [app tl].
  - rewrite startswith_cons, N.eqb_refl. cbn [andb].
    replace (mem c_slash file) with false
      by (symmetry; apply not_true_is_false; now rewrite mem_In).
    rewrite path_join_below by (assumption || reflexivity).
    now rewrite app_nil_r.
  - rewrite startswith_cons.
    destruct (N.eqb_spec c_slash j) as [<-|Hj]; cbn [andb].
    + replace (mem c_slash (J ++ c_slash :: file)) with true
        by (symmetry; apply mem_In, in_app_iff; right; now left).
      rewrite path_join_absolute; [reflexivity|].
      change (py "/") with [c_slash]. rewrite startswith_cons. apply N.eqb_refl.
    + rewrite path_join_below; [now rewrite <- app_assoc | assumption|].
      change (py "/") with [c_slash]. rewrite startswith_cons. now apply N.eqb_neq.
Qed.

Lemma writes_app l1 l2 : writes (l1 ++ l2) = writes l1 ++ writes l2.
Proof. unfold writes. apply flat_map_app. Qed.

Lemma perform_inv (permits : list event -> event -> bool) e log u log' :
  perform permits e log = (Return u, log') -> log' = log ++ [e].
Proof.
  unfold perform. destruct (permits log e); [|discriminate]. now intros [= _ <-].
Qed.

Lemma io_bind_inv {A B : Type} (m : io A) (f : A -> io B) log b log' :
  io_bind m f log = (Return b, log') ->
  exists a log1, m log = (Return a, log1) /\ f a log1 = (Return b, log').
Proof.
  unfold io_bind. destruct (m log) as [[a|e] log1]; [|discriminate].
  intro H. now exists a, log1.
Qed.

Lemma io_lift_inv {A : Type} (r : outcome A) log a log' :
  io_lift r log = (Return a, log') -> r = Return a /\ log' = log.
Proof. unfold io_lift. now intros [= -> ->]. Qed.

Lemma or_else_inv {A : Type} e (o : option A) a :
  or_else e o = Return a -> o = Some a.
Proof. destruct o; [now intros [= ->] | discriminate]. Qed.

Lemma ensure_writes (permits : list event -> event -> bool) (there : bool) e log u log' :
  (if negb there then perform permits e else io_ret tt) log = (Return u, log') ->
  (forall path data, e <> WriteFile path data) ->
  writes log' = writes log.
Proof.
  intros H He. destruct there; cbn [negb] in H.
  - now injection H as _ <-.
  - apply perform_inv in H. subst log'. rewrite writes_app.
    destruct e; cbn [writes flat_map app]; try apply app_nil_r.
    now contradiction (He path data).
Qed.

Lemma write_file_writes (permits : list event -> event -> bool) path data log log' :
  (_ <<- perform permits (OpenFile path) ;; perform permits (WriteFile path data)) log
  = (Return tt, log') ->
  writes log' = writes log ++ [(path, data)].
Proof.
  intro H. apply io_bind_inv in H as (u & log1 & H1 & H2).
  apply perform_inv in H1, H2. subst.
  rewrite !writes_app. cbn [writes flat_map app]. now rewrite app_nil_r.
Qed.

Lemma mirror_file_writes (get : str -> option response)
    (isdir : list event -> str -> bool) (permits : list event -> event -> bool)
    (self : Client) (link url : str) (log log' : list event) :
  endswith (webwizard_dir self) (py "/") = true ->
  mirror_file get isdir permits self link url log = (Return tt, log') ->
  exists i, get url = Some i
            /\ writes log'
               = writes log
                 ++ [(local_target (webwizard_dir self) (skipn (length link) url),
                      content i)].
Proof.
  intros Hd. unfold mirror_file.
  set (v := skipn (length link) url).
  destruct (in_dec N.eq_dec c_slash v) as [Hv|Hv].
  - replace (Nat.ltb 1 (length (split c_slash v))) with true
      by (symmetry; apply Nat.ltb_lt; now apply split_many).
    rewrite (@local_path_target (webwizard_dir self) v Hd Hv).
    intro H.
    apply io_bind_inv in H as (there & log1 & H1 & H).
    injection H1 as _ <-.
    apply io_bind_inv in H as (u & log2 & H2 & H).
    apply ensure_writes in H2; [|discriminate].
    apply io_bind_inv in H as (i & log3 & H3 & H).
    apply io_lift_inv in H3 as [H3 ->]. apply or_else_inv in H3.
    apply write_file_writes in H. exists i. split; [assumption|]. now rewrite H, H2.
  - rewrite (@split_plain c_slash v Hv). cbn [length Nat.ltb Nat.leb].
    intro H.
    apply io_bind_inv in H as (i & log3 & H3 & H).
    apply io_lift_inv in H3 as [H3 ->]. apply or_else_inv in H3.
    apply io_bind_inv in H as (path0 & log4 & H4 & H).
    apply io_lift_inv in H4 as [H4 ->]. injection H4 as <-.
    apply write_file_writes in H. exists i. split; [assumption|]. rewrite H.
    do 3 f_equal. unfold local_target. destruct v as [|c v'].
    + rewrite path_join_below by (assumption || reflexivity). reflexivity.
    + change (py "/") with [c_slash]. rewrite startswith_cons.
      destruct (N.eqb_spec c_slash c) as [<-|Hc]; [exfalso; apply Hv; now left|].
      cbn [andb]. apply path_join_below; [assumption|].
      change (py "/") with [c_slash]. rewrite startswith_cons. now apply N.eqb_neq.
Qed.

Lemma mirror_loop_writes (get : str -> option response)
    (isdir : list event -> str -> bool) (permits : list event -> event -> bool)
    (self : Client) (link : str) (all_files : list str) :
  endswith (webwizard_dir self) (py "/") = true ->
  forall log log',
    mirror_loop get isdir permits self link all_files log = (Return tt, log') ->
    exists ws,
      Forall2 (fun url w =>
                 exists i, get url = Some i
                           /\ w = (local_target (webwizard_dir self)
                                                (skipn (length link) url), content i))
              all_files ws
      /\ writes log' = writes log ++ ws.
Proof.
  intro Hd. induction all_files as [|url all_files IH]; intros log log' H;
    cbn [mirror_loop] in H.
  - injection H as <-. exists []. split; [constructor | now rewrite app_nil_r].
  - apply io_bind_inv in H as ([] & log1 & H1 & H).
    apply (@mirror_file_writes get isdir permits self link url log log1 Hd) in H1
      as (i & G & W1).
    apply IH in H as (ws & F & W).
    eexists (_ :: ws). split.
    + constructor; [|exact F]. exists i. split; [assumption | reflexivity].
    + now rewrite W, W1, <- app_assoc.
Qed.

Lemma mirror_inv (get : str -> option response) (bs : response -> soup)
    (isdir : list event -> str -> bool) (permits : list event -> event -> bool)
    (u d link : str) (log log' : list event) :
  let self := Client_init u d in
  mirror get bs isdir permits self link log = (Return tt, log') ->
  exists r ws,
    get link = Some r
    /\ Forall2 (fun url w =>
                  exists i, get url = Some i
                            /\ w = (local_target (webwizard_dir self)
                                                 (skipn (length link) url), content i))
               (remote_files link (bs r)) ws
    /\ writes log'
       = writes log ++ ws
         ++ [(webwizard_dir self ++ py "index.html", content r ++ [c_newline])].
Proof.
  intros self H. unfold mirror in H.
  apply io_bind_inv in H as (all_files & log0 & H0 & H).
  apply io_lift_inv in H0 as [H0 ->]. unfold get_remote_files in H0.
  destruct (get link) as [r|] eqn:G; [|discriminate]. cbn [or_else and_then] in H0.
  injection H0 as <-.
  apply io_bind_inv in H as (there & log1 & H1 & H). injection H1 as _ <-.
  apply io_bind_inv in H as (u1 & log2 & H2 & H).
  apply ensure_writes in H2; [|discriminate].
  apply io_bind_inv in H as ([] & log3 & H3 & H).
  apply (@mirror_loop_writes get isdir permits self link _ (Client_init_dir u d)) in H3
    as (ws & F & W3).
  apply io_bind_inv in H as (u4 & log4 & H4 & H). apply perform_inv in H4. subst log4.
  apply io_bind_inv in H as (r' & log5 & H5 & H).
  apply io_lift_inv in H5 as [H5 ->]. cbn [or_else] in H5. injection H5 as <-.
  apply perform_inv in H. subst log'.
  exists r, ws. split; [reflexivity|]. split; [exact F|].
  rewrite !writes_app, W3, H2. cbn [writes flat_map app].
  rewrite path_join_below by (apply Client_init_dir || reflexivity).
  now rewrite app_nil_r, <- app_assoc.
Qed.

(** X19: When [mirror] returns, it has written one file for every URL of
    [get_remote_files], in the order of the list and with the octets of the
    response to that URL, and then "index.html" in the output directory,
    with the octets of the page and a line break added. The file of a
    reference [v] of the page lies at the output directory followed by [v],
    unless [v] begins with "/" and names a folder: then it lies at [v]
    itself. Other files are not written. *)
Theorem mirror_writes (get : str -> option response) (bs : response -> soup)
    (isdir : list event -> str -> bool) (permits : list event -> event -> bool)
    (u d link : str) (log log' : list event) :
  let self := Client_init u d in
  mirror get bs isdir permits self link log = (Return tt, log') ->
  exists r all_files ws,
    get link = Some r
    /\ get_remote_files get bs link = Return all_files
    /\ Forall2 (fun url w =>
                  exists v i, url = link ++ v /\ get url = Some i
                              /\ w = (if startswith v (py "/") && mem c_slash (tl v)
                                      then v else webwizard_dir self ++ v,
                                      content i))
               all_files ws
    /\ writes log'
       = writes log ++ ws
         ++ [(webwizard_dir self ++ py "index.html", content r ++ [c_newline])].
Proof.
  intros self H. apply mirror_inv in H as (r & ws & G & F & W).
  exists r, (remote_files link (bs r)), ws.
  split; [assumption|]. split; [unfold get_remote_files; now rewrite G|].
  split; [|assumption].
  assert (P : forall url, In url (remote_files link (bs r)) -> exists v, url = link ++ v).
  { intros url Hu. unfold remote_files in Hu. rewrite !in_app_iff in Hu.
    destruct Hu as [Hu|[Hu|Hu]]; apply remote_group in Hu;
      destruct Hu as (t & v & _ & _ & _ & _ & _ & ->); now exists v. }
  clear W. induction F as [|url w urls ws' (i & Gi & ->) F IH]; constructor.
  - destruct (P url (or_introl eq_refl)) as (v & ->).
    exists v, i. split; [reflexivity|]. split; [assumption|].
    now rewrite skipn_app_length.
  - apply IH. intros url' Hu. apply P. now right.
Qed.


Lemma mirror_writes_witness :
  let get := fun _ : str => Some (mk_response 200 (py "<html>")) in
  let bs := fun _ : response =>
              [mk_tag (py "script") [(py "src", py "/static/app.js")];
               mk_tag (py "link") [(py "href", py "css/site.css")]] in
  let isdir := fun (_ : list event) (_ : str) => false in
  let permits := fun (_ : list event) (_ : event) => true in
  let self := Client_init (py "http://ctf.example/") (py "out") in
  let link := py "http://ctf.example/" in
  writes (snd (mirror get bs isdir permits self link []))
  = [(py "out/webwizard_output/css/site.css", py "<html>");
     (py "/static/app.js", py "<html>");
     (py "out/webwizard_output/index.html", py "<html>" ++ [c_newline])]
  /\ exists r all_files ws,
       get link = Some r
       /\ get_remote_files get bs link = Return all_files
       /\ Forall2 (fun url w =>
                     exists v i, url = link ++ v /\ get url = Some i
                                 /\ w = (if startswith v (py "/") && mem c_slash (tl v)
                                         then v else webwizard_dir self ++ v,
                                         content i))
                  all_files ws
       /\ writes (snd (mirror get bs isdir permits self link []))
          = writes [] ++ ws
            ++ [(webwizard_dir self ++ py "index.html", content r ++ [c_newline])].
Proof.
  cbv zeta. split; [vm_compute; reflexivity|].
  apply (@mirror_writes
           (fun _ => Some (mk_response 200 (py "<html>")))
           (fun _ => [mk_tag (py "script") [(py "src", py "/static/app.js")];
                      mk_tag (py "link") [(py "href", py "css/site.css")]])
           (fun _ _ => false) (fun _ _ => true)
           (py "http://ctf.example/") (py "out") (py "http://ctf.example/") []).
  vm_compute. reflexivity.
Defined.


(** ** The plaintext scan and the rot13 scan *)

Lemma rot13_char_ascii c : (c < 128)%N -> (rot13_char c < 128)%N.
Proof.
  intro H. unfold rot13_char, is_upper, is_lower.
  destruct (between 65 90 c) eqn:U; [apply between_spec in U; lia|].
  destruct (between 97 122 c) eqn:L; [apply between_spec in L; lia|].
  assumption.
Qed.

Lemma literal_rot13 crib : literal crib -> literal (rot13 crib).
Proof.
  unfold literal, rot13. intro H. apply Forall_map.
  eapply Forall_impl; [|exact H]. intros c [H1 H2]. split.
  - now apply rot13_char_ascii.
  - now apply rot13_char_special.
Qed.

(** X21: The rot13 scan for a crib is the plaintext scan for the ROT13 image of
    the crib, and the other way round: for a crib of ASCII characters that
    are literal in a regular expression the two scans find the same matches
    in every text. *)
Theorem rot13_scan_dual (crib text : str) :
  literal crib ->
  rot13_flags crib text = plaintext_flags (rot13 crib) text
  /\ plaintext_flags crib text = rot13_flags (rot13 crib) text.
Proof.
  intro H. pose proof (literal_rot13 H) as H'.
  rewrite (plaintext_flags_literal text H), (rot13_flags_literal text H),
    (plaintext_flags_literal text H'), (rot13_flags_literal text H').
  now rewrite rot13_involutive.
Qed.

Lemma rot13_scan_dual_witness :
  rot13_flags (py "FLAG") (py "x SYNT{grfg} y") = plaintext_flags (rot13 (py "FLAG")) (py "x SYNT{grfg} y")
  /\ plaintext_flags (py "FLAG") (py "x SYNT{grfg} y")
     = rot13_flags (rot13 (py "FLAG")) (py "x SYNT{grfg} y").
Proof.
  apply (@rot13_scan_dual (py "FLAG") (py "x SYNT{grfg} y")). repeat constructor.
Defined.




(** ** The scans of a literal crib *)

(** The scan passes over no match: a position at which the pattern matches
    is the start of a reported match unless an earlier reported match
    covers it. *)
Lemma finditer_covers p s : forall skip pos i,
  skip <= i -> i <= length s -> run p (skipn i s) <> None ->
  covered (finditer p s skip pos) (pos + i).
Proof.
  induction s as [|c s IH]; intros skip pos i Hs Hi R.
  - cbn [length] in Hi. assert (i = 0) as -> by lia. assert (skip = 0) as -> by lia.
    cbn [skipn] in R. cbn [finditer].
    destruct (run p []) as [[marks rest]|]; [|contradiction].
    eexists. split; [now left|]. cbn [start stop]. lia.
  - assert (Later : forall k i', i = S i' -> k <= i' ->
              forall l, (forall f, In f (finditer p s k (S pos)) -> In f l) ->
                        covered l (pos + i)).
    { intros k i' -> Hk l Hl. cbn [length] in Hi. cbn [skipn] in R.
      destruct (IH k (S pos) i' Hk ltac:(lia) R) as (f & Hf & H1 & H2).
      exists f. split; [now apply Hl|]. lia. }
    cbn [finditer]. destruct skip as [|k].
    + destruct (run p (c :: s)) as [[marks rest]|] eqn:E.
      * destruct (length (c :: s) - length rest) as [|n] eqn:L.
        -- destruct i as [|i'].
           { eexists. split; [now left|]. cbn [start stop]. lia. }
           destruct (sre_match p true (length (c :: s)) (c :: s)) as [[marks' rest']|].
           ++ destruct (Nat.le_gt_cases (pred (length (c :: s) - length rest')) i') as [G|G].
              ** apply (Later _ i' eq_refl G). intros f Hf. right. now right.
              ** eexists. split; [right; now left|]. cbn [start stop]. lia.
           ++ apply (Later 0 i' eq_refl (Nat.le_0_l _)). intros f Hf. now right.
        -- destruct i as [|i'].
           { eexists. split; [now left|]. cbn [start stop]. lia. }
           destruct (Nat.le_gt_cases n i') as [G|G].
           ++ apply (Later n i' eq_refl G). intros f Hf. now right.
           ++ eexists. split; [now left|]. cbn [start stop]. lia.
      * destruct i as [|i']; [cbn [skipn] in R; contradiction|].
        apply (Later 0 i' eq_refl (Nat.le_0_l _)). auto.
    + destruct i as [|i']; [lia|].
      apply (Later k i' eq_refl ltac:(lia)). auto.
Qed.

Lemma findall_covers p text a m b :
  text = a ++ m ++ b -> matches p m -> covered (finditer p text 0 0) (length a).
Proof.
  intros -> M.
  apply (@finditer_covers p (a ++ m ++ b) 0 0 (length a) (Nat.le_0_l _)).
  - rewrite length_app. lia.
  - rewrite skipn_app_length. now apply run_complete.
Qed.

(** X23: With a crib of ASCII characters that are literal in a regular
    expression, a returned list is the plaintext candidates, then the rot13
    candidates, then the base64 candidates, one candidate for every match of
    the scan of its pattern, in the order of the matches; nothing is merged,
    so the list is as long as the three scans together. In each scan the
    matches lie apart in the text from left to right, each is a match of
    the pattern at its place, and no match is passed over: wherever the text
    holds a string that the pattern matches, a reported match begins there,
    or an earlier reported match reaches over that place. *)
Theorem candidates_in_order (crib text : str) (out : stdout) (flags : list str) :
  literal crib ->
  fst (parse_for_flag crib text out) = Returns flags ->
  exists ps decoded,
    build_patterns (strip c_lbrace crib) = Returns ps
    /\ flags = map (app plaintext_label)
                   (map value (finditer (plaintext_pattern ps) text 0 0))
               ++ map (app rot13_label)
                      (map rot13 (map value (finditer (rot13_pattern ps) text 0 0)))
               ++ map (app base64_label) decoded
    /\ Forall2 (fun x v => base64_value x = Returns v)
               (map value (finditer (base64_pattern ps) text 0 0)) decoded
    /\ length flags
       = length (finditer (plaintext_pattern ps) text 0 0)
         + length (finditer (rot13_pattern ps) text 0 0)
         + length (finditer (base64_pattern ps) text 0 0)
    /\ forall p, In p [plaintext_pattern ps; rot13_pattern ps; base64_pattern ps] ->
         apart 0 (finditer p text 0 0)
         /\ Forall (located p text) (finditer p text 0 0)
         /\ forall a m b, text = a ++ m ++ b -> matches p m ->
                          covered (finditer p text 0 0) (length a).
Proof.
  intros _ H. apply parse_for_flag_returns in H. unfold possible_flags in H.
  destruct (build_patterns (strip c_lbrace crib)) as [ps|e] eqn:B; [|discriminate].
  cbn [bind] in H. destruct (extract_inv _ _ H) as (decoded & F & E).
  exists ps, decoded. unfold findall in *.
  split; [reflexivity|]. split; [exact E|]. split; [exact F|]. split.
  - rewrite E, !length_app, !length_map. apply Forall2_length in F.
    rewrite length_map in F. now rewrite F, Nat.add_assoc.
  - intros p _. split; [apply findall_located|]. split; [apply findall_located|].
    intros a m b. apply findall_covers.
Qed.

Lemma candidates_in_order_witness :
  let text := py "FLAG{a}FLAG{a} RkxBR3t0ZXN0fQ== SYNT{grfg}" in
  let flags := [py "plaintext flag: FLAG{a}"; py "plaintext flag: FLAG{a}";
                py "rot13 flag: FLAG{test}"; py "base64 flag: FLAG{test}"] in
  exists ps decoded,
    build_patterns (strip c_lbrace (py "FLAG")) = Returns ps
    /\ flags = map (app plaintext_label)
                   (map value (finditer (plaintext_pattern ps) text 0 0))
               ++ map (app rot13_label)
                      (map rot13 (map value (finditer (rot13_pattern ps) text 0 0)))
               ++ map (app base64_label) decoded
    /\ Forall2 (fun x v => base64_value x = Returns v)
               (map value (finditer (base64_pattern ps) text 0 0)) decoded
    /\ length flags
       = length (finditer (plaintext_pattern ps) text 0 0)
         + length (finditer (rot13_pattern ps) text 0 0)
         + length (finditer (base64_pattern ps) text 0 0)
    /\ forall p, In p [plaintext_pattern ps; rot13_pattern ps; base64_pattern ps] ->
         apart 0 (finditer p text 0 0)
         /\ Forall (located p text) (finditer p text 0 0)
         /\ forall a m b, text = a ++ m ++ b -> matches p m ->
                          covered (finditer p text 0 0) (length a).
Proof.
  cbv zeta.
  apply (@candidates_in_order (py "FLAG")
           (py "FLAG{a}FLAG{a} RkxBR3t0ZXN0fQ== SYNT{grfg}") []).
  - repeat constructor.
  - vm_compute. reflexivity.
Defined.

(** X24: With a crib of ASCII characters that are literal in a regular
    expression and hold no line break, no plaintext match and no plaintext
    candidate of a returned list holds a line break: every atom of the
    plaintext pattern is a crib character, the wildcard of a gap or of the
    body (which passes every character but a line break) or a brace. A flag
    whose filler or body runs over two lines is never among the plaintext
    candidates. *)
Theorem plaintext_single_line (crib text : str) :
  literal crib -> ~ In c_newline crib ->
  (forall hits, plaintext_flags crib text = Returns hits ->
                 forall v, In v hits -> ~ In c_newline v)
  /\ (forall out flags,
        fst (parse_for_flag crib text out) = Returns flags ->
        forall v, In v (candidates Plaintext flags) -> ~ In c_newline v).
Proof.
  intros _ H. split.
  - unfold plaintext_flags. intros hits E.
    destruct (build_patterns (strip c_lbrace crib)) as [ps|e] eqn:B; [|discriminate].
    cbn [bind] in E. injection E as <-. intro v.
    apply findall_single_line. eapply plaintext_pattern_single_line; eassumption.
  - intros out flags E. apply parse_for_flag_returns in E. unfold possible_flags in E.
    destruct (build_patterns (strip c_lbrace crib)) as [ps|e] eqn:B; [|discriminate].
    cbn [bind] in E. apply extract_candidates in E as (E & _). rewrite E. intro v.
    apply findall_single_line. eapply plaintext_pattern_single_line; eassumption.
Qed.

Lemma plaintext_single_line_witness :
  ~ In c_newline (py "FL.AG{one}").
Proof.
  apply (proj2 (@plaintext_single_line (py "FLAG")
                  (py "FL.AG{one}" ++ [c_newline] ++ py "F" ++ [c_newline] ++ py "LAG{t"
                      ++ [c_newline] ++ py "wo} FLAG{")
                  ltac:(repeat constructor)
                  ltac:(cbn; intuition discriminate))
               [] [py "plaintext flag: FL.AG{one}"]).
  - vm_compute. reflexivity.
  - left. reflexivity.
Defined.
